(** * CreatorsBuddy: the script generation pipeline of [script_generator.py]

    A shallow embedding of [ScriptGenerator]: the word-cap resolution, the
    orchestration of the external generation calls (safety fallback,
    safety-rating check, continuation calls) with the lines that it prints,
    the post-processing chain (cleaning, section reformatting, sentence-aware
    truncation, terminal punctuation), the training on the transcripts and
    the export of the training context.

    Python [str] values are sequences of Unicode code points; Python [int]s
    are unbounded integers; Python [float]s are IEEE binary64 numbers. *)

From Stdlib Require Import Strings.String Strings.Ascii Numbers.DecimalString.
From Stdlib Require Import Floats QArith.
From Stdlib Require Import ZArith NArith List Bool Lia.
Import ListNotations.

Set Warnings "-register-all".
Open Scope Z_scope.

(** ** Python strings *)

(** A code point. *)
Definition char := N.

(** A Python [str]. *)
Definition str := list char.

(** A string literal of the source that only uses ASCII characters. *)
Definition lit (s : string) : str := List.map N_of_ascii (list_ascii_of_string s).

Definition LF : char := 10%N.
Definition CR : char := 13%N.
Definition TAB : char := 9%N.
Definition SPACE : char := 32%N.
Definition FULL_STOP : char := 46%N.
Definition EXCLAMATION : char := 33%N.
Definition QUESTION : char := 63%N.
Definition PIPE : char := 124%N.
(** U+0964, the Devanagari danda. *)
Definition DANDA : char := 2404%N.

Definition in_range (lo hi c : N) : bool := ((lo <=? c) && (c <=? hi))%N.

(** [str.isspace] on one code point: the characters that [str.split()],
    [str.strip()] and the regular expression class [\s] (on [str] patterns)
    treat as whitespace. *)
Definition is_space (c : char) : bool :=
  in_range 9 13 c || in_range 28 32 c || (c =? 133)%N || (c =? 160)%N
  || (c =? 5760)%N || in_range 8192 8202 c || (c =? 8232)%N || (c =? 8233)%N
  || (c =? 8239)%N || (c =? 8287)%N || (c =? 12288)%N.

(** [s.split()]: the maximal runs of non-whitespace characters. *)
Fixpoint split (s : str) : list str :=
  match s with
  | [] => []
  | c :: s' =>
      if is_space c then split s'
      else match s' with
           | [] => [[c]]
           | d :: _ =>
               if is_space d then [c] :: split s'
               else match split s' with
                    | w :: ws => (c :: w) :: ws
                    | [] => [[c]]
                    end
           end
  end.

(** [sep.join(parts)]. *)
Fixpoint join (sep : str) (parts : list str) : str :=
  match parts with
  | [] => []
  | [p] => p
  | p :: ps => p ++ sep ++ join sep ps
  end.

(** [s.split(sep)] for a one-character separator: the pieces between the
    occurrences of [sep], empty pieces included; never an empty list. *)
Fixpoint split_on (sep : char) (s : str) : list str :=
  match s with
  | [] => [[]]
  | c :: s' =>
      if (c =? sep)%N then [] :: split_on sep s'
      else match split_on sep s' with
           | p :: ps => (c :: p) :: ps
           | [] => [[c]]
           end
  end.

Fixpoint drop_while (p : char -> bool) (s : str) : str :=
  match s with
  | [] => []
  | c :: s' => if p c then drop_while p s' else s
  end.

(** [s.lstrip()], [s.rstrip()] and [s.strip()]. *)
Definition lstrip (s : str) : str := drop_while is_space s.
Definition rstrip (s : str) : str := rev (drop_while is_space (rev s)).
Definition strip (s : str) : str := rstrip (lstrip s).

(** [s.startswith(prefix)]. *)
Fixpoint startswith (s prefix : str) : bool :=
  match prefix, s with
  | [], _ => true
  | p :: prefix', c :: s' => (c =? p)%N && startswith s' prefix'
  | _ :: _, [] => false
  end.

(** [s.replace(old, new)] for a non-empty [old]: the occurrences are found
    from the left and do not overlap. [skip] counts the characters of the
    occurrence found last that are still to be passed over. *)
Fixpoint replace_from (old new : str) (s : str) (skip : nat) : str :=
  match s with
  | [] => []
  | c :: s' =>
      match skip with
      | S k => replace_from old new s' k
      | O =>
          if startswith s old
          then new ++ replace_from old new s' (length old - 1)
          else c :: replace_from old new s' 0
      end
  end.

Definition replace (old new : str) (s : str) : str := replace_from old new s 0.

(** [len(s)] and [len(s.split())] as Python integers. *)
Definition len {A} (l : list A) : Z := Z.of_nat (length l).
Definition word_count (s : str) : Z := len (split s).

(** [l[:m]]: a negative bound counts from the end. *)
Definition slice_to {A} (l : list A) (m : Z) : list A :=
  if 0 <=? m then firstn (Z.to_nat m) l
  else firstn (length l - Z.to_nat (- m)) l.

(** [l[-n:]] for a positive [n]: the last [n] elements. *)
Definition last_n {A} (n : nat) (l : list A) : list A :=
  skipn (length l - n) l.

(** [str(n)] / the f-string rendering of an integer. *)
Definition str_of_int (z : Z) : str := lit (NilZero.string_of_int (Z.to_int z)).

(** ** Regular expressions

    The patterns of the source are sequences of character classes, some of
    them under a greedy star. [re_match] is the backtracking matcher of the
    [re] module on such patterns: it returns the length of the match that
    starts at the head of the subject. *)

Inductive re_item :=
| Class (p : char -> bool)   (* one character of a class *)
| Star (p : char -> bool)    (* a class under a greedy star *)
| Dollar.                    (* [$]: the end, or just before a final newline *)

(** Greedy star: take one more character when the rest still matches after
    it, otherwise hand over to the continuation here. *)
Fixpoint star_match (p : char -> bool) (k : str -> option nat) (s : str) : option nat :=
  match s with
  | c :: s' =>
      if p c then
        match star_match p k s' with
        | Some n => Some (S n)
        | None => k s
        end
      else k s
  | [] => k []
  end.

Fixpoint re_match (r : list re_item) : str -> option nat :=
  match r with
  | [] => fun _ => Some O
  | Class p :: r' =>
      fun s =>
        match s with
        | c :: s' => if p c then option_map S (re_match r' s') else None
        | [] => None
        end
  | Star p :: r' => star_match p (re_match r')
  | Dollar :: r' =>
      fun s =>
        match s with
        | [] => re_match r' s
        | [c] => if (c =? LF)%N then re_match r' s else None
        | _ => None
        end
  end.

(** [re.search(r, s)] as a truth value: is there a match at some position. *)
Fixpoint re_search (r : list re_item) (s : str) : bool :=
  match re_match r s with
  | Some _ => true
  | None => match s with
            | [] => false
            | _ :: s' => re_search r s'
            end
  end.

(** [re.sub(r, repl, s)] for a pattern that matches no empty string: the
    leftmost matches, not overlapping, are replaced. [skip] counts the
    characters of the current match that are still to be passed over. *)
Fixpoint re_sub_from (r : list re_item) (repl : str) (s : str) (skip : nat) : str :=
  match s with
  | [] => []
  | c :: s' =>
      match skip with
      | S k => re_sub_from r repl s' k
      | O =>
          match re_match r s with
          | Some (S n) => repl ++ re_sub_from r repl s' n
          | _ => c :: re_sub_from r repl s' 0
          end
      end
  end.

Definition re_sub (r : list re_item) (repl : str) (s : str) : str :=
  re_sub_from r repl s 0.

(** [[m.end() for m in r.finditer(s)]], the subject starting at index [pos]. *)
Fixpoint re_match_ends (r : list re_item) (s : str) (pos : nat) (skip : nat) : list nat :=
  match s with
  | [] => []
  | _ :: s' =>
      match skip with
      | S k => re_match_ends r s' (S pos) k
      | O =>
          match re_match r s with
          | Some (S n) => (pos + S n)%nat :: re_match_ends r s' (S pos) n
          | _ => re_match_ends r s' (S pos) 0
          end
      end
  end.

Definition char_is (a : char) (c : char) : bool := (c =? a)%N.

(** ** Floats

    [int * float] and [int(float)] as the interpreter computes them: the
    integer is converted to binary64 (exactly, below 2^53), the product is
    rounded to nearest, and [int] truncates towards zero. *)

Definition float_of_int (z : Z) : float :=
  if z <? 0 then PrimFloat.opp (PrimFloat.of_uint63 (Uint63.of_Z (- z)))
  else PrimFloat.of_uint63 (Uint63.of_Z z).

Definition int_of_float (f : float) : Z :=
  match Prim2SF f with
  | S754_finite sign m e =>
      let magnitude := if 0 <=? e then Z.pos m * 2 ^ e else Z.pos m / 2 ^ (- e) in
      if sign then - magnitude else magnitude
  | _ => 0
  end.

(** The literals [0.85] and [1.3] of the source, as the binary64 values the
    interpreter reads them as. *)
Definition float_0_85 : float := 0x1.b333333333333p-1%float.
Definition float_1_3 : float := 0x1.4cccccccccccdp+0%float.

(** ** Post-processing: the pure text functions *)

Definition is_surrogate (c : char) : bool := in_range 55296 57343 c.
(** The class [\u200B-\u200D\uFEFF] of the zero-width characters. *)
Definition is_zero_width (c : char) : bool := in_range 8203 8205 c || (c =? 65279)%N.
(** [\uFFFD], the replacement character. *)
Definition is_replacement (c : char) : bool := (c =? 65533)%N.
(** The class [ \t] of the space and the tab. *)
Definition is_blank (c : char) : bool := (c =? SPACE)%N || (c =? TAB)%N.
(** The class [\.\!\?\|\u0964] of the marks that end a sentence for the
    truncation: full stop, exclamation mark, question mark, pipe and danda. *)
Definition is_boundary_mark (c : char) : bool :=
  (c =? FULL_STOP)%N || (c =? EXCLAMATION)%N || (c =? QUESTION)%N
  || (c =? PIPE)%N || (c =? DANDA)%N.
(** The class [\.\!\?\u0964] of the marks that may end the script: full
    stop, exclamation mark, question mark and danda. *)
Definition is_terminator (c : char) : bool :=
  (c =? FULL_STOP)%N || (c =? EXCLAMATION)%N || (c =? QUESTION)%N || (c =? DANDA)%N.

(** [text.encode('utf-8', errors='ignore').decode('utf-8')]: the code points
    that UTF-8 cannot encode, the surrogates, are dropped. *)
Definition utf8_ignore_roundtrip (text : str) : str :=
  filter (fun c => negb (is_surrogate c)) text.

(** The pattern \n\s*\n\s*\n: a newline, whitespace, a newline, whitespace,
    a newline. *)
Definition blank_lines_regex : list re_item :=
  [Class (char_is LF); Star is_space; Class (char_is LF); Star is_space; Class (char_is LF)].

Definition _clean_response_text (text : str) : str :=
  let cleaned_text := utf8_ignore_roundtrip text in
  let cleaned_text := re_sub [Class is_zero_width] [] cleaned_text in
  let cleaned_text := re_sub [Class is_replacement; Star is_replacement] [] cleaned_text in
  let cleaned_text := re_sub blank_lines_regex [LF; LF] cleaned_text in
  let cleaned_text := re_sub [Class is_blank; Star is_blank] [SPACE] cleaned_text in
  replace [CR] [LF] (replace [CR; LF] [LF] cleaned_text).

(** The pattern [\.\!\?\|\u0964]\s: a boundary mark followed by one
    whitespace character. *)
Definition boundary_regex : list re_item := [Class is_boundary_mark; Class is_space].

Definition _truncate_to_words_sentence_aware (text : str) (max_words : Z) : str :=
  let words := split text in
  if len words <=? max_words then text
  else
    let provisional := join [SPACE] (slice_to words max_words) in
    let last_boundary_idx :=
      fold_left (fun _ match_end => Z.of_nat match_end)
                (re_match_ends boundary_regex provisional 0 0) (-1) in
    if negb (last_boundary_idx =? -1)
    then strip (slice_to provisional last_boundary_idx)
    else strip provisional.

Definition _ensure_sentence_boundary (text : str) : str :=
  let cleaned := rstrip text in
  if negb (re_search [Class is_terminator; Dollar] cleaned)
  then cleaned ++ lit "."
  else cleaned.

(** ** The external generation service

    What [generate_script] reads of a response of [model.generate_content]. *)

(** [Exception]; [str(e)] is its message. *)
Inductive exn := Exception (message : str).

Definition str_of_exn (e : exn) : str := let (message) := e in message.

(** [HarmProbability], the enumeration of the client library
    [google.generativeai] for the level of a rating. Its members are integers
    (an [IntEnum]): none of them is equal to a string. *)
Inductive HarmProbability :=
| HARM_PROBABILITY_UNSPECIFIED
| NEGLIGIBLE
| LOW
| MEDIUM
| HIGH.

(** What [getattr(rating, 'probability', None)] reads. The ratings that the
    client library builds from an answer of the service carry a member of
    [HarmProbability]; an object of another making may carry a string, or
    lack the attribute. *)
Inductive Probability :=
| ProbabilityLevel (level : HarmProbability)
| ProbabilityText (level : str)
| ProbabilityNone.

Record SafetyRating := {
  (** [rating.category] as an f-string renders it *)
  category : str;
  probability : Probability
}.

Record Part := { part_text : option str }.

Record Content := { parts : list Part }.

Record Candidate := {
  safety_ratings : list SafetyRating;
  content : option Content
}.

Record Response := {
  candidates : list Candidate;
  (** The quick accessor [response.text], a property that may raise. *)
  text : exn + str;
  (** [str(response)] *)
  response_str : exn + str
}.

(** The place in the source that issues a call of [model.generate_content]. *)
Inductive CallSite :=
| InitialCall                (* generate_script, the full prompt *)
| FallbackCall               (* generate_script, the simpler prompt *)
| ContinuationCall           (* _attempt_continuation *)
| GuidedContinuationCall.    (* _attempt_guided_continuation *)

Record Call := {
  call_site : CallSite;
  call_prompt : str;
  (** The ["max_output_tokens"] entry of the generation config of the call. *)
  call_max_output_tokens : Z
}.

(** ** Computations that call the service and may raise

    The state is the list of the calls issued so far, oldest first. *)

Definition Py (A : Type) : Type := list Call -> (exn + A) * list Call.

Definition ret {A} (a : A) : Py A := fun calls => (inr a, calls).

Definition raise {A} (e : exn) : Py A := fun calls => (inl e, calls).

Definition bind {A B} (m : Py A) (k : A -> Py B) : Py B :=
  fun calls =>
    match m calls with
    | (inr a, calls') => k a calls'
    | (inl e, calls') => (inl e, calls')
    end.

(** [try: m except Exception as e: handler e] *)
Definition try_except {A} (m : Py A) (handler : exn -> Py A) : Py A :=
  fun calls =>
    match m calls with
    | (inl e, calls') => handler e calls'
    | done => done
    end.

(** Evaluating an expression that may raise. *)
Definition eval {A} (v : exn + A) : Py A :=
  match v with
  | inl e => raise e
  | inr a => ret a
  end.

Notation "x <- m ;; k" := (bind m (fun x => k))
  (at level 61, m at next level, right associativity).

(** ** The result of [generate_script]

    The keys of the result dictionary that depend on the generated text; the
    speaking time, the timing suggestions (functions of the target duration),
    the echoed request parameters and the wall-clock time are left out. *)

Record Metadata := {
  meta_topic : str;
  meta_length_minutes : Z
}.

Inductive GenerationResult :=
| Success (script : str) (estimated_word_count : Z) (metadata : Metadata)
| Failure (error : str) (metadata : Metadata).

Definition success (r : GenerationResult) : bool :=
  match r with
  | Success _ _ _ => true
  | Failure _ _ => false
  end.

(** The ['script'] and ['word_count'] entries of what [_post_process_script]
    returns. *)
Record ProcessedScript := {
  processed_script : str;
  processed_word_count : Z
}.

Fixpoint str_eqb (a b : str) : bool :=
  match a, b with
  | [], [] => true
  | c :: a', d :: b' => (c =? d)%N && str_eqb a' b'
  | _, _ => false
  end.

(** Truth value of a string, of an integer and of an optional integer. *)
Definition truthy_str (s : str) : bool := match s with [] => false | _ => true end.
Definition truthy_int (z : Z) : bool := negb (z =? 0).
Definition truthy_opt_int (o : option Z) : bool :=
  match o with
  | Some z => truthy_int z
  | None => false
  end.

(** ** More of the Python strings *)

(** A string literal of the source with characters beyond ASCII: the file
    holds it in UTF-8, one to four bytes for a code point. [pending] counts
    the bytes of the current code point that are still to come and [acc]
    holds the bits read so far. *)
Fixpoint utf8_decode (bytes : list N) (pending : nat) (acc : N) : str :=
  match bytes with
  | [] => []
  | b :: rest =>
      match pending with
      | O =>
          if (b <? 128)%N then b :: utf8_decode rest 0 0
          else if (b <? 224)%N then utf8_decode rest 1 (b - 192)
          else if (b <? 240)%N then utf8_decode rest 2 (b - 224)
          else utf8_decode rest 3 (b - 240)
      | S O => (acc * 64 + (b - 128))%N :: utf8_decode rest 0 0
      | S k => utf8_decode rest k (acc * 64 + (b - 128))%N
      end
  end.

Definition utf8 (s : string) : str :=
  utf8_decode (List.map N_of_ascii (list_ascii_of_string s)) 0 0.

(** The quotation mark, which a literal cannot hold. *)
Definition QUOTATION : char := 34%N.

(** [needle in hay] on two strings: [needle] occurs in [hay]. *)
Fixpoint contains (hay needle : str) : bool :=
  startswith hay needle
  || match hay with
     | [] => false
     | _ :: hay' => contains hay' needle
     end.

(** [table.get(key, default)] on a dictionary literal from strings to
    strings. *)
Fixpoint table_get (table : list (str * str)) (key default : str) : str :=
  match table with
  | [] => default
  | (k, v) :: rest => if str_eqb k key then v else table_get rest key default
  end.

(** A triple-quoted literal: its lines, each followed by a newline, after the
    newline that follows the opening quotes. *)
Definition block (lines : list str) : str := [LF] ++ flat_map (fun line => line ++ [LF]) lines.

(** ** The configuration ([config.py]) *)

Module Config.

Definition VALID_TONES : list str :=
  [lit "friendly_and_informative";
   lit "enthusiastic_and_energetic";
   lit "professional_and_formal";
   lit "casual_and_conversational";
   lit "dramatic_and_engaging";
   lit "technical_and_detailed";
   lit "humorous_and_entertaining"].

End Config.

(** ** The front end ([app.py]) *)

Module App.

(** The content types that [render_generation_tab] offers. *)
Definition content_type_options : list str :=
  [lit "review"; lit "comparison"; lit "unboxing"; lit "tutorial"; lit "general"].

End App.

(** ** The heuristics on the enumerated items

    [_extract_expected_item_count] and [_count_list_items] match patterns
    with alternatives, a capturing group and word boundaries. The matcher
    below is the backtracking matcher of the [re] module on such patterns; it
    passes the cursor and the captured text to a continuation. *)

Module Heuristics.

Inductive atom :=
| One (p : char -> bool)      (* one character of a class *)
| Many (p : char -> bool)     (* a class under a greedy star *)
| Maybe (p : char -> bool)    (* a class under a greedy question mark *)
| WordBoundary.               (* \b *)

Inductive rx_item :=
| Atom (a : atom)
| Alt (alternatives : list (list atom))   (* (?:...|...) *)
| Group (body : list atom).               (* (...), the capturing group *)

(** Where the matcher stands: the character before the cursor, the text from
    the cursor on, and the number of the characters matched so far. *)
Record Cursor := {
  before : option char;
  rest : str;
  consumed : nat
}.

Section Matcher.

(** The Unicode tables of the [re] module: the class [\d] of the decimal
    digits; the class [\w] of the letters, the digits and the underscore; and
    the characters that match a letter of a pattern under [re.IGNORECASE]. *)
Variable is_digit : char -> bool.
Variable is_word_char : char -> bool.
Variable matches_ignoring_case : char -> char -> bool.

(** [int(m)] on a text, [None] when it raises. *)
Variable int_of_str : str -> option Z.

Section Matching.

Variable R : Type.

(** Greedy star: one more character when the rest matches after it,
    otherwise the continuation here. *)
Fixpoint many (p : char -> bool) (k : Cursor -> option R)
    (text_before : option char) (s : str) (matched : nat) : option R :=
  match s with
  | c :: s' =>
      if p c then
        match many p k (Some c) s' (S matched) with
        | Some r => Some r
        | None => k {| before := text_before; rest := s; consumed := matched |}
        end
      else k {| before := text_before; rest := s; consumed := matched |}
  | [] => k {| before := text_before; rest := []; consumed := matched |}
  end.

Definition is_word_at (c : option char) : bool :=
  match c with
  | Some c => is_word_char c
  | None => false
  end.

Fixpoint match_atoms (atoms : list atom) (k : Cursor -> option R) (cursor : Cursor)
  : option R :=
  match atoms with
  | [] => k cursor
  | One p :: atoms' =>
      match rest cursor with
      | c :: s' =>
          if p c
          then match_atoms atoms' k
                 {| before := Some c; rest := s'; consumed := S (consumed cursor) |}
          else None
      | [] => None
      end
  | Many p :: atoms' =>
      many p (match_atoms atoms' k) (before cursor) (rest cursor) (consumed cursor)
  | Maybe p :: atoms' =>
      match rest cursor with
      | c :: s' =>
          if p c then
            match match_atoms atoms' k
                    {| before := Some c; rest := s'; consumed := S (consumed cursor) |} with
            | Some r => Some r
            | None => match_atoms atoms' k cursor
            end
          else match_atoms atoms' k cursor
      | [] => match_atoms atoms' k cursor
      end
  | WordBoundary :: atoms' =>
      if xorb (is_word_at (before cursor)) (is_word_at (hd_error (rest cursor)))
      then match_atoms atoms' k cursor
      else None
  end.

(** The alternatives are tried in their order; the group records the text
    that its body matched. *)
Fixpoint match_items (items : list rx_item) (k : Cursor -> option str -> option R)
    (cursor : Cursor) (captured : option str) : option R :=
  match items with
  | [] => k cursor captured
  | Atom a :: items' =>
      match_atoms [a] (fun cursor' => match_items items' k cursor' captured) cursor
  | Alt alternatives :: items' =>
      (fix try (alternatives : list (list atom)) : option R :=
         match alternatives with
         | [] => None
         | alternative :: others =>
             match match_atoms alternative
                     (fun cursor' => match_items items' k cursor' captured) cursor with
             | Some r => Some r
             | None => try others
             end
         end) alternatives
  | Group body :: items' =>
      match_atoms body
        (fun cursor' =>
           match_items items' k cursor'
             (Some (firstn (consumed cursor' - consumed cursor) (rest cursor))))
        cursor
  end.

End Matching.

(** The match of a pattern at the cursor: its length and the text of its
    group. *)
Definition match_at (pattern : list rx_item) (text_before : option char) (s : str)
  : option (nat * option str) :=
  match_items (nat * option str) pattern
    (fun cursor captured => Some (consumed cursor, captured))
    {| before := text_before; rest := s; consumed := 0 |} None.

(** [re.match(pattern, s)] as a truth value. *)
Definition re_match_truthy (pattern : list rx_item) (s : str) : bool :=
  match match_at pattern None s with
  | Some _ => true
  | None => false
  end.

(** [re.findall(pattern, s)] for a pattern with one group that matches no
    empty text: the texts of the group in the leftmost matches, which do not
    overlap. [skip] counts the characters of the current match that are still
    to be passed over. *)
Fixpoint findall (pattern : list rx_item) (text_before : option char) (s : str)
    (skip : nat) : list str :=
  match s with
  | [] => []
  | c :: s' =>
      match skip with
      | S k => findall pattern (Some c) s' k
      | O =>
          match match_at pattern text_before s with
          | Some (S n, Some group) => group :: findall pattern (Some c) s' n
          | _ => findall pattern (Some c) s' 0
          end
      end
  end.

(** The letters of a word of a pattern, under [re.IGNORECASE] and as they
    are. *)
Definition word_ignoring_case (w : string) : list atom :=
  List.map (fun a => One (matches_ignoring_case a)) (lit w).
Definition word_exactly (w : string) : list atom :=
  List.map (fun a => One (char_is a)) (lit w).

Definition one_of (chars : string) (c : char) : bool :=
  existsb (fun a => (c =? a)%N) (lit chars).

(** top\s+(\d+) *)
Definition top_pattern : list rx_item :=
  List.map Atom (word_ignoring_case "top")
  ++ [Atom (One is_space); Atom (Many is_space); Group [One is_digit; Many is_digit]].

(** \b(\d+)\s*(?:items?|laptops?|phones?|mobiles?|tips?|points?)\b *)
Definition counted_pattern : list rx_item :=
  [Atom WordBoundary;
   Group [One is_digit; Many is_digit];
   Atom (Many is_space);
   Alt (List.map (fun w => word_ignoring_case w ++ [Maybe (matches_ignoring_case (N_of_ascii "s"))])
                 ["item"; "laptop"; "phone"; "mobile"; "tip"; "point"]%string);
   Atom WordBoundary].

Definition _extract_expected_item_count (topic : str) (additional_context : option str)
  : option Z :=
  let text :=
    join [SPACE]
         (filter truthy_str
                 (topic :: match additional_context with
                           | Some context => [context]
                           | None => []
                           end)) in
  let patterns := [top_pattern; counted_pattern] in
  let candidates :=
    flat_map
      (fun pat =>
         flat_map (fun m => match int_of_str m with
                            | Some n => [n]
                            | None => []
                            end)
                  (findall pat None text 0))
      patterns in
  match candidates with
  | [] => None
  | n :: others => Some (fold_left Z.max others n)
  end.

(** ^(?:\d+[\).]|[-*]\s)\s*; a match at the start is all that [re.match]
    looks for. *)
Definition numbered_or_bulleted : list rx_item :=
  [Alt [[One is_digit; Many is_digit; One (one_of ").")];
        [One (one_of "-*"); One is_space]];
   Atom (Many is_space)].

(** ^\*\*\s*\w+\s*\d+\s*\*\* *)
Definition bold_heading : list rx_item :=
  List.map Atom
    [One (one_of "*"); One (one_of "*"); Many is_space;
     One is_word_char; Many is_word_char; Many is_space;
     One is_digit; Many is_digit; Many is_space;
     One (one_of "*"); One (one_of "*")].

(** ^(?:laptop|phone|item)\s*\d+[:\-], under [re.IGNORECASE] *)
Definition named_item : list rx_item :=
  [Alt (List.map word_ignoring_case ["laptop"; "phone"; "item"]%string);
   Atom (Many is_space); Atom (One is_digit); Atom (Many is_digit);
   Atom (One (one_of ":-"))].

Definition is_list_item (ln : str) : bool :=
  if re_match_truthy numbered_or_bulleted ln then true
  else if re_match_truthy bold_heading ln then true
  else re_match_truthy named_item ln.

Definition _count_list_items (text : str) : Z :=
  let lines := List.map strip (split_on LF text) in
  len (filter is_list_item lines).

(** No character of [s] is a digit. *)
Definition digit_free (s : str) : Prop := Forall (fun c => is_digit c = false) s.

End Matcher.

End Heuristics.

(** ** The generator *)

Section ScriptGenerator.

(** Unicode case mapping, [str.lower] and [str.upper]. *)
Variable str_lower : str -> str.
Variable str_upper : str -> str.

(** [_build_generation_prompt], the rendering of the request into the prompt
    text: topic, length, tone, audience, content type, creator style,
    additional context, word cap, transliteration flag. It calls nothing and
    raises nothing. *)
Variable _build_generation_prompt :
  str -> Z -> str -> str -> str -> option str -> option str -> Z -> bool -> str.

(** [_extract_expected_item_count] and [_count_list_items], the two
    heuristics on the enumerated items: pattern matches with the Unicode
    classes for digits and letters, without effect. The control flow below
    only uses their results. *)
Variable _extract_expected_item_count : str -> option str -> option Z.
Variable _count_list_items : str -> Z.

(** [self.model.generate_content]: what the service answers, or the exception
    it raises, given the calls issued before and the call. *)
Variable model : list Call -> Call -> exn + Response.

Definition generate_content (site : CallSite) (prompt : str) (max_output_tokens : Z)
  : Py Response :=
  fun calls =>
    let call := {| call_site := site; call_prompt := prompt;
                   call_max_output_tokens := max_output_tokens |} in
    (model calls call, calls ++ [call]).

(** *** Standard output

    [print(text)] hands the text to the encoder of [sys.stdout], which raises
    [UnicodeEncodeError] on a character that the encoding of the stream does
    not have, a lone surrogate with UTF-8. [stdout_write text] is the
    exception that the text meets, if any. What is written is read nowhere. *)
Variable stdout_write : str -> option exn.

Definition print (text : str) : Py unit :=
  match stdout_write text with
  | Some e => raise e
  | None => ret tt
  end.

(** *** Post-processing *)

Definition section_keywords : list str :=
  [lit "hook"; lit "intro"; lit "main"; lit "conclusion"; lit "outro"; lit "cta"].

(** The script text of [_post_process_script] before the word cap is
    enforced: the non-blank lines, stripped, those that start with a section
    keyword turned into a header. *)
Definition format_sections (raw_script : str) : str :=
  let lines := split_on LF raw_script in
  let cleaned_lines :=
    List.map strip (filter (fun line => truthy_str (strip line)) lines) in
  let formatted_script :=
    List.map
      (fun line =>
         if existsb (startswith (str_lower line)) section_keywords
         then
           let current_section := strip line in
           [LF] ++ lit "[" ++ str_upper current_section ++ lit "]" ++ [LF]
         else line)
      cleaned_lines in
  join [LF] formatted_script.

Definition _post_process_script (raw_script : str) (target_minutes : Z) (hard_word_cap : Z)
  : ProcessedScript :=
  let script_text := format_sections raw_script in
  let script_text := _truncate_to_words_sentence_aware script_text hard_word_cap in
  let script_text := _ensure_sentence_boundary script_text in
  {| processed_script := script_text;
     processed_word_count := word_count script_text |}.

(** *** The word cap (the first statements of [generate_script]) *)

Definition resolve_hard_word_cap (length_minutes : Z) (requested_word_cap : option Z) : Z :=
  let default_target_words := Z.max 150 (length_minutes * 150) in
  match requested_word_cap with
  | Some cap =>
      (* [if requested_word_cap and requested_word_cap > 0] *)
      if truthy_int cap && (0 <? cap)
      then Z.max 200 (Z.min 5000 cap)
      else Z.min 2000 default_target_words
  | None => Z.min 2000 default_target_words
  end.

(** [max(256, min(4096, int(hard_word_cap * 1.3)))] *)
Definition max_output_tokens_for (hard_word_cap : Z) : Z :=
  let approx_tokens := int_of_float (float_of_int hard_word_cap * float_1_3) in
  Z.max 256 (Z.min 4096 approx_tokens).

(** *** Text extraction *)

Definition _extract_text_from_response (response : Response) : option str :=
  let from_string :=
    match response_str response with
    | inr s => if truthy_str s then Some s else None
    | inl _ => None
    end in
  let from_candidates :=
    let parts_texts :=
      List.map
        (fun cand =>
           match content cand with
           | Some c =>
               flat_map (fun p => match part_text p with
                                  | Some t => if truthy_str t then [t] else []
                                  | None => []
                                  end) (parts c)
           | None => []
           end)
        (candidates response) in
    match filter (fun parts_text => negb (Nat.eqb (length parts_text) 0)) parts_texts with
    | parts_text :: _ => Some (join [LF] parts_text)
    | [] => from_string
    end in
  match text response with
  | inr t => if truthy_str t then Some t else from_candidates
  | inl _ => from_candidates
  end.

(** *** Continuation calls *)

Definition remaining_words_prompt (remaining_words hard_word_cap : Z) (tail : str) : str :=
  lit "You have approximately " ++ str_of_int remaining_words
  ++ lit " words remaining (total cap " ++ str_of_int hard_word_cap ++ lit "). "
  ++ lit "Here are the last lines to continue from:" ++ [LF] ++ tail.

Definition _attempt_continuation (current_text : str) (hard_word_cap : Z)
    (max_output_tokens : Z) : Py str :=
  try_except
    (let remaining_words := Z.max 0 (hard_word_cap - word_count current_text) in
     if remaining_words <? 50 then ret current_text
     else
       let tail := join [SPACE] (last_n 80 (split current_text)) in
       let continuation_prompt :=
         lit "Continue the script from where it stopped. Do not repeat any sentences. "
         ++ lit "Finish the remaining sections and end with a proper outro. "
         ++ remaining_words_prompt remaining_words hard_word_cap tail in
       more <- generate_content ContinuationCall continuation_prompt max_output_tokens ;;
       more_text <- eval (text more) ;;
       if truthy_str more_text
       then
         let combined := rstrip current_text ++ [LF; LF] ++ strip more_text in
         ret (_truncate_to_words_sentence_aware combined hard_word_cap)
       else ret current_text)
    (fun _ => ret current_text).

Definition _attempt_guided_continuation (current_text : str) (hard_word_cap : Z)
    (max_output_tokens : Z) (guidance : str) : Py str :=
  try_except
    (let remaining_words := Z.max 0 (hard_word_cap - word_count current_text) in
     if remaining_words <? 50 then ret current_text
     else
       let tail := join [SPACE] (last_n 80 (split current_text)) in
       let continuation_prompt :=
         guidance ++ remaining_words_prompt remaining_words hard_word_cap tail in
       more <- generate_content GuidedContinuationCall continuation_prompt max_output_tokens ;;
       more_text <- eval (text more) ;;
       if truthy_str more_text
       then
         let combined := rstrip current_text ++ [LF; LF] ++ strip more_text in
         ret (_truncate_to_words_sentence_aware combined hard_word_cap)
       else ret current_text)
    (fun _ => ret current_text).

(** [needs_more] as [generate_script] has it when it reaches
    [if needs_more:]. *)
Definition needs_more (script_text : str) (hard_word_cap : Z) (expected_items : option Z) : bool :=
  let needs_more := word_count script_text <? int_of_float (float_of_int hard_word_cap * float_0_85) in
  if truthy_opt_int expected_items
  then
    match expected_items with
    | Some expected => if _count_list_items script_text <? expected then true else needs_more
    | None => needs_more
    end
  else needs_more.

Definition guidance_for (current_items expected_items : Z) : str :=
  lit "Continue with items " ++ str_of_int (current_items + 1) ++ lit " to "
  ++ str_of_int expected_items
  ++ lit ". Keep each item concise and balanced. Do not repeat. ".

(** The statements of [generate_script] under
    [# Continuation if early stop or short vs cap]: from the extracted text to
    the accumulated text. *)
Definition continue_script (script_text : str) (hard_word_cap : Z) (max_output_tokens : Z)
    (expected_items : option Z) : Py str :=
  let accumulated_text := script_text in
  if needs_more accumulated_text hard_word_cap expected_items
  then
    accumulated_text <- _attempt_continuation accumulated_text hard_word_cap max_output_tokens ;;
    match expected_items with
    | Some expected =>
        if truthy_int expected
        then
          let current_items := _count_list_items accumulated_text in
          if (current_items <? expected)
             && (60 <? hard_word_cap - word_count accumulated_text)
          then
            let guidance := guidance_for current_items expected in
            _attempt_guided_continuation accumulated_text hard_word_cap
                                         max_output_tokens guidance
          else ret accumulated_text
        else ret accumulated_text
    | None => ret accumulated_text
    end
  else ret accumulated_text.

(** *** [generate_script] *)

Definition simple_prompt (length_minutes : Z) (topic : str) : str :=
  let indent := repeat SPACE 16 in
  lit "Create a COMPLETE " ++ str_of_int length_minutes
  ++ lit "-minute YouTube script about " ++ topic
  ++ lit " in Hinglish (Hindi + English mix). " ++ [LF] ++ indent
  ++ lit "Make it educational, family-friendly, and suitable for tech enthusiasts. "
  ++ [LF] ++ indent
  ++ lit "Include: Introduction, main content about " ++ topic
  ++ lit ", and conclusion with call-to-action." ++ [LF] ++ indent
  ++ lit "Keep it professional and informative." ++ [LF] ++ indent
  ++ lit "IMPORTANT: Generate the ENTIRE script from start to finish. Do not truncate or cut off mid-sentence.".

Definition blocked_error : str :=
  lit "Content blocked by safety filters. Please try a different topic or rephrase your request.".

Definition no_text_error : str :=
  lit "No text content generated. The response may have been blocked or filtered.".

(** [blocked_categories] of the safety-rating check, for one candidate:
    [probability in ['HIGH', 'MEDIUM']] compares the probability with the two
    strings. *)
Definition blocked_categories (candidate : Candidate) : list str :=
  flat_map
    (fun rating =>
       match probability rating with
       | ProbabilityText p =>
           if str_eqb p (lit "HIGH") || str_eqb p (lit "MEDIUM")
           then [category rating ++ lit ": " ++ p]
           else []
       | ProbabilityLevel _ => []
       | ProbabilityNone => []
       end)
    (safety_ratings candidate).

Definition blocked_categories_error (blocked : list str) : str :=
  lit "Content blocked by safety filters: " ++ join (lit ", ") blocked
  ++ lit ". Try rephrasing your topic or context.".

(** [generate_script] from [# Check safety ratings safely] on, [response]
    being the response of the initial call or of the fallback call. *)
Definition generate_script_from_response (response : Response)
    (topic : str) (length_minutes : Z) (additional_context : option str)
    (hard_word_cap : Z) (max_output_tokens : Z) : Py GenerationResult :=
  let metadata := {| meta_topic := topic; meta_length_minutes := length_minutes |} in
  let blocked :=
    match candidates response with
    | candidate :: _ => blocked_categories candidate
    | [] => []
    end in
  match blocked with
  | _ :: _ => ret (Failure (blocked_categories_error blocked) metadata)
  | [] =>
      match _extract_text_from_response response with
      | None => ret (Failure no_text_error metadata)
      | Some script_text =>
          if negb (truthy_str script_text) then ret (Failure no_text_error metadata)
          else
            let expected_items := _extract_expected_item_count topic additional_context in
            accumulated_text <-
              continue_script script_text hard_word_cap max_output_tokens expected_items ;;
            let cleaned_text := _clean_response_text accumulated_text in
            let processed := _post_process_script cleaned_text length_minutes hard_word_cap in
            ret (Success (processed_script processed) (processed_word_count processed)
                         metadata)
      end
  end.

(** The three lines that [generate_script] prints: the request, the notice
    of the fallback, the failure. *)
Definition request_line (topic : str) (length_minutes : Z) (tone target_audience : str)
  : str :=
  lit "Generating script: " ++ topic ++ lit " (" ++ str_of_int length_minutes
  ++ lit " min, " ++ tone ++ lit ", " ++ target_audience ++ lit ")".

Definition fallback_notice : str :=
  lit "First attempt blocked, trying with simpler prompt...".

Definition failure_line (e : exn) : str :=
  lit "Script generation failed: " ++ str_of_exn e.

(** The statements of the [try] block of [generate_script]. *)
Definition generation_attempt (topic : str) (length_minutes : Z) (tone : str)
    (target_audience : str) (content_type : str) (creator_style : option str)
    (additional_context : option str) (requested_word_cap : option Z)
    (force_hinglish_ascii : bool) : Py GenerationResult :=
  let metadata := {| meta_topic := topic; meta_length_minutes := length_minutes |} in
  let hard_word_cap := resolve_hard_word_cap length_minutes requested_word_cap in
  let prompt :=
    _build_generation_prompt topic length_minutes tone target_audience content_type
                             creator_style additional_context hard_word_cap
                             force_hinglish_ascii in
  let max_output_tokens := max_output_tokens_for hard_word_cap in
  response <- generate_content InitialCall prompt max_output_tokens ;;
  match candidates response with
  | [] =>
      _ <- print fallback_notice ;;
      response <- generate_content FallbackCall (simple_prompt length_minutes topic)
                                   max_output_tokens ;;
      match candidates response with
      | [] => ret (Failure blocked_error metadata)
      | _ :: _ =>
          response_text <- eval (text response) ;;
          if negb (truthy_str response_text)
          then ret (Failure blocked_error metadata)
          else generate_script_from_response response topic length_minutes
                                             additional_context hard_word_cap
                                             max_output_tokens
      end
  | _ :: _ =>
      generate_script_from_response response topic length_minutes additional_context
                                    hard_word_cap max_output_tokens
  end.

(** [generate_script]: the line of the request is printed before the [try]
    statement, the line of the failure in its handler. *)
Definition generate_script (topic : str) (length_minutes : Z) (tone : str)
    (target_audience : str) (content_type : str) (creator_style : option str)
    (additional_context : option str) (requested_word_cap : option Z)
    (force_hinglish_ascii : bool) : Py GenerationResult :=
  let metadata := {| meta_topic := topic; meta_length_minutes := length_minutes |} in
  _ <- print (request_line topic length_minutes tone target_audience) ;;
  try_except
    (generation_attempt topic length_minutes tone target_audience content_type
                        creator_style additional_context requested_word_cap
                        force_hinglish_ascii)
    (fun e =>
       _ <- print (failure_line e) ;;
       ret (Failure (str_of_exn e) metadata)).

(** The two calls that [generate_script] issues before any continuation. *)
Definition initial_call (topic : str) (length_minutes : Z) (tone : str)
    (target_audience : str) (content_type : str) (creator_style : option str)
    (additional_context : option str) (requested_word_cap : option Z)
    (force_hinglish_ascii : bool) : Call :=
  let hard_word_cap := resolve_hard_word_cap length_minutes requested_word_cap in
  {| call_site := InitialCall;
     call_prompt :=
       _build_generation_prompt topic length_minutes tone target_audience content_type
                                creator_style additional_context hard_word_cap
                                force_hinglish_ascii;
     call_max_output_tokens := max_output_tokens_for hard_word_cap |}.


(** *** The style profiles and the training context *)

(** Modelled from the spec: [ProcessedTranscript] is declared in the module
    [transcript_processor], which is not among the sources. The spec describes
    it as the record of one analysed transcript; the fields are the ones that
    [_analyze_creator_styles] reads. *)
Record ProcessedTranscript := {
  uploader : str;                      (* metadata.uploader *)
  hindi_ratio : float;                 (* language_breakdown['hindi_ratio'] *)
  english_ratio : float;               (* language_breakdown['english_ratio'] *)
  tone_enthusiasm : float;             (* tone_markers['enthusiasm'] *)
  tone_technical_depth : float;        (* tone_markers['technical_depth'] *)
  tone_friendliness : float;           (* tone_markers['friendliness'] *)
  style_markers : list str;            (* creator_style.get('style_markers', []) *)
  segment_texts : list (option str)    (* s.get('text') of each segment *)
}.

(** The Python values that reach [json.dump]. An instance of
    [ProcessedTranscript] is an object of a class of the program, none of the
    types the JSON encoder knows. *)
Inductive pyval :=
| PyInt (z : Z)
| PyFloat (f : float)
| PyStr (s : str)
| PyList (items : list pyval)
| PyDict (items : list (str * pyval))
| PyTranscript (t : ProcessedTranscript).

(** The entry of one creator while [_analyze_creator_styles] fills it. The
    two sets are kept as the sequence of their insertions. *)
Record CreatorAnalysis := {
  transcripts : list ProcessedTranscript;
  common_patterns : list str;
  hindi_dominant : Z;
  english_dominant : Z;
  balanced : Z;
  enthusiasm : float;
  technical_depth : float;
  friendliness : float;
  content_style : list str;
  intro_patterns : list str;
  outro_patterns : list str
}.

(** [list(s)] for the set [s] built by inserting the given elements: the
    distinct elements, in the order the interpreter iterates the set. *)
Variable list_of_set : list str -> list str.

(** The literal [0.6], as the binary64 value the interpreter reads it as. *)
Definition float_0_6 : float := 0x1.3333333333333p-1%float.

Definition new_analysis : CreatorAnalysis :=
  {| transcripts := []; common_patterns := [];
     hindi_dominant := 0; english_dominant := 0; balanced := 0;
     enthusiasm := float_of_int 0; technical_depth := float_of_int 0;
     friendliness := float_of_int 0;
     content_style := []; intro_patterns := []; outro_patterns := [] |}.

Definition truthy_texts (segments : list (option str)) : list str :=
  flat_map (fun t => match t with
                     | Some s => if truthy_str s then [s] else []
                     | None => []
                     end) segments.

(** The body of the first loop of [_analyze_creator_styles] on the entry of
    the creator of [transcript]. *)
Definition analyze_transcript (transcript : ProcessedTranscript) (analysis : CreatorAnalysis)
  : CreatorAnalysis :=
  let hindi := PrimFloat.ltb float_0_6 (hindi_ratio transcript) in
  let english := PrimFloat.ltb float_0_6 (english_ratio transcript) in
  {| transcripts := transcripts analysis ++ [transcript];
     common_patterns := common_patterns analysis;
     hindi_dominant := if hindi then hindi_dominant analysis + 1 else hindi_dominant analysis;
     english_dominant :=
       if negb hindi && english then english_dominant analysis + 1
       else english_dominant analysis;
     balanced :=
       if negb hindi && negb english then balanced analysis + 1 else balanced analysis;
     enthusiasm := (enthusiasm analysis + tone_enthusiasm transcript)%float;
     technical_depth := (technical_depth analysis + tone_technical_depth transcript)%float;
     friendliness := (friendliness analysis + tone_friendliness transcript)%float;
     content_style := content_style analysis ++ style_markers transcript;
     intro_patterns :=
       intro_patterns analysis ++ truthy_texts (firstn 5 (segment_texts transcript));
     outro_patterns :=
       outro_patterns analysis ++ truthy_texts (last_n 5 (segment_texts transcript)) |}.

(** [creator_analysis[creator]], created when the creator is new, updated by
    [f]; a dictionary keeps its keys in the order of their insertion. *)
Fixpoint update_creator (creator : str) (f : CreatorAnalysis -> CreatorAnalysis)
    (creator_analysis : list (str * CreatorAnalysis)) : list (str * CreatorAnalysis) :=
  match creator_analysis with
  | [] => [(creator, f new_analysis)]
  | (name, analysis) :: others =>
      if str_eqb name creator then (name, f analysis) :: others
      else (name, analysis) :: update_creator creator f others
  end.

(** The body of the second loop of [_analyze_creator_styles]. *)
Definition normalize_analysis (analysis : CreatorAnalysis) : CreatorAnalysis :=
  let transcript_count := float_of_int (len (transcripts analysis)) in
  {| transcripts := transcripts analysis;
     common_patterns := list_of_set (common_patterns analysis);
     hindi_dominant := hindi_dominant analysis;
     english_dominant := english_dominant analysis;
     balanced := balanced analysis;
     enthusiasm := (enthusiasm analysis / transcript_count)%float;
     technical_depth := (technical_depth analysis / transcript_count)%float;
     friendliness := (friendliness analysis / transcript_count)%float;
     content_style := list_of_set (content_style analysis);
     intro_patterns := list_of_set (firstn 10 (intro_patterns analysis));
     outro_patterns := list_of_set (firstn 10 (outro_patterns analysis)) |}.

(** The dictionary of one creator as a Python value, its keys in the order
    the source creates them. *)
Definition pyval_of_analysis (analysis : CreatorAnalysis) : pyval :=
  PyDict
    [(lit "transcripts", PyList (List.map PyTranscript (transcripts analysis)));
     (lit "common_patterns", PyList (List.map PyStr (common_patterns analysis)));
     (lit "language_preferences",
      PyDict [(lit "hindi_dominant", PyInt (hindi_dominant analysis));
              (lit "english_dominant", PyInt (english_dominant analysis));
              (lit "balanced", PyInt (balanced analysis))]);
     (lit "tone_profile",
      PyDict [(lit "enthusiasm", PyFloat (enthusiasm analysis));
              (lit "technical_depth", PyFloat (technical_depth analysis));
              (lit "friendliness", PyFloat (friendliness analysis))]);
     (lit "content_style", PyList (List.map PyStr (content_style analysis)));
     (lit "intro_patterns", PyList (List.map PyStr (intro_patterns analysis)));
     (lit "outro_patterns", PyList (List.map PyStr (outro_patterns analysis)))].

Definition _analyze_creator_styles (transcripts : list ProcessedTranscript) : pyval :=
  let creator_analysis :=
    fold_left
      (fun creator_analysis transcript =>
         update_creator (uploader transcript) (analyze_transcript transcript)
                        creator_analysis)
      transcripts [] in
  PyDict (List.map (fun entry => (fst entry, pyval_of_analysis (normalize_analysis (snd entry))))
                   creator_analysis).

(** [json.dump] with [ensure_ascii=False] and an indentation, to a file in
    UTF-8, and [json.load]. The document is kept as the tree it denotes. The
    encoder hands the document to the file piece by piece, in the order of
    the document, so that the first value that cannot be written decides the
    exception: [TypeError] on an object of a class that the encoder does not
    know, [UnicodeEncodeError] on a key or a string with a surrogate, which
    UTF-8 does not encode. *)
Inductive json :=
| JInt (z : Z)
| JFloat (f : float)
| JString (s : str)
| JArray (items : list json)
| JObject (items : list (str * json)).

Definition not_serializable : exn :=
  Exception (lit "Object of type ProcessedTranscript is not JSON serializable").

(** The [UnicodeEncodeError] of the encoder of the file on a string with a
    surrogate; its message gives the place of the surrogate in the piece
    that was to be written. *)
Variable unencodable : str -> exn.

Fixpoint json_encode (v : pyval) : exn + json :=
  match v with
  | PyInt z => inr (JInt z)
  | PyFloat f => inr (JFloat f)
  | PyStr s => if existsb is_surrogate s then inl (unencodable s) else inr (JString s)
  | PyList items =>
      let encode_items :=
        fix encode_items (items : list pyval) : exn + list json :=
          match items with
          | [] => inr []
          | item :: rest =>
              match json_encode item with
              | inl e => inl e
              | inr j => match encode_items rest with
                         | inl e => inl e
                         | inr js => inr (j :: js)
                         end
              end
          end in
      match encode_items items with
      | inl e => inl e
      | inr js => inr (JArray js)
      end
  | PyDict items =>
      let encode_items :=
        fix encode_items (items : list (str * pyval)) : exn + list (str * json) :=
          match items with
          | [] => inr []
          | (key, item) :: rest =>
              if existsb is_surrogate key then inl (unencodable key)
              else
                match json_encode item with
                | inl e => inl e
                | inr j => match encode_items rest with
                           | inl e => inl e
                           | inr js => inr ((key, j) :: js)
                           end
                end
          end in
      match encode_items items with
      | inl e => inl e
      | inr js => inr (JObject js)
      end
  | PyTranscript _ => inl not_serializable
  end.

Fixpoint json_decode (j : json) : pyval :=
  match j with
  | JInt z => PyInt z
  | JFloat f => PyFloat f
  | JString s => PyStr s
  | JArray items => PyList (List.map json_decode items)
  | JObject items =>
      PyDict (List.map (fun entry => (fst entry, json_decode (snd entry))) items)
  end.

(** What a file holds: a whole document, or the beginning of one, left by a
    [json.dump] that raised after it had written its first pieces. *)
Inductive FileContent :=
| Document (doc : json)
| TruncatedDocument.

Definition FileSystem := str -> option FileContent.

Definition write_file (fs : FileSystem) (filepath : str) (content : FileContent) : FileSystem :=
  fun path => if str_eqb path filepath then Some content else fs path.

(** [open(filepath, 'w')]: the exception that it raises on a path that
    cannot be opened for writing (an empty path, a directory, a directory
    that does not exist), if any. *)
Variable open_for_writing : str -> option exn.

(** What reading raises on a path that holds no document: [open(filepath,
    'r')] on a path without a file ([FileNotFoundError]), [json.load] on the
    beginning of a document ([JSONDecodeError]). *)
Variable unreadable : str -> option FileContent -> exn.

(** The name of the type of a value in the messages of the interpreter. *)
Definition type_name (v : pyval) : str :=
  match v with
  | PyInt _ => lit "int"
  | PyFloat _ => lit "float"
  | PyStr _ => lit "str"
  | PyList _ => lit "list"
  | PyDict _ => lit "dict"
  | PyTranscript _ => lit "ProcessedTranscript"
  end.

(** The [AttributeError] of [v.get] on a value that is no dictionary. *)
Definition no_attribute_get (v : pyval) : exn :=
  Exception (lit "'" ++ type_name v ++ lit "' object has no attribute 'get'").

(** The attributes of the generator that the two functions touch. *)
Record GeneratorState := {
  creator_styles : pyval;
  training_context : pyval;
  generation_config : pyval
}.

(** [save_training_context] handles no exception: the one of [open], of
    [json.dump] (the file was opened for writing before, and keeps what was
    written) or of the final [print] reaches the caller. *)
Definition save_training_context (self : GeneratorState) (filepath : str) (fs : FileSystem)
  : (exn + unit) * FileSystem :=
  let context_save_data :=
    PyDict [(lit "creator_styles", creator_styles self);
            (lit "training_context", training_context self);
            (lit "generation_config", generation_config self)] in
  match open_for_writing filepath with
  | Some e => (inl e, fs)
  | None =>
      match json_encode context_save_data with
      | inl e => (inl e, write_file fs filepath TruncatedDocument)
      | inr doc =>
          let fs := write_file fs filepath (Document doc) in
          match stdout_write (lit "[OK] Training context saved to " ++ filepath) with
          | Some e => (inl e, fs)
          | None => (inr tt, fs)
          end
      end
  end.

(** [d.get(key, {})] *)
Fixpoint dict_get (items : list (str * pyval)) (key : str) : pyval :=
  match items with
  | [] => PyDict []
  | (k, v) :: rest => if str_eqb k key then v else dict_get rest key
  end.

Definition loaded_line (filepath : str) : str :=
  lit "[OK] Training context loaded from " ++ filepath.

Definition load_error_line (e : exn) : str :=
  lit "[ERROR] Error loading training context: " ++ str_of_exn e.

(** The [try] block of [load_training_context]: the two attributes are set
    before the line is printed. *)
Definition load_attempt (self : GeneratorState) (filepath : str) (fs : FileSystem)
  : (exn + bool) * GeneratorState :=
  match fs filepath with
  | Some (Document doc) =>
      match json_decode doc with
      | PyDict context_data =>
          let self :=
            {| creator_styles := dict_get context_data (lit "creator_styles");
               training_context := dict_get context_data (lit "training_context");
               generation_config := generation_config self |} in
          match stdout_write (loaded_line filepath) with
          | Some e => (inl e, self)
          | None => (inr true, self)
          end
      | context_data => (inl (no_attribute_get context_data), self)
      end
  | content => (inl (unreadable filepath content), self)
  end.

(** [load_training_context]: [True] and the new attributes; or, when
    opening, parsing, reading the document or printing raised, the line of
    the error and [False]. The exception of that last [print] reaches the
    caller. *)
Definition load_training_context (self : GeneratorState) (filepath : str) (fs : FileSystem)
  : (exn + bool) * GeneratorState :=
  match load_attempt self filepath fs with
  | (inl e, self) =>
      match stdout_write (load_error_line e) with
      | Some e' => (inl e', self)
      | None => (inr false, self)
      end
  | done => done
  end.

(** ** Predicates of the statements *)

(** A word as [split] produces them: not empty, without whitespace. *)
Definition no_space (w : str) : bool := forallb (fun c => negb (is_space c)) w.
Definition is_word (w : str) : Prop := w <> [] /\ no_space w = true.

(** [s.endswith(c)] for some [c] of a class. *)
Definition ends_with (p : char -> bool) (s : str) : bool :=
  match rev s with
  | c :: _ => p c
  | [] => false
  end.

(** The words of a text to which [_ensure_sentence_boundary] may have added
    its full stop, against the words of the text before: the same words; or
    the same with the full stop at the end of the last one; or, when there was
    no word, the full stop alone. *)
Definition final_period_variant (out_words in_words : list str) : Prop :=
  out_words = in_words
  \/ (exists ws w, in_words = ws ++ [w] /\ out_words = ws ++ [w ++ [FULL_STOP]])
  \/ (in_words = [] /\ out_words = [[FULL_STOP]]).

(** Where [_truncate_to_words_sentence_aware] cuts the words [kept], the
    [words[:max_words]] of its text: [k] words are left. A boundary is a word,
    not the last of [kept], that ends with a boundary mark, so that whitespace
    follows the mark in the provisional text. Without a boundary all of [kept]
    is left; otherwise the words up to the last boundary are. *)
Definition cut_point (kept : list str) (k : nat) : Prop :=
  (k = length kept
   /\ forall i w, (S i < length kept)%nat -> nth_error kept i = Some w ->
                  ends_with is_boundary_mark w = false)
  \/ (exists j w,
        k = S j /\ (S j < length kept)%nat
        /\ nth_error kept j = Some w /\ ends_with is_boundary_mark w = true
        /\ forall i w', (j < i)%nat -> (S i < length kept)%nat ->
                        nth_error kept i = Some w' ->
                        ends_with is_boundary_mark w' = false).

(** A candidate that carries a safety rating of probability HIGH or MEDIUM,
    as the service reports it. *)
Definition flagged (candidate : Candidate) : Prop :=
  exists rating,
    In rating (safety_ratings candidate)
    /\ (probability rating = ProbabilityLevel HIGH
        \/ probability rating = ProbabilityLevel MEDIUM).

(** The calls that come before the continuation step: the initial one, then
    possibly the fallback one. *)
Definition first_calls_shape (added : list Call) : Prop :=
  (exists initial, added = [initial] /\ call_site initial = InitialCall)
  \/ (exists initial fallback,
        added = [initial; fallback]
        /\ call_site initial = InitialCall
        /\ call_site fallback = FallbackCall).

(** The calls that one run of the continuation step may add: none, the
    generic one, or the generic one and then the guided one. *)
Definition continuation_calls_shape (added : list Call) : Prop :=
  added = []
  \/ (exists generic, added = [generic] /\ call_site generic = ContinuationCall)
  \/ (exists generic guided,
        added = [generic; guided]
        /\ call_site generic = ContinuationCall
        /\ call_site guided = GuidedContinuationCall).

(** The resolution of the word cap in the words of the specification: an
    override that is supplied is clamped to [200, 5000], whatever its value. *)
Definition word_cap_as_specified (length_minutes : Z) (requested_word_cap : option Z) : Z :=
  match requested_word_cap with
  | Some cap => Z.max 200 (Z.min 5000 cap)
  | None => Z.min 2000 (Z.max 150 (length_minutes * 150))
  end.

(** [p] holds of the [n] integers from [lo] on. *)
Fixpoint forall_range (p : Z -> bool) (lo : Z) (n : nat) : bool :=
  match n with
  | O => true
  | S n' => p lo && forall_range p (lo + 1) n'
  end.

(** ** Auxiliary function for the truncation *)

(** The number of the words up to the last boundary of [ws], the last word
    of [ws] that ends with a boundary mark and is followed by another word. *)
Fixpoint last_boundary_cut (ws : list str) : option nat :=
  match ws with
  | [] => None
  | w :: ws' =>
      match ws' with
      | [] => None
      | _ :: _ =>
          match last_boundary_cut ws' with
          | Some k => Some (S k)
          | None => if ends_with is_boundary_mark w then Some 1%nat else None
          end
      end
  end.

(** ** Auxiliary functions for the cleaning step *)

(** The length of the longest prefix of [s] in the class [p]. *)
Fixpoint run_length (p : char -> bool) (s : str) : nat :=
  match s with
  | c :: s' => if p c then S (run_length p s') else O
  | [] => O
  end.

(** [re.sub(r'[ \t]+', ' ', s)], by recursion on [s]: a blank before another
    blank is dropped, the last blank of a run becomes the space. *)
Fixpoint squeeze_blanks (s : str) : str :=
  match s with
  | [] => []
  | c :: s' =>
      if is_blank c then
        match s' with
        | d :: _ => if is_blank d then squeeze_blanks s' else SPACE :: squeeze_blanks s'
        | [] => [SPACE]
        end
      else c :: squeeze_blanks s'
  end.

(** The number of newlines in the whitespace that [s] starts with. *)
Fixpoint ws_lf_count (s : str) : nat :=
  match s with
  | c :: s' =>
      if is_space c
      then (if (c =? LF)%N then S (ws_lf_count s') else ws_lf_count s')
      else O
  | [] => O
  end.

(** The index after the last newline in the whitespace that [s] starts with. *)
Fixpoint last_lf_end (s : str) : nat :=
  match s with
  | c :: s' =>
      if is_space c
      then (if (1 <=? ws_lf_count s')%nat then S (last_lf_end s')
            else if (c =? LF)%N then 1%nat else O)
      else O
  | [] => O
  end.

(** No newline of [s] is followed, within whitespace, by two more. *)
Fixpoint short_blank_runs (s : str) : bool :=
  match s with
  | [] => true
  | c :: s' => negb ((c =? LF)%N && (2 <=? ws_lf_count s')%nat) && short_blank_runs s'
  end.

(** Every blank of [s] is a space, and no blank follows it. *)
Fixpoint single_spaced (s : str) : bool :=
  match s with
  | [] => true
  | c :: s' =>
      (if is_blank c
       then (c =? SPACE)%N && match s' with
                              | d :: _ => negb (is_blank d)
                              | [] => true
                              end
       else true)
      && single_spaced s'
  end.

(** The characters of [text] that the first three steps of the cleaning keep. *)
Definition kept_char (c : char) : bool :=
  negb (is_surrogate c) && negb (is_zero_width c) && negb (is_replacement c).

(** ** Sample requests and service behaviours *)

(** Case mappings on the ASCII letters, all that the samples contain. *)
Definition sample_lower (s : str) : str :=
  List.map (fun c => if in_range 65 90 c then (c + 32)%N else c) s.
Definition sample_upper (s : str) : str :=
  List.map (fun c => if in_range 97 122 c then (c - 32)%N else c) s.

Definition sample_prompt (topic : str) (length_minutes : Z) (tone audience content_type : str)
    (creator_style additional_context : option str) (hard_word_cap : Z)
    (force_hinglish_ascii : bool) : str :=
  lit "Write a script about " ++ topic ++ lit " in at most "
  ++ str_of_int hard_word_cap ++ lit " words.".

(** A response with one candidate that nothing is held against. *)
Definition plain_response (reply : str) : Response :=
  {| candidates := [{| safety_ratings := []; content := None |}];
     text := inr reply;
     response_str := inr reply |}.

(** A service that answers every call with the same response. *)
Definition echo_model_of (response : Response) : list Call -> Call -> exn + Response :=
  fun _ _ => inr response.
Definition echo_model (reply : str) : list Call -> Call -> exn + Response :=
  echo_model_of (plain_response reply).

(** A service that answers the first calls with [reply] and raises on the
    continuation calls. *)
Definition failing_continuation_model (reply : str) : list Call -> Call -> exn + Response :=
  fun _ call =>
    match call_site call with
    | ContinuationCall | GuidedContinuationCall => inl (Exception (lit "deadline exceeded"))
    | _ => inr (plain_response reply)
    end.

(** A service that answers the initial and the fallback call with one text
    and the continuation calls with another. *)
Definition staged_model (first_reply continuation_reply : str)
  : list Call -> Call -> exn + Response :=
  fun _ call =>
    match call_site call with
    | ContinuationCall | GuidedContinuationCall => inr (plain_response continuation_reply)
    | _ => inr (plain_response first_reply)
    end.


(** A response whose first candidate is rated HIGH on one category. *)
Definition harassment_candidate : Candidate :=
  {| safety_ratings :=
       [{| category := lit "HARM_CATEGORY_HATE_SPEECH";
           probability := ProbabilityLevel NEGLIGIBLE |};
        {| category := lit "HARM_CATEGORY_HARASSMENT";
           probability := ProbabilityLevel HIGH |}];
     content := None |}.

Definition flagged_response (reply : str) : Response :=
  {| candidates := [harassment_candidate];
     text := inr reply;
     response_str := inr reply |}.

(** Standard output with the encoding UTF-8, which has no code for a
    surrogate: the encoder raises on the first run of surrogates, [c] its
    first character, from [start] to [stop]. *)
Definition hex_digit (n : N) : char := if (n <? 10)%N then (48 + n)%N else (87 + n)%N.

Definition surrogates_not_allowed (c : char) (start stop : nat) : exn :=
  Exception
    (lit "'utf-8' codec can't encode character"
     ++ (if Nat.eqb start stop
         then lit " '\u"
              ++ [hex_digit (c / 4096 mod 16); hex_digit (c / 256 mod 16);
                  hex_digit (c / 16 mod 16); hex_digit (c mod 16)]
              ++ lit "' in position " ++ str_of_int (Z.of_nat start)
         else lit "s in position " ++ str_of_int (Z.of_nat start) ++ lit "-"
              ++ str_of_int (Z.of_nat stop))
     ++ lit ": surrogates not allowed").

Fixpoint utf8_encode_error (text : str) (position : nat) : option exn :=
  match text with
  | [] => None
  | c :: rest =>
      if is_surrogate c
      then Some (surrogates_not_allowed
                   c position (position + run_length is_surrogate rest))
      else utf8_encode_error rest (S position)
  end.

Definition utf8_stdout (text : str) : option exn := utf8_encode_error text 0.

(** Standard output with the error handler [backslashreplace]: it takes
    every text. *)
Definition lenient_stdout (text : str) : option exn := None.

(** No enumerated items: what the two heuristics return on a topic that
    names no count and on a text without list markers. *)
Definition no_expected_items : str -> option str -> option Z := fun _ _ => None.
Definition no_list_items : str -> Z := fun _ => 0.

(** Five expected items: what [_extract_expected_item_count] returns on the
    topic "Top 5 phones". *)
Definition top_five_items : str -> option str -> option Z := fun _ _ => Some 5.

(** One analysed transcript. *)
Definition sample_transcript : ProcessedTranscript :=
  {| uploader := lit "TechGuru";
     hindi_ratio := 0.75%float;
     english_ratio := 0.25%float;
     tone_enthusiasm := 8.5%float;
     tone_technical_depth := 7%float;
     tone_friendliness := 9%float;
     style_markers := [lit "dosto"];
     segment_texts := [Some (lit "namaste dosto"); Some (lit "milte hain")] |}.

(** The fields of the sample transcript that the training context reads. *)
Definition sample_title (transcript : ProcessedTranscript) : str :=
  lit "Best phone under 20000".
Definition sample_duration (transcript : ProcessedTranscript) : Z := 412.
Definition sample_clean_text (transcript : ProcessedTranscript) : str :=
  lit "namaste dosto milte hain".
Definition sample_keywords (transcript : ProcessedTranscript) : list str :=
  [lit "phone"; lit "camera"].
Definition sample_markers (transcript : ProcessedTranscript) : pyval :=
  PyDict [(lit "enthusiasm", PyFloat 8.5%float)].
Definition sample_breakdown (transcript : ProcessedTranscript) : pyval :=
  PyDict [(lit "hindi_ratio", PyFloat 0.75%float)].

(** A generator trained on [transcripts], with nothing else to save. *)
Definition trained_on (transcripts : list ProcessedTranscript) : GeneratorState :=
  {| creator_styles := _analyze_creator_styles transcripts;
     training_context := PyDict [];
     generation_config := PyDict [(lit "top_k", PyInt 40)] |}.

Definition empty_file_system : FileSystem := fun _ => None.

(** An operating system that opens every path for writing. *)
Definition every_path_opens (filepath : str) : option exn := None.

(** The error of the UTF-8 encoder of the file on a key or on a string of a
    dictionary, which are written between quotation marks. *)
Definition utf8_file_error (s : str) : exn :=
  match utf8_encode_error (QUOTATION :: s) 0 with
  | Some e => e
  | None => Exception (lit "surrogates not allowed")
  end.

(** The errors of reading: the one of a path without a file, and the one of
    [json.load] on the beginning of the document that the profiles of
    [sample_transcript] leave. *)
Definition sample_unreadable (filepath : str) (content : option FileContent) : exn :=
  match content with
  | None => Exception (lit "[Errno 2] No such file or directory: '" ++ filepath ++ lit "'")
  | Some _ => Exception (lit "Expecting value: line 5 column 9 (char 73)")
  end.

(** [n] times the word [w], on one line. *)
Definition words_of (n : nat) (w : str) : str := join [SPACE] (repeat w n).

(** Texts of 30, 40, 100 and 637 words, without a list marker. *)
Definition words_30 : str := words_of 30 (lit "shabd").
Definition words_40 : str := words_of 40 (lit "shabd").
Definition words_100 : str := words_of 100 (lit "shabd").
Definition words_637 : str := words_of 637 (lit "shabd").

(** Two words on lines that end with carriage returns, a blank line between. *)
Definition carriage_return_text : str := lit "namaste" ++ [CR; CR; CR] ++ lit "dosto".

Definition sample_path : str := lit "output/training_context.json".

(** An iteration order of the sets: the order of the insertions. *)
Definition insertion_order (elements : list str) : list str := elements.

(** ** The training of the generator *)

(** [creator_analysis] when the first loop of [_analyze_creator_styles]
    ends. *)
Definition analyzed_creators (transcripts : list ProcessedTranscript)
  : list (str * CreatorAnalysis) :=
  fold_left
    (fun creator_analysis transcript =>
       update_creator (uploader transcript) (analyze_transcript transcript)
                      creator_analysis)
    transcripts [].

(** Modelled from the spec: the fields of a [ProcessedTranscript] that
    [_create_training_context] reads besides the uploader. The spec lists
    them: the title and the duration in seconds (under [metadata]), the
    cleaned text, the extracted keywords, the tone markers and the language
    breakdown, two dictionaries that are copied as they are. *)
Variable metadata_title : ProcessedTranscript -> str.
Variable metadata_duration : ProcessedTranscript -> Z.
Variable clean_text : ProcessedTranscript -> str.
Variable keywords : ProcessedTranscript -> list str.
Variable tone_markers : ProcessedTranscript -> pyval.
Variable language_breakdown : ProcessedTranscript -> pyval.

Definition _analyze_title_type (title : str) : str :=
  let title_lower := str_lower title in
  if existsb (contains title_lower)
             [lit "review"; utf8 "रीव्यू"; lit "test"; utf8 "टेस्ट"]
  then lit "review"
  else if existsb (contains title_lower)
                  [lit "vs"; lit "versus"; utf8 "कंपेयर"; lit "comparison"]
  then lit "comparison"
  else if existsb (contains title_lower)
                  [lit "unboxing"; utf8 "अनबॉक्सिंग"; lit "first look"]
  then lit "unboxing"
  else if existsb (contains title_lower)
                  [lit "guide"; utf8 "गाइड"; lit "tips"; lit "how to"]
  then lit "tutorial"
  else lit "general".

(** [duration_seconds // 60] is the floor of the quotient. *)
Definition _categorize_duration (duration_seconds : Z) : str :=
  let duration_minutes := duration_seconds / 60 in
  if duration_minutes <=? 5 then lit "short" else lit "medium".

(** One training example, the dictionary that [_create_training_context]
    builds for a transcript; [example_tone_markers], [example_language_mix],
    [example_title_type] and [example_duration_category] are the entries of
    its ['style_summary']. *)
Record TrainingExample := {
  example_title : str;
  example_creator : str;
  example_tone_markers : pyval;
  example_language_mix : pyval;
  example_title_type : str;
  example_duration_category : str;
  sample_content : str;
  key_patterns : list str
}.

(** The dictionary that [_create_creator_specific_prompt] returns. *)
Record TrainingPrompt := {
  prompt_creator : str;
  prompt_type : str;
  prompt_text : str;
  prompt_example : TrainingExample
}.

Definition _create_creator_specific_prompt (creator : str) (example : TrainingExample)
  : TrainingPrompt :=
  let base_prompt :=
    lit "You are generating YouTube scripts in the style of " ++ creator
    ++ lit ", a popular Hinglish (Hindi + English) tech YouTuber. " ++ [LF; LF]
    ++ lit "Creator Style Guidelines for " ++ creator ++ lit ":" ++ [LF] in
  let base_prompt :=
    if contains (str_lower creator) (lit "trakin")
    then
      base_prompt
      ++ block
           [lit "- Use enthusiastic and energetic tone";
            lit "- Mix Hindi and English naturally (Hinglish)";
            lit "- Focus on smartphone reviews and comparisons";
            lit "- Include detailed specifications and pricing";
            lit "- Use expressions like " ++ [QUOTATION] ++ utf8 "दोस्तों" ++ [QUOTATION]
              ++ lit " frequently";
            lit "- Include call-to-action for likes and subscriptions";
            lit "- Structure: Hook intro -> Product overview -> Detailed review -> Pricing -> Conclusion"]
    else if contains (str_lower creator) (lit "techbar")
    then
      base_prompt
      ++ block
           [lit "- Use friendly and informative tone";
            lit "- Provide comprehensive technical analysis";
            lit "- Longer form content structure";
            lit "- Professional yet approachable language style";
            lit "- Detailed comparisons and features breakdown";
            lit "- Include real-world usage scenarios"]
    else
      base_prompt
      ++ block
           [lit "- Maintain engaging tech content style";
            lit "- Mix conversational Hindi and English";
            lit "- Focus on technology reviews and guides";
            lit "- Include practical insights and comparisons"] in
  let base_prompt :=
    base_prompt
    ++ join [LF]
         [[];
          [];
          lit "Generate authentic YouTube scripts that:";
          lit "1. Match " ++ creator ++ lit "'s speaking patterns and style";
          lit "2. Use appropriate Hinglish mix";
          lit "3. Include engaging elements like hooks, transitions, and CTAs";
          lit "4. Are structured for " ++ example_duration_category example
            ++ lit "-length videos";
          lit "5. Capture the creator's unique voice and personality";
          [];
          lit "Remember: The script should sound like " ++ creator
            ++ lit " actually wrote and spoke it - authentic and natural."] in
  {| prompt_creator := creator;
     prompt_type := lit "creator_specific";
     prompt_text := base_prompt;
     prompt_example := example |}.

(** One prompt for every creator that has an example, from the first of its
    examples; the dictionary is read in the order of its insertions. *)
Definition _generate_training_prompts
    (examples_by_creator : list (str * list TrainingExample)) : list TrainingPrompt :=
  flat_map
    (fun entry =>
       match snd entry with
       | example :: _ => [_create_creator_specific_prompt (fst entry) example]
       | [] => []
       end)
    examples_by_creator.

Definition _create_style_guidelines : pyval :=
  PyDict
    [(lit "hinglish_patterns",
      PyDict
        [(lit "common_transitions",
          PyList [PyStr (utf8 "अब देखते हैं"); PyStr (utf8 "तो यहाँ पर");
                  PyStr (utf8 "बात यह है कि"); PyStr (utf8 "अब मुख्य बात")]);
         (lit "engagement_phrases",
          PyList [PyStr (utf8 "दोस्तों"); PyStr (utf8 "भाई"); PyStr (utf8 "यार");
                  PyStr (utf8 "आपको पता है"); PyStr (utf8 "सुनने के लिए")]);
         (lit "technical_mix",
          PyList [PyStr (utf8 "इसके में फीचर्स हैं"); PyStr (utf8 "स्पेक्स देखिए");
                  PyStr (utf8 "परफॉर्मेंस बहुत अच्छा है")])]);
     (lit "script_structure",
      PyDict
        [(lit "hook", PyStr (lit "Start with engaging question or statement"));
         (lit "intro", PyStr (lit "Brief intro with channel branding"));
         (lit "main_content", PyStr (lit "Core review/content with logical flow"));
         (lit "cta", PyStr (lit "Call to action for engagement"));
         (lit "outro", PyStr (lit "Channel promotion and subscription reminder"))]);
     (lit "content_types",
      PyDict
        [(lit "review", PyStr (lit "Focus on detailed analysis, pros/cons, recommendations"));
         (lit "comparison", PyStr (lit "Side-by-side comparison with clear winner"));
         (lit "unboxing", PyStr (lit "Step-by-step unboxing with reactions"));
         (lit "tutorial", PyStr (lit "Clear instructions with visual cues"));
         (lit "general", PyStr (lit "Balanced informative and entertaining content"))])].

(** The example of one transcript. *)
Definition training_example (transcript : ProcessedTranscript) : TrainingExample :=
  {| example_title := metadata_title transcript;
     example_creator := uploader transcript;
     example_tone_markers := tone_markers transcript;
     example_language_mix := language_breakdown transcript;
     example_title_type := _analyze_title_type (metadata_title transcript);
     example_duration_category := _categorize_duration (metadata_duration transcript);
     sample_content := slice_to (clean_text transcript) 2000;
     key_patterns := slice_to (keywords transcript) 10 |}.

(** [examples_by_creator[creator].append(example)], the list created when
    the creator is new. *)
Fixpoint append_example (creator : str) (example : TrainingExample)
    (examples_by_creator : list (str * list TrainingExample))
  : list (str * list TrainingExample) :=
  match examples_by_creator with
  | [] => [(creator, [example])]
  | (name, examples) :: others =>
      if str_eqb name creator then (name, examples ++ [example]) :: others
      else (name, examples) :: append_example creator example others
  end.

(** The dictionary that [_create_training_context] returns. *)
Record TrainingContext := {
  examples_by_creator : list (str * list TrainingExample);
  training_prompts : list TrainingPrompt;
  style_guidelines : pyval
}.

Definition _create_training_context (transcripts : list ProcessedTranscript)
  : TrainingContext :=
  let examples_by_creator :=
    fold_left
      (fun examples_by_creator transcript =>
         append_example (uploader transcript) (training_example transcript)
                        examples_by_creator)
      transcripts [] in
  {| examples_by_creator := examples_by_creator;
     training_prompts := _generate_training_prompts examples_by_creator;
     style_guidelines := _create_style_guidelines |}.

(** The dictionaries of the training context as Python values, their keys in
    the order the source creates them. *)
Definition pyval_of_example (example : TrainingExample) : pyval :=
  PyDict
    [(lit "title", PyStr (example_title example));
     (lit "creator", PyStr (example_creator example));
     (lit "style_summary",
      PyDict [(lit "tone_markers", example_tone_markers example);
              (lit "language_mix", example_language_mix example);
              (lit "title_type", PyStr (example_title_type example));
              (lit "duration_category", PyStr (example_duration_category example))]);
     (lit "sample_content", PyStr (sample_content example));
     (lit "key_patterns", PyList (List.map PyStr (key_patterns example)))].

Definition pyval_of_prompt (prompt : TrainingPrompt) : pyval :=
  PyDict
    [(lit "creator", PyStr (prompt_creator prompt));
     (lit "type", PyStr (prompt_type prompt));
     (lit "prompt", PyStr (prompt_text prompt));
     (lit "example", pyval_of_example (prompt_example prompt))].

Definition pyval_of_training_context (context : TrainingContext) : pyval :=
  PyDict
    [(lit "examples_by_creator",
      PyDict (List.map (fun entry => (fst entry, PyList (List.map pyval_of_example (snd entry))))
                       (examples_by_creator context)));
     (lit "training_prompts", PyList (List.map pyval_of_prompt (training_prompts context)));
     (lit "style_guidelines", style_guidelines context)].

(** What [_test_generation] returns: the dictionary of a test that went
    through, or the one of a test that raised. *)
Inductive TestResult :=
| TestSuccess (sample_length : Z) (response_preview : str)
| TestFailure (error : str).

Definition test_success (result : TestResult) : bool :=
  match result with
  | TestSuccess _ _ => true
  | TestFailure _ => false
  end.

Definition test_failed_line (e : exn) : str :=
  lit "Test generation failed: " ++ str_of_exn e.

(** [_test_generation], given what [self.model.generate_content] answers to
    the test prompt, a response or an exception. The handler prints the
    exception before it returns the failure. *)
Definition _test_generation (answer : exn + Response) : exn + TestResult :=
  let attempt :=
    match answer with
    | inl e => inl e
    | inr response =>
        match text response with
        | inl e => inl e
        | inr response_text =>
            inr (TestSuccess
                   (if truthy_str response_text then len response_text else 0)
                   (if truthy_str response_text then slice_to response_text 200
                    else lit "No content generated"))
        end
    end in
  match attempt with
  | inl e =>
      match stdout_write (test_failed_line e) with
      | Some e' => inl e'
      | None => inr (TestFailure (str_of_exn e))
      end
  | done => done
  end.

(** [d.get(key, default)] on the items of a dictionary. *)
Fixpoint dict_get_or (items : list (str * pyval)) (key : str) (default : pyval) : pyval :=
  match items with
  | [] => default
  | (k, v) :: rest => if str_eqb k key then v else dict_get_or rest key default
  end.

(** [len(v)] on a string, a list or a dictionary; the other values have no
    length. *)
Definition py_len (v : pyval) : exn + Z :=
  match v with
  | PyStr s => inr (len s)
  | PyList items => inr (len items)
  | PyDict items => inr (len items)
  | _ => inl (Exception (lit "object of type '" ++ type_name v ++ lit "' has no len()"))
  end.

(** The dictionary that [train_on_transcripts] returns. *)
Record TrainingSummary := {
  total_transcripts : Z;
  creators_analyzed : Z;
  training_examples : Z;
  sample_generation_success : bool
}.

Definition training_line : str := lit "Training script generator on transcript data...".

(** The line of the summary, a dictionary of three integers and a truth
    value as [print] shows it. *)
Definition completed_line (summary : TrainingSummary) : str :=
  lit "[OK] Training completed: {'total_transcripts': "
  ++ str_of_int (total_transcripts summary)
  ++ lit ", 'creators_analyzed': " ++ str_of_int (creators_analyzed summary)
  ++ lit ", 'training_examples': " ++ str_of_int (training_examples summary)
  ++ lit ", 'sample_generation_success': "
  ++ (if sample_generation_success summary then lit "True" else lit "False")
  ++ lit "}".

(** [train_on_transcripts]: the summary, or the exception that reaches the
    caller, and the generator after it; [answer] is what the service answers
    to the test prompt. The function handles no exception. *)
Definition train_on_transcripts (self : GeneratorState)
    (processed_transcripts : list ProcessedTranscript) (answer : exn + Response)
  : (exn + TrainingSummary) * GeneratorState :=
  match stdout_write training_line with
  | Some e => (inl e, self)
  | None =>
      let self :=
        {| creator_styles := _analyze_creator_styles processed_transcripts;
           training_context := training_context self;
           generation_config := generation_config self |} in
      let self :=
        {| creator_styles := creator_styles self;
           training_context :=
             pyval_of_training_context (_create_training_context processed_transcripts);
           generation_config := generation_config self |} in
      match _test_generation answer with
      | inl e => (inl e, self)
      | inr sample_result =>
          match py_len (creator_styles self) with
          | inl e => (inl e, self)
          | inr creators =>
              match training_context self with
              | PyDict context =>
                  match py_len (dict_get_or context (lit "examples") (PyList [])) with
                  | inl e => (inl e, self)
                  | inr examples =>
                      let training_summary :=
                        {| total_transcripts := len processed_transcripts;
                           creators_analyzed := creators;
                           training_examples := examples;
                           sample_generation_success := test_success sample_result |} in
                      match stdout_write (completed_line training_summary) with
                      | Some e => (inl e, self)
                      | None => (inr training_summary, self)
                      end
                  end
              | context => (inl (no_attribute_get context), self)
              end
          end
      end
  end.

(** ** Auxiliary functions for the grouping by creator *)

(** [items[key] = f(items[key])], the entry created from [fresh] when the key
    is new: what [update_creator] and [append_example] do to their
    dictionaries. *)
Fixpoint upsert {V : Type} (key : str) (f : V -> V) (fresh : V) (items : list (str * V))
  : list (str * V) :=
  match items with
  | [] => [(key, f fresh)]
  | (name, value) :: others =>
      if str_eqb name key then (name, f value) :: others
      else (name, value) :: upsert key f fresh others
  end.

(** The distinct creators of [transcripts], in the order of their first
    transcripts. *)
Definition add_creator (seen : list str) (creator : str) : list str :=
  if existsb (fun name => str_eqb name creator) seen then seen else seen ++ [creator].

Definition creators_of (transcripts : list ProcessedTranscript) : list str :=
  fold_left add_creator (List.map uploader transcripts) [].

(** The transcripts of one creator, in their order. *)
Definition transcripts_of (creator : str) (transcripts : list ProcessedTranscript)
  : list ProcessedTranscript :=
  filter (fun transcript => str_eqb (uploader transcript) creator) transcripts.

(** A dictionary filled by one [upsert] for every transcript, under the
    creator of the transcript; and the value that the updates of the
    transcripts of one creator build. *)
Definition group_by_creator {V : Type} (fresh : V) (update : ProcessedTranscript -> V -> V)
    (transcripts : list ProcessedTranscript) : list (str * V) :=
  fold_left (fun items transcript => upsert (uploader transcript) (update transcript) fresh items)
            transcripts [].

Definition value_of_creator {V : Type} (fresh : V) (update : ProcessedTranscript -> V -> V)
    (creator : str) (transcripts : list ProcessedTranscript) : V :=
  fold_left (fun value transcript => update transcript value)
            (transcripts_of creator transcripts) fresh.

(** ** Auxiliary predicate for the prompts *)

(** [needle] occurs in [hay]. *)
Definition occurs_in (needle hay : str) : Prop :=
  exists pre post, hay = pre ++ needle ++ post.

(** ** The guidelines of the prompt *)

Definition tone_guidelines : list (str * str) :=
  [(lit "friendly_and_informative",
    block
      [lit "- Use conversational tone";
       lit "- Include friendly greetings and transitions";
       lit "- Make technical concepts accessible";
       lit "- Ask rhetorical questions to engage audience"]);
   (lit "enthusiastic_and_energetic",
    block
      [lit "- High energy language";
       lit "- Use enthusiastic expressions frequently";
       lit "- Create excitement about the topic";
       lit "- Include dramatic emphasis on key points"]);
   (lit "professional_and_formal",
    block
      [lit "- More structured and formal language";
       lit "- Technical accuracy is paramount";
       lit "- Measured pace and tone";
       lit "- Professional vocabulary choices"]);
   (lit "casual_and_conversational",
    block
      [lit "- Relaxed, everyday language";
       lit "- Use contractions and casual expressions";
       lit "- As if talking to a friend";
       lit "- Include personal opinions and reactions"]);
   (lit "dramatic_and_engaging",
    block
      [lit "- Build suspense and excitement";
       lit "- Use dramatic words and expressions";
       lit "- Create a story-like narrative";
       lit "- Make the audience anticipate what comes next"]);
   (lit "technical_and_detailed",
    block
      [lit "- Focus on specifications and technical details";
       lit "- Use precise technical vocabulary";
       lit "- Include comparisons and benchmarks";
       lit "- Detailed explanations of features"]);
   (lit "humorous_and_entertaining",
    block
      [lit "- Include humor and jokes";
       lit "- Use wit and clever observations";
       lit "- Make the content entertaining";
       lit "- Balance information with entertainment"])].

(** [tone_guidelines.get(tone, tone_guidelines['friendly_and_informative'])];
    the subscript finds its key. *)
Definition _get_tone_guidelines (tone : str) : str :=
  table_get tone_guidelines tone
            (table_get tone_guidelines (lit "friendly_and_informative") []).

Definition content_guidelines : list (str * str) :=
  [(lit "review",
    block
      [lit "- Structure: Introduction -> Key Features -> Pros/Cons -> Performance -> Price Conclusion";
       lit "- Include comparisons with similar products";
       lit "- Cover practical usage scenarios";
       lit "- Provide clear recommendations"]);
   (lit "comparison",
    block
      [lit "- Structure: Introduction -> Feature-by-feature comparison -> Performance comparison -> Value analysis -> Winner";
       lit "- Create fair comparisons";
       lit "- Highlight key differences";
       lit "- Provide clear winner with reasoning"]);
   (lit "guide",
    block
      [lit "- Structure: Problem introduction -> Step-by-step solution -> Tips and tricks -> Summary";
       lit "- Clear instructions with actionable steps";
       lit "- Cover different scenarios";
       lit "- Include troubleshooting tips"]);
   (lit "news",
    block
      [lit "- Structure: Breaking news -> Context and background -> Analysis -> Future implications";
       lit "- Start with the most important information";
       lit "- Provide context for viewers";
       lit "- Analyze implications and next steps"]);
   (lit "general",
    block
      [lit "- Structure: Introduction -> Main content points -> Summary -> Conclusion";
       lit "- Balanced mix of information and entertainment";
       lit "- Engaging throughout the duration";
       lit "- Clear main message or takeaway"])].

(** [content_guidelines.get(content_type, content_guidelines['general'])] *)
Definition _get_content_type_guidelines (content_type : str) : str :=
  table_get content_guidelines content_type
            (table_get content_guidelines (lit "general") []).

(** ** The patterns found in a script *)

(** The dictionary that [_extract_applied_patterns] returns. *)
Record AppliedPatterns := {
  hinglish_expressions : list str;
  detected_engagement_phrases : list str;   (* 'engagement_phrases' *)
  technical_terms : list str;
  transition_words : list str
}.

Definition hinglish_exprs : list str :=
  [utf8 "दोस्तों"; utf8 "भाई"; utf8 "यार"; utf8 "सुनिए"; utf8 "देखिए"; utf8 "तो यहाँ पर"].

Definition engagement_phrases : list str :=
  [lit "subscribe"; lit "like"; lit "notification"; lit "bell"; lit "comment"; lit "share"].

(** Each of the two loops appends the entries of its list that occur in the
    lowercased script, in the order of the list. *)
Definition _extract_applied_patterns (script : str) : AppliedPatterns :=
  let script_lower := str_lower script in
  {| hinglish_expressions := filter (contains script_lower) hinglish_exprs;
     detected_engagement_phrases := filter (contains script_lower) engagement_phrases;
     technical_terms := [];
     transition_words := [] |}.

(** ** The generation prompt *)

(** [Config.SPEECH_WPM], read from the environment when the configuration is
    loaded, 140 when the variable is not set; and the text of a float in an
    f-string. *)
Variable SPEECH_WPM : Z.
Variable str_of_float : float -> str.

(** The two descriptions of a profile, on a profile as
    [_analyze_creator_styles] builds it: the counts and the tone scores are
    there, so that the defaults of the [get]s are not used. *)
Definition _get_language_mix_description (creator_data : CreatorAnalysis) : str :=
  if hindi_dominant creator_data >? english_dominant creator_data
  then lit "Hindi-dominant Hinglish (more Hindi expressions, Hindi grammatical structure)"
  else if english_dominant creator_data >? hindi_dominant creator_data
  then lit "English-dominant Hinglish (more English words, English grammatical structure)"
  else lit "Balanced Hinglish (equal mix of Hindi and English)".

Definition _get_tone_description (creator_data : CreatorAnalysis) : str :=
  let parts :=
    (if PrimFloat.ltb (float_of_int 7) (enthusiasm creator_data)
     then [lit "Highly enthusiastic"] else [])
    ++ (if PrimFloat.ltb (float_of_int 7) (technical_depth creator_data)
        then [lit "Technical and detailed"] else [])
    ++ (if PrimFloat.ltb (float_of_int 7) (friendliness creator_data)
        then [lit "Friendly and approachable"] else []) in
  match parts with
  | [] => lit "Balanced conversational tone"
  | _ :: _ => join (lit ", ") parts
  end.

(** [creator_styles[creator]], when the creator is a key. *)
Fixpoint profile_of (creator_styles : list (str * CreatorAnalysis)) (creator : str)
  : option CreatorAnalysis :=
  match creator_styles with
  | [] => None
  | (name, creator_data) :: others =>
      if str_eqb name creator then Some creator_data else profile_of others creator
  end.

(** [_build_generation_prompt] as the source defines it, [creator_styles]
    being the attribute of the generator; [generate_script] above takes the
    function as a parameter. *)
Definition build_generation_prompt (creator_styles : list (str * CreatorAnalysis))
    (topic : str) (length_minutes : Z) (tone : str) (target_audience : str)
    (content_type : str) (creator_style : option str) (additional_context : option str)
    (hard_word_cap : option Z) (force_hinglish_ascii : bool) : str :=
  let prompt_parts :=
    [lit "You are an expert YouTube script writer specializing in creating authentic Hinglish (Hindi + English mix) content for Indian tech channels. Create educational, informative, and family-friendly content about technology, gadgets, and reviews."] in
  let prompt_parts :=
    prompt_parts
    ++ match creator_style with
       | Some creator_style =>
           if truthy_str creator_style
           then
             match profile_of creator_styles creator_style with
             | Some creator_data =>
                 [[LF] ++ lit "CREATOR STYLE CONTEXT - Replicate the style of "
                    ++ creator_style ++ lit ":";
                  lit "- Language preferences: "
                    ++ _get_language_mix_description creator_data;
                  lit "- Tone profile: " ++ _get_tone_description creator_data;
                  lit "- Content style: Natural conversational tone"]
             | None => []
             end
           else []
       | None => []
       end in
  let target_words := Z.max 150 (length_minutes * 150) in
  let hard_word_cap :=
    match hard_word_cap with
    | Some cap => cap
    | None => Z.min 2000 target_words
    end in
  let prompt_parts :=
    prompt_parts
    ++ [join [LF]
          [[];
           lit "SCRIPT REQUIREMENTS:";
           lit "- Topic: " ++ topic;
           lit "- Duration: " ++ str_of_int length_minutes
             ++ lit " minutes (approximately "
             ++ str_of_int (length_minutes * SPEECH_WPM) ++ lit " words)";
           lit "- Tone: " ++ tone;
           lit "- Target Audience: " ++ target_audience;
           lit "- Content Type: " ++ content_type;
           [];
           lit "IMPORTANT HARD LIMIT: Write no more than " ++ str_of_int hard_word_cap
             ++ lit " words. Stop before exceeding this word cap. The script must be complete but concise.";
           lit "IMPORTANT: Generate a COMPLETE script from start to finish, but keep it within the word cap. Do not cut off mid-sentence. Include all sections: Hook, Introduction, Main Content, and Conclusion with Call-to-Action.";
           []]] in
  let tone_description := _get_tone_guidelines tone in
  let content_guidelines := _get_content_type_guidelines content_type in
  let prompt_parts :=
    prompt_parts
    ++ [join [LF]
          [[];
           lit "STYLE GUIDELINES:";
           tone_description;
           [];
           content_guidelines;
           [];
           lit "SCRIPT STRUCTURE:";
           lit "1. Hook (0-15 seconds): Engaging opening question or statement";
           lit "2. Intro (15-30 seconds): Channel greeting and video preview";
           lit "3. Main Content (" ++ str_of_int (length_minutes - 1) ++ lit "-"
             ++ str_of_float (float_of_int length_minutes - 0.5)%float
             ++ lit " minutes): Core topic discussion";
           lit "4. Call-to-Action (15-30 seconds): Like, subscribe, notification bell";
           lit "5. Outro (15-30 seconds): Channel promotion and preview";
           [];
           lit "HINGLISH LANGUAGE PATTERNS:";
           lit "- Natural mix of Hindi and English";
           lit "- Common phrases: " ++ [QUOTATION] ++ utf8 "दोस्तों" ++ [QUOTATION]
             ++ lit ", " ++ [QUOTATION] ++ utf8 "भाई" ++ [QUOTATION]
             ++ lit ", " ++ [QUOTATION] ++ utf8 "तो यहाँ पर" ++ [QUOTATION]
             ++ lit ", " ++ [QUOTATION] ++ utf8 "सुनिए" ++ [QUOTATION];
           lit "- Technical terms in English, explanations in Hindi";
           lit "- Engaging expressions and enthusiasm markers";
           []]] in
  let prompt_parts :=
    prompt_parts
    ++ match additional_context with
       | Some additional_context =>
           if truthy_str additional_context
           then [[LF] ++ lit "ADDITIONAL CONTEXT:" ++ [LF] ++ additional_context]
           else []
       | None => []
       end in
  let prompt_parts :=
    prompt_parts
    ++ (if force_hinglish_ascii
        then [[LF] ++ lit "IMPORTANT: Write in Hinglish using Latin letters only (no Devanagari). Example: 'aap kya kar rahe ho', 'dosto', 'performance'. Keep it natural."]
        else []) in
  let prompt_parts :=
    prompt_parts
    ++ [[LF] ++ lit "Generate an engaging, authentic YouTube script that sounds natural and conversational."] in
  let prompt_parts :=
    prompt_parts
    ++ [[LF] ++ lit "CRITICAL: Make sure to complete the entire script. Do not stop mid-sentence or leave sections incomplete. The script must be complete from beginning to end."] in
  let prompt_parts :=
    prompt_parts
    ++ [join [LF]
          [[];
           lit "COMPLETION REQUIREMENTS:";
           lit "- If the topic implies a list (e.g., " ++ [QUOTATION] ++ lit "Top 5 laptops"
             ++ [QUOTATION]
             ++ lit "), include exactly that many fully detailed items with consistent headings and balanced detail per item.";
           lit "- If you run out of room, compress wording rather than dropping items.";
           lit "- Ensure the script ends with a clear outro/CTA and a complete final sentence."]] in
  join [LF] prompt_parts.

(** ** The profiles of a trained generator *)

(** The profiles that [_analyze_creator_styles] returns, before they are
    written as Python values. *)
Definition trained_profiles (transcripts : list ProcessedTranscript)
  : list (str * CreatorAnalysis) :=
  List.map (fun entry => (fst entry, normalize_analysis (snd entry)))
           (analyzed_creators transcripts).

(** ** More sample values *)

(** The text of a float that is half an integer above zero, all that the
    samples need. *)
Definition sample_str_of_float (f : float) : str :=
  str_of_int (int_of_float f) ++ lit ".5".

(** The tables of the pattern matcher on the ASCII characters, and [int] on
    a text of ASCII digits. *)
Definition sample_is_digit (c : char) : bool := in_range 48 57 c.
Definition sample_is_word_char (c : char) : bool :=
  in_range 48 57 c || in_range 65 90 c || in_range 97 122 c || (c =? 95)%N.
Definition sample_matches_ignoring_case (a c : char) : bool :=
  str_eqb (sample_lower [c]) [a].
Definition sample_int_of_str (s : str) : option Z :=
  Some (fold_left (fun n c => n * 10 + Z.of_N (c - 48)) s 0).

(** ** Words, joins and strips *)

#[local] Arguments is_space : simpl never.
#[local] Arguments is_blank : simpl never.
#[local] Arguments is_boundary_mark : simpl never.
#[local] Arguments is_terminator : simpl never.
#[local] Arguments join : simpl never.

Lemma split_cons_cons : forall c d s,
  split (c :: d :: s) =
  if is_space c then split (d :: s)
  else if is_space d then [c] :: split (d :: s)
       else match split (d :: s) with
            | w :: ws => (c :: w) :: ws
            | [] => [[c]]
            end.
Proof. reflexivity. Qed.

Lemma no_space_cons : forall c w,
  no_space (c :: w) = true -> is_space c = false /\ no_space w = true.
Proof.
  unfold no_space; simpl; intros c w H.
  apply andb_true_iff in H as [Hc Hw]. now apply negb_true_iff in Hc.
Qed.

Lemma split_words : forall s, Forall is_word (split s).
Proof.
  induction s as [|c s IH]; [constructor|].
  destruct s as [|d s'].
  - simpl. destruct (is_space c) eqn:Hc; [constructor|].
    repeat constructor; [discriminate|]. unfold no_space; simpl. now rewrite Hc.
  - rewrite split_cons_cons.
    destruct (is_space c) eqn:Hc; [exact IH|].
    assert (Hw : is_word [c]).
    { split; [discriminate|]. unfold no_space; simpl. now rewrite Hc. }
    destruct (is_space d) eqn:Hd; [constructor; [exact Hw|exact IH]|].
    destruct (split (d :: s')) as [|w ws]; [repeat constructor; apply Hw|].
    inversion IH as [|? ? [Hne Hns] Hrest]; subst.
    constructor; [|exact Hrest].
    split; [discriminate|]. unfold no_space in *; simpl. now rewrite Hc, Hns.
Qed.

Lemma split_app_word : forall w rest,
  is_word w -> split (w ++ SPACE :: rest) = w :: split rest.
Proof.
  induction w as [|c w IH]; intros rest [Hne Hns]; [congruence|].
  apply no_space_cons in Hns as [Hc Hw].
  destruct w as [|d w'].
  - simpl. rewrite Hc. reflexivity.
  - destruct (no_space_cons _ _ Hw) as [Hd _].
    simpl app. rewrite split_cons_cons, Hc, Hd.
    assert (Hdw : is_word (d :: w')) by (split; [discriminate|exact Hw]).
    assert (IH' := IH rest Hdw).
    simpl app in IH'. rewrite IH'. reflexivity.
Qed.

Lemma split_word : forall w, is_word w -> split w = [w].
Proof.
  induction w as [|c w IH]; intros [Hne Hns]; [congruence|].
  apply no_space_cons in Hns as [Hc Hw].
  destruct w as [|d w']; [simpl; now rewrite Hc|].
  destruct (no_space_cons _ _ Hw) as [Hd _].
  assert (Hdw : is_word (d :: w')) by (split; [discriminate|exact Hw]).
  rewrite split_cons_cons, Hc, Hd, (IH Hdw). reflexivity.
Qed.

Lemma join_cons : forall sep w ws,
  ws <> [] -> join sep (w :: ws) = w ++ sep ++ join sep ws.
Proof. intros sep w [|v ws] H; [congruence|reflexivity]. Qed.

Lemma split_join : forall ws, Forall is_word ws -> split (join [SPACE] ws) = ws.
Proof.
  induction ws as [|w ws IH]; intros H; [reflexivity|].
  inversion H as [|? ? Hw Hws]; subst.
  destruct ws as [|v ws']; [now apply split_word|].
  rewrite join_cons by discriminate.
  simpl app. rewrite split_app_word by assumption. f_equal. now apply IH.
Qed.

Lemma boundary_match : forall s,
  re_match boundary_regex s =
  match s with
  | c :: d :: _ => if is_boundary_mark c && is_space d then Some 2%nat else None
  | _ => None
  end.
Proof.
  intros [|c [|d s]]; simpl; try reflexivity.
  - now destruct (is_boundary_mark c).
  - destruct (is_boundary_mark c); [|reflexivity].
    now destruct (is_space d).
Qed.

Lemma match_ends_after_space : forall s pos skip e,
  In e (re_match_ends boundary_regex s pos skip) ->
  exists i d, e = (pos + S i)%nat /\ nth_error s i = Some d /\ is_space d = true.
Proof.
  induction s as [|c s IH]; intros pos skip e Hin; [contradiction|].
  assert (Hrest : forall k, In e (re_match_ends boundary_regex s (S pos) k) ->
            exists i d, e = (pos + S i)%nat /\ nth_error (c :: s) i = Some d
                        /\ is_space d = true).
  { intros k Hk. destruct (IH _ _ _ Hk) as (i & d & -> & Hnth & Hd).
    exists (S i), d. split; [lia|split; [exact Hnth|exact Hd]]. }
  cbn [re_match_ends] in Hin. destruct skip as [|k]; [|now apply (Hrest k)].
  rewrite boundary_match in Hin.
  destruct s as [|d s']; [contradiction|].
  destruct (is_boundary_mark c && is_space d) eqn:Hb; [|now apply (Hrest 0%nat)].
  destruct Hin as [<-|Hin]; [|now apply (Hrest 1%nat)].
  apply andb_true_iff in Hb as [_ Hd].
  exists 1%nat, d. split; [lia|split; [reflexivity|exact Hd]].
Qed.

Lemma no_space_nth : forall w i d,
  no_space w = true -> nth_error w i = Some d -> is_space d = false.
Proof.
  intros w i d Hw Hnth. apply nth_error_In in Hnth.
  unfold no_space in Hw. rewrite forallb_forall in Hw.
  apply negb_true_iff. now apply Hw.
Qed.

Lemma firstn_join_at_space : forall ws,
  Forall is_word ws ->
  forall i d, nth_error (join [SPACE] ws) i = Some d -> is_space d = true ->
  exists k, (1 <= k < length ws)%nat
            /\ firstn (S i) (join [SPACE] ws) = join [SPACE] (firstn k ws) ++ [SPACE].
Proof.
  induction ws as [|w ws IH]; intros Hws i d Hnth Hd.
  - now destruct i.
  - inversion Hws as [|? ? [Hne Hns] Hws']; subst.
    destruct ws as [|v ws'].
    + simpl in Hnth. rewrite (no_space_nth _ _ _ Hns Hnth) in Hd. discriminate.
    + rewrite join_cons in * by discriminate. cbn [app] in *.
      destruct (Nat.lt_ge_cases i (length w)) as [Hlt|Hge].
      * rewrite nth_error_app1 in Hnth by assumption.
        rewrite (no_space_nth _ _ _ Hns Hnth) in Hd. discriminate.
      * rewrite nth_error_app2 in Hnth by assumption.
        rewrite firstn_app, (firstn_all2 w) by lia.
        destruct (i - length w)%nat as [|j] eqn:Hj.
        -- exists 1%nat. split; [simpl; lia|].
           replace (S i - length w)%nat with 1%nat by lia. reflexivity.
        -- cbn [nth_error] in Hnth.
           destruct (IH Hws' j d Hnth Hd) as (k & Hk & Hfirst).
           exists (S k). split; [simpl in *; lia|].
           replace (S i - length w)%nat with (S (S j)) by lia.
           rewrite firstn_cons, Hfirst.
           change (firstn (S k) (w :: v :: ws')) with (w :: firstn k (v :: ws')).
           rewrite join_cons; [now rewrite <- app_assoc|].
           destruct k; [lia|discriminate].
Qed.

Lemma rstrip_snoc : forall s c,
  rstrip (s ++ [c]) = if is_space c then rstrip s else s ++ [c].
Proof.
  intros s c. unfold rstrip. rewrite rev_app_distr. simpl.
  destruct (is_space c); [reflexivity|].
  simpl. now rewrite rev_involutive.
Qed.

Lemma word_last : forall w, is_word w -> exists x c, w = x ++ [c] /\ is_space c = false.
Proof.
  intros w [Hne Hns].
  destruct (exists_last Hne) as (x & c & ->).
  exists x, c. split; [reflexivity|].
  apply (no_space_nth (x ++ [c]) (length x) c Hns).
  rewrite nth_error_app2, Nat.sub_diag by lia. reflexivity.
Qed.

Lemma join_words_last : forall ws,
  Forall is_word ws -> ws <> [] ->
  exists x c, join [SPACE] ws = x ++ [c] /\ is_space c = false.
Proof.
  induction ws as [|w ws IH]; intros Hws Hne; [congruence|].
  inversion Hws as [|? ? Hw Hws']; subst.
  destruct ws as [|v ws']; [now apply word_last|].
  destruct (IH Hws' ltac:(discriminate)) as (x & c & Hx & Hc).
  rewrite join_cons by discriminate. rewrite Hx.
  exists (w ++ [SPACE] ++ x), c. split; [now rewrite <- !app_assoc|exact Hc].
Qed.

Lemma join_words_first : forall ws,
  Forall is_word ws -> ws <> [] ->
  exists c y, join [SPACE] ws = c :: y /\ is_space c = false.
Proof.
  intros [|w ws] Hws Hne; [congruence|].
  inversion Hws as [|? ? [Hwne Hns] Hws']; subst.
  destruct w as [|c w']; [congruence|].
  apply no_space_cons in Hns as [Hc _].
  destruct ws as [|v ws']; [now exists c, w'|].
  rewrite join_cons by discriminate. now exists c, (w' ++ [SPACE] ++ join [SPACE] (v :: ws')).
Qed.

Lemma strip_join : forall ws, Forall is_word ws -> strip (join [SPACE] ws) = join [SPACE] ws.
Proof.
  intros ws Hws. destruct ws as [|w ws']; [reflexivity|].
  destruct (join_words_first _ Hws ltac:(discriminate)) as (c & y & Hy & Hc).
  destruct (join_words_last _ Hws ltac:(discriminate)) as (x & e & Hx & He).
  unfold strip, lstrip. rewrite Hy. simpl. rewrite Hc, <- Hy, Hx, rstrip_snoc, He.
  reflexivity.
Qed.

Lemma strip_join_space : forall ws,
  Forall is_word ws -> ws <> [] ->
  strip (join [SPACE] ws ++ [SPACE]) = join [SPACE] ws.
Proof.
  intros ws Hws Hne.
  destruct (join_words_first _ Hws Hne) as (c & y & Hy & Hc).
  destruct (join_words_last _ Hws Hne) as (x & e & Hx & He).
  unfold strip, lstrip. rewrite Hy. simpl. rewrite Hc.
  change (c :: y ++ [SPACE]) with ((c :: y) ++ [SPACE]).
  rewrite <- Hy, rstrip_snoc. change (is_space SPACE) with true. cbv iota.
  now rewrite Hx, rstrip_snoc, He.
Qed.

Lemma fold_last_end : forall ends d,
  fold_left (fun (_ : Z) (match_end : nat) => Z.of_nat match_end) ends d =
  match ends with
  | [] => d
  | _ :: _ => Z.of_nat (last ends 0%nat)
  end.
Proof.
  induction ends as [|e ends IH]; intros d; [reflexivity|].
  simpl fold_left. rewrite IH. destruct ends; reflexivity.
Qed.

Lemma last_In : forall (l : list nat) d, l <> [] -> In (last l d) l.
Proof.
  induction l as [|a l IH]; intros d Hne; [congruence|].
  destruct l as [|b l']; [now left|].
  right. apply IH. discriminate.
Qed.

Lemma Forall_firstn_words : forall n (ws : list str),
  Forall is_word ws -> Forall is_word (firstn n ws).
Proof.
  intros n ws H. rewrite <- (firstn_skipn n ws) in H.
  now apply Forall_app in H.
Qed.

Lemma slice_to_firstn : forall (l : list str) m,
  exists n, slice_to l m = firstn n l /\ (0 <= m -> n = Z.to_nat m).
Proof.
  intros l m. unfold slice_to. destruct (0 <=? m) eqn:Hm.
  - now exists (Z.to_nat m).
  - exists (length l - Z.to_nat (- m))%nat. split; [reflexivity|].
    apply Z.leb_gt in Hm. lia.
Qed.

Lemma firstn_prefix_again : forall n (l : list str),
  firstn (length (firstn n l)) l = firstn n l.
Proof.
  intros n l. rewrite length_firstn.
  destruct (Nat.le_ge_cases n (length l)).
  - now rewrite Nat.min_l.
  - rewrite Nat.min_r by assumption. now rewrite !firstn_all2 by lia.
Qed.

Lemma truncate_cut : forall text max_words,
  max_words < len (split text) ->
  exists k, (k <= length (slice_to (split text) max_words))%nat
            /\ _truncate_to_words_sentence_aware text max_words
               = join [SPACE] (firstn k (split text)).
Proof.
  intros text m Hlt. unfold _truncate_to_words_sentence_aware.
  apply Z.leb_gt in Hlt. rewrite Hlt.
  destruct (slice_to_firstn (split text) m) as (n & Hslice & _).
  set (ws := slice_to (split text) m) in *.
  assert (Hws : Forall is_word ws).
  { rewrite Hslice. apply Forall_firstn_words, split_words. }
  rewrite fold_last_end.
  destruct (re_match_ends boundary_regex (join [SPACE] ws) 0 0) as [|e0 ends] eqn:Hends.
  - change (negb (-1 =? -1)) with false. cbv iota.
    exists (length ws). split; [lia|].
    rewrite strip_join by assumption.
    unfold ws at 1. rewrite Hslice, firstn_prefix_again. now rewrite <- Hslice.
  - set (e := last (e0 :: ends) 0%nat).
    assert (Hin : In e (re_match_ends boundary_regex (join [SPACE] ws) 0 0)).
    { rewrite Hends. apply last_In. discriminate. }
    destruct (match_ends_after_space _ _ _ _ Hin) as (i & d & He & Hnth & Hd).
    destruct (firstn_join_at_space ws Hws i d Hnth Hd) as (k & Hk & Hfirst).
    assert (Hneq : negb (Z.of_nat e =? -1) = true).
    { apply negb_true_iff, Z.eqb_neq. lia. }
    rewrite Hneq. unfold slice_to.
    assert (Hpos : (0 <=? Z.of_nat e) = true) by (apply Z.leb_le; lia).
    rewrite Hpos, Nat2Z.id, He. cbn [Nat.add]. rewrite Hfirst.
    exists k. split; [lia|].
    rewrite strip_join_space.
    + rewrite Hslice, firstn_firstn. f_equal. f_equal.
      assert (length ws <= n)%nat by (rewrite Hslice, length_firstn; lia). lia.
    + now apply Forall_firstn_words.
    + destruct ws; [simpl in Hk; lia|]. destruct k; [lia|discriminate].
Qed.

Lemma in_join : forall sep ws c,
  In c (join sep ws) -> In c sep \/ exists w, In w ws /\ In c w.
Proof.
  induction ws as [|w ws IH]; intros c Hin; [contradiction|].
  destruct ws as [|v ws'].
  - right. exists w. split; [now left|exact Hin].
  - rewrite join_cons in Hin by discriminate.
    apply in_app_or in Hin as [Hin|Hin]; [right; exists w; split; [now left|exact Hin]|].
    apply in_app_or in Hin as [Hin|Hin]; [now left|].
    destruct (IH c Hin) as [Hsep|(w' & Hw' & Hc)]; [now left|].
    right. exists w'. split; [now right|exact Hc].
Qed.

Lemma join_words_spaces : forall ws c,
  Forall is_word ws -> In c (join [SPACE] ws) -> is_space c = true -> c = SPACE.
Proof.
  intros ws c Hws Hin Hc.
  destruct (in_join _ _ _ Hin) as [[<-|[]]|(w & Hw & Hcw)]; [reflexivity|].
  rewrite Forall_forall in Hws. destruct (Hws w Hw) as [_ Hns].
  unfold no_space in Hns. rewrite forallb_forall in Hns.
  specialize (Hns c Hcw). rewrite Hc in Hns. discriminate.
Qed.

Lemma drop_while_head : forall p s c r, drop_while p s = c :: r -> p c = false.
Proof.
  induction s as [|a s IH]; intros c r H; [discriminate|].
  simpl in H. destruct (p a) eqn:Ha; [now apply (IH c r)|].
  now injection H as <- _.
Qed.

Lemma ends_with_rstrip : forall s, ends_with is_space (rstrip s) = false.
Proof.
  intros s. unfold ends_with, rstrip. rewrite rev_involutive.
  destruct (drop_while is_space (rev s)) as [|c r] eqn:H; [reflexivity|].
  exact (drop_while_head _ _ _ _ H).
Qed.

Lemma ends_with_snoc : forall p s c, ends_with p (s ++ [c]) = p c.
Proof. intros p s c. unfold ends_with. now rewrite rev_app_distr. Qed.

Lemma ends_with_cons : forall p a s, s <> [] -> ends_with p (a :: s) = ends_with p s.
Proof.
  intros p a s Hne. destruct (exists_last Hne) as (x & c & ->).
  change (a :: x ++ [c]) with ((a :: x) ++ [c]). now rewrite !ends_with_snoc.
Qed.

(** *** The cut of the truncation

    The matches of the boundary pattern in the provisional text are the
    boundary marks at the end of a word that another word follows; the last
    of them decides the cut. *)

Lemma re_match_ends_cons : forall r c s pos,
  re_match_ends r (c :: s) pos 0
  = match re_match r (c :: s) with
    | Some (S n) => (pos + S n)%nat :: re_match_ends r s (S pos) n
    | _ => re_match_ends r s (S pos) 0
    end.
Proof. reflexivity. Qed.

Lemma ends_within_word : forall w pos,
  no_space w = true -> re_match_ends boundary_regex w pos 0 = [].
Proof.
  induction w as [|c w IH]; intros pos Hw; [reflexivity|].
  apply no_space_cons in Hw as [_ Hw].
  rewrite re_match_ends_cons, boundary_match.
  destruct w as [|d w']; [reflexivity|].
  destruct (no_space_cons _ _ Hw) as [Hd _].
  rewrite Hd, andb_false_r. now apply IH.
Qed.

Lemma ends_after_word : forall w rest pos,
  is_word w ->
  re_match_ends boundary_regex (w ++ SPACE :: rest) pos 0
  = (if ends_with is_boundary_mark w then [(pos + length w + 1)%nat] else [])
    ++ re_match_ends boundary_regex rest (pos + length w + 1) 0.
Proof.
  induction w as [|c w IH]; intros rest pos [Hne Hw]; [congruence|].
  apply no_space_cons in Hw as [_ Hw].
  destruct w as [|d w'].
  - cbn [app length]. rewrite re_match_ends_cons, boundary_match.
    change (is_space SPACE) with true. rewrite andb_true_r.
    unfold ends_with. cbn [rev app].
    replace (pos + 1 + 1)%nat with (S (S pos)) by lia.
    destruct (is_boundary_mark c).
    + cbn [app]. f_equal. lia.
    + cbn [app]. rewrite re_match_ends_cons, boundary_match.
      destruct rest as [|e rest']; reflexivity.
  - destruct (no_space_cons _ _ Hw) as [Hd _].
    rewrite ends_with_cons by discriminate.
    cbn [app]. rewrite re_match_ends_cons, boundary_match, Hd, andb_false_r.
    assert (Hdw : is_word (d :: w')) by (split; [discriminate|exact Hw]).
    specialize (IH rest (S pos) Hdw). cbn [app] in IH. rewrite IH.
    cbn [length]. now replace (S pos + S (length w') + 1)%nat
      with (pos + S (S (length w')) + 1)%nat by lia.
Qed.

Lemma last_boundary_cut_ends : forall ws pos,
  Forall is_word ws ->
  match last_boundary_cut ws with
  | Some k =>
      (1 <= k < length ws)%nat
      /\ re_match_ends boundary_regex (join [SPACE] ws) pos 0 <> []
      /\ last (re_match_ends boundary_regex (join [SPACE] ws) pos 0) 0%nat
         = (pos + length (join [SPACE] (firstn k ws)) + 1)%nat
  | None => re_match_ends boundary_regex (join [SPACE] ws) pos 0 = []
  end.
Proof.
  induction ws as [|w ws IH]; intros pos Hws; [reflexivity|].
  inversion Hws as [|? ? Hw Hws']; subst.
  destruct ws as [|v ws'].
  - cbn [last_boundary_cut]. apply ends_within_word, Hw.
  - rewrite join_cons by discriminate. cbn [app].
    rewrite ends_after_word by exact Hw.
    specialize (IH (pos + length w + 1)%nat Hws').
    change (last_boundary_cut (w :: v :: ws'))
      with (match last_boundary_cut (v :: ws') with
            | Some k => Some (S k)
            | None => if ends_with is_boundary_mark w then Some 1%nat else None
            end).
    destruct (last_boundary_cut (v :: ws')) as [k|].
    + destruct IH as (Hk & Hne & Hlast).
      set (ends := re_match_ends boundary_regex (join [SPACE] (v :: ws'))
                                 (pos + length w + 1) 0) in *.
      split; [cbn [length] in *; lia|].
      assert (Hjoin : length (join [SPACE] (firstn (S k) (w :: v :: ws')))
                      = (length w + 1 + length (join [SPACE] (firstn k (v :: ws'))))%nat).
      { rewrite firstn_cons, join_cons; [rewrite !length_app; cbn [length]; lia|].
        destruct k; [lia|discriminate]. }
      rewrite Hjoin.
      destruct ends as [|e ends']; [congruence|].
      destruct (ends_with is_boundary_mark w); cbn [app].
      * split; [discriminate|]. cbn [last] in *. rewrite Hlast. lia.
      * split; [discriminate|]. rewrite Hlast. lia.
    + rewrite IH, app_nil_r.
      destruct (ends_with is_boundary_mark w); [|reflexivity].
      split; [cbn [length]; lia|]. split; [discriminate|].
      cbn [last firstn]. change (join [SPACE] [w]) with w. reflexivity.
Qed.

Lemma last_boundary_cut_spec : forall ws,
  match last_boundary_cut ws with
  | Some k => cut_point ws k /\ (k < length ws)%nat
  | None => cut_point ws (length ws)
  end.
Proof.
  induction ws as [|w ws IH].
  - left. split; [reflexivity|]. intros i w Hi. cbn [length] in Hi. lia.
  - destruct ws as [|v ws'].
    + left. split; [reflexivity|]. intros i w' Hi. cbn [length] in Hi. lia.
    + change (last_boundary_cut (w :: v :: ws'))
        with (match last_boundary_cut (v :: ws') with
              | Some k => Some (S k)
              | None => if ends_with is_boundary_mark w then Some 1%nat else None
              end).
      destruct (last_boundary_cut (v :: ws')) as [k|].
      * destruct IH as [[[Hk _]|(j & w0 & -> & Hj & Hnth & Hmark & Hmax)] Hlt]; [lia|].
        split; [|cbn [length] in *; lia].
        right. exists (S j), w0. split; [reflexivity|].
        split; [cbn [length] in *; lia|]. split; [exact Hnth|]. split; [exact Hmark|].
        intros i w' Hji Hi Hw'. destruct i as [|i]; [lia|].
        apply (Hmax i w'); [lia|cbn [length] in *; lia|exact Hw'].
      * destruct IH as [[_ Hnone]|(j & w0 & Hk & Hj & _)]; [|lia].
        destruct (ends_with is_boundary_mark w) eqn:Hw.
        -- split; [|cbn [length]; lia].
           right. exists 0%nat, w. split; [reflexivity|].
           split; [cbn [length]; lia|]. split; [reflexivity|]. split; [exact Hw|].
           intros i w' Hji Hi Hw'. destruct i as [|i]; [lia|].
           apply (Hnone i w'); [cbn [length] in *; lia|exact Hw'].
        -- left. split; [reflexivity|].
           intros i w' Hi Hw'. destruct i as [|i].
           ++ injection Hw' as <-. exact Hw.
           ++ apply (Hnone i w'); [cbn [length] in *; lia|exact Hw'].
Qed.

Lemma join_app : forall sep (a b : list str),
  a <> [] -> b <> [] -> join sep (a ++ b) = join sep a ++ sep ++ join sep b.
Proof.
  induction a as [|w a IH]; intros b Ha Hb; [congruence|].
  destruct a as [|v a'].
  - cbn [app]. rewrite join_cons by exact Hb. reflexivity.
  - change ((w :: v :: a') ++ b) with (w :: (v :: a') ++ b).
    rewrite join_cons by discriminate. rewrite IH by (discriminate || exact Hb).
    rewrite (join_cons sep w (v :: a')) by discriminate.
    now rewrite <- !app_assoc.
Qed.

Lemma firstn_join : forall (ws : list str) k,
  (1 <= k < length ws)%nat ->
  firstn (length (join [SPACE] (firstn k ws)) + 1) (join [SPACE] ws)
  = join [SPACE] (firstn k ws) ++ [SPACE].
Proof.
  intros ws k Hk.
  assert (Ha : firstn k ws <> []).
  { destruct ws; [cbn [length] in Hk; lia|]. destruct k; [lia|discriminate]. }
  assert (Hb : skipn k ws <> []).
  { intros H. apply (f_equal (@length str)) in H. rewrite length_skipn in H.
    cbn [length] in H. lia. }
  rewrite <- (firstn_skipn k ws) at 2. rewrite join_app by assumption.
  rewrite app_assoc, firstn_app.
  rewrite firstn_all2 by (rewrite length_app; cbn [length]; lia).
  rewrite length_app. cbn [length].
  replace (length (join [SPACE] (firstn k ws)) + 1
           - (length (join [SPACE] (firstn k ws)) + 1))%nat with 0%nat by lia.
  now rewrite firstn_O, app_nil_r.
Qed.

Lemma truncate_at_last_boundary : forall text max_words,
  max_words < len (split text) ->
  _truncate_to_words_sentence_aware text max_words
  = match last_boundary_cut (slice_to (split text) max_words) with
    | Some k => join [SPACE] (firstn k (slice_to (split text) max_words))
    | None => join [SPACE] (slice_to (split text) max_words)
    end.
Proof.
  intros text m Hlt. unfold _truncate_to_words_sentence_aware.
  apply Z.leb_gt in Hlt. rewrite Hlt.
  destruct (slice_to_firstn (split text) m) as (n & Hslice & _).
  set (ws := slice_to (split text) m) in *.
  assert (Hws : Forall is_word ws).
  { rewrite Hslice. apply Forall_firstn_words, split_words. }
  rewrite fold_last_end.
  pose proof (last_boundary_cut_ends ws 0 Hws) as Hcut.
  destruct (last_boundary_cut ws) as [k|].
  - destruct Hcut as (Hk & Hne & Hlast).
    destruct (re_match_ends boundary_regex (join [SPACE] ws) 0 0) as [|e0 ends];
      [congruence|].
    rewrite Hlast.
    assert (Hneq : negb (Z.of_nat (0 + length (join [SPACE] (firstn k ws)) + 1) =? -1)
                   = true).
    { apply negb_true_iff, Z.eqb_neq. lia. }
    rewrite Hneq. unfold slice_to.
    assert (Hpos : (0 <=? Z.of_nat (0 + length (join [SPACE] (firstn k ws)) + 1)) = true)
      by (apply Z.leb_le; lia).
    rewrite Hpos, Nat2Z.id. cbn [Nat.add]. rewrite firstn_join by exact Hk.
    apply strip_join_space; [now apply Forall_firstn_words|].
    destruct ws; [cbn [length] in Hk; lia|]. destruct k; [lia|discriminate].
  - rewrite Hcut. change (negb (-1 =? -1)) with false. cbv iota.
    now apply strip_join.
Qed.

Lemma ends_with_app : forall p (x y : str), y <> [] -> ends_with p (x ++ y) = ends_with p y.
Proof.
  intros p x y Hy. destruct (exists_last Hy) as (y' & c & ->).
  now rewrite app_assoc, !ends_with_snoc.
Qed.

Lemma ends_with_join : forall p ws w,
  w <> [] -> ends_with p (join [SPACE] (ws ++ [w])) = ends_with p w.
Proof.
  intros p ws w Hw. destruct ws as [|v ws']; [reflexivity|].
  rewrite join_app by discriminate. change (join [SPACE] [w]) with w.
  rewrite app_assoc. now apply ends_with_app.
Qed.

Lemma firstn_snoc_nth : forall (l : list str) j w,
  nth_error l j = Some w -> firstn (S j) l = firstn j l ++ [w].
Proof.
  induction l as [|a l IH]; intros [|j] w H; try discriminate H.
  - injection H as ->. reflexivity.
  - cbn [nth_error] in H. rewrite !firstn_cons, (IH j w H). reflexivity.
Qed.

Lemma cut_point_bound : forall kept k, cut_point kept k -> (k <= length kept)%nat.
Proof. intros kept k [[-> _]|(j & w & -> & Hj & _)]; lia. Qed.

Lemma truncate_at_cut_point : forall text max_words,
  max_words < len (split text) ->
  exists k,
    cut_point (slice_to (split text) max_words) k
    /\ _truncate_to_words_sentence_aware text max_words
       = join [SPACE] (firstn k (slice_to (split text) max_words)).
Proof.
  intros text m Hlt. rewrite truncate_at_last_boundary by exact Hlt.
  pose proof (last_boundary_cut_spec (slice_to (split text) m)) as Hcut.
  destruct (last_boundary_cut (slice_to (split text) m)) as [k|].
  - exists k. split; [apply Hcut|reflexivity].
  - exists (length (slice_to (split text) m)). split; [exact Hcut|].
    now rewrite firstn_all.
Qed.

Lemma search_terminator : forall s,
  ends_with is_space s = false ->
  re_search [Class is_terminator; Dollar] s = ends_with is_terminator s.
Proof.
  induction s as [|c s IH]; intros Hend; [reflexivity|].
  destruct s as [|d s'].
  - simpl. unfold ends_with. simpl. now destruct (is_terminator c).
  - rewrite ends_with_cons in Hend by discriminate.
    rewrite ends_with_cons by discriminate. rewrite <- (IH Hend).
    assert (Hnone : re_match [Class is_terminator; Dollar] (c :: d :: s') = None).
    { simpl. destruct (is_terminator c); [|reflexivity].
      destruct s' as [|e s'']; [|reflexivity].
      unfold ends_with in Hend. simpl in Hend.
      destruct (N.eqb_spec d LF) as [->|_]; [discriminate Hend|reflexivity]. }
    change (re_search [Class is_terminator; Dollar] (c :: d :: s'))
      with (match re_match [Class is_terminator; Dollar] (c :: d :: s') with
            | Some _ => true
            | None => re_search [Class is_terminator; Dollar] (d :: s')
            end).
    now rewrite Hnone.
Qed.

Lemma ensure_sentence_boundary_eq : forall text,
  _ensure_sentence_boundary text =
  if ends_with is_terminator (rstrip text) then rstrip text
  else rstrip text ++ [FULL_STOP].
Proof.
  intros text. unfold _ensure_sentence_boundary.
  rewrite search_terminator by apply ends_with_rstrip.
  now destruct (ends_with is_terminator (rstrip text)).
Qed.

Lemma split_snoc_space : forall x c, is_space c = true -> split (x ++ [c]) = split x.
Proof.
  induction x as [|a x IH]; intros c Hc; [simpl; now rewrite Hc|].
  destruct x as [|d x'].
  - simpl. rewrite Hc. now destruct (is_space a).
  - specialize (IH c Hc). cbn [app] in *. now rewrite !split_cons_cons, IH.
Qed.

Lemma split_rstrip : forall s, split (rstrip s) = split s.
Proof.
  induction s as [|c s IH] using rev_ind; [reflexivity|].
  rewrite rstrip_snoc. destruct (is_space c) eqn:Hc; [|reflexivity].
  now rewrite split_snoc_space.
Qed.

Lemma split_snoc_mark : forall x c,
  is_space c = false -> x <> [] -> ends_with is_space x = false ->
  exists ws w, split x = ws ++ [w] /\ split (x ++ [c]) = ws ++ [w ++ [c]].
Proof.
  induction x as [|a x IH]; intros c Hc Hne Hend; [congruence|].
  destruct x as [|d x'].
  - unfold ends_with in Hend. simpl in Hend.
    exists [], [a]. simpl. now rewrite Hend, Hc.
  - rewrite ends_with_cons in Hend by discriminate.
    destruct (IH c Hc ltac:(discriminate) Hend) as (ws & w & Hx & Hxc).
    cbn [app] in *. rewrite !split_cons_cons, Hx, Hxc.
    destruct (is_space a); [now exists ws, w|].
    destruct (is_space d); [now exists ([a] :: ws), w|].
    destruct ws as [|w0 ws0]; [now exists [], (a :: w)|].
    now exists ((a :: w0) :: ws0), w.
Qed.

Lemma ensure_words : forall s,
  final_period_variant (split (_ensure_sentence_boundary s)) (split s).
Proof.
  intros s. rewrite ensure_sentence_boundary_eq, <- (split_rstrip s).
  destruct (ends_with is_terminator (rstrip s)); [now left|].
  right. destruct (rstrip s) as [|a r] eqn:Hr; [now right|left].
  assert (Hend := ends_with_rstrip s). rewrite Hr in Hend.
  apply split_snoc_mark; [reflexivity|discriminate|exact Hend].
Qed.

Lemma final_period_variant_length : forall out_words in_words,
  final_period_variant out_words in_words ->
  len out_words <= Z.max 1 (len in_words).
Proof.
  unfold len. intros out_words in_words [->|[(ws & w & -> & ->)|[-> ->]]].
  - lia.
  - rewrite !length_app. simpl. lia.
  - simpl. lia.
Qed.

Lemma truncate_unchanged : forall text max_words,
  len (split text) <= max_words ->
  _truncate_to_words_sentence_aware text max_words = text.
Proof.
  intros text m H. unfold _truncate_to_words_sentence_aware.
  apply Z.leb_le in H. now rewrite H.
Qed.

Lemma truncate_words : forall text max_words,
  exists k, split (_truncate_to_words_sentence_aware text max_words)
            = firstn k (split text)
            /\ (0 <= max_words -> Z.of_nat k <= max_words).
Proof.
  intros text m.
  destruct (Z.le_gt_cases (len (split text)) m) as [Hle|Hgt].
  - exists (length (split text)).
    rewrite truncate_unchanged, firstn_all by assumption. split; [reflexivity|].
    intros _. exact Hle.
  - destruct (truncate_cut text m Hgt) as (k & Hk & ->).
    exists k. split.
    + apply split_join, Forall_firstn_words, split_words.
    + intros Hm. destruct (slice_to_firstn (split text) m) as (n & Hslice & Hn).
      rewrite Hslice, length_firstn, (Hn Hm) in Hk. lia.
Qed.

Lemma length_firstn_le : forall k (ws : list str), (length (firstn k ws) <= k)%nat.
Proof. intros k ws. rewrite length_firstn. lia. Qed.

Lemma post_process_within_cap : forall raw_script target_minutes hard_word_cap,
  1 <= hard_word_cap ->
  word_count (processed_script (_post_process_script raw_script target_minutes hard_word_cap))
  <= hard_word_cap.
Proof.
  intros raw target cap Hcap. unfold _post_process_script, word_count. cbn [processed_script].
  set (cut := _truncate_to_words_sentence_aware (format_sections raw) cap).
  assert (Hfinal := final_period_variant_length _ _ (ensure_words cut)).
  destruct (truncate_words (format_sections raw) cap) as (k & Hk & Hle).
  fold cut in Hk. rewrite Hk in Hfinal. unfold len in *.
  assert (Hlen := length_firstn_le k (split (format_sections raw))).
  specialize (Hle ltac:(lia)). lia.
Qed.

Lemma ensure_ends_with_terminator : forall text,
  ends_with is_terminator (_ensure_sentence_boundary text) = true.
Proof.
  intros text. rewrite ensure_sentence_boundary_eq.
  destruct (ends_with is_terminator (rstrip text)) eqn:H; [exact H|].
  now rewrite ends_with_snoc.
Qed.

(** ** The word cap *)

Lemma resolve_hard_word_cap_bounds : forall length_minutes requested_word_cap,
  150 <= resolve_hard_word_cap length_minutes requested_word_cap <= 5000.
Proof.
  intros minutes requested. unfold resolve_hard_word_cap.
  destruct requested as [cap|]; [destruct (truthy_int cap && (0 <? cap))|]; lia.
Qed.

Lemma forall_range_true : forall p n lo,
  forall_range p lo n = true ->
  forall z, lo <= z < lo + Z.of_nat n -> p z = true.
Proof.
  induction n as [|n IH]; intros lo Hall z Hz; [lia|].
  cbn [forall_range] in Hall. apply andb_true_iff in Hall as [Hlo Hrest].
  destruct (Z.eq_dec z lo) as [->|Hne]; [exact Hlo|].
  apply (IH (lo + 1) Hrest). lia.
Qed.

(** On the caps that [generate_script] resolves, [int(hard_word_cap * 0.85)]
    is the floor of 17/20 of the cap: checked on each of them. *)
Lemma threshold_floor : forall hard_word_cap,
  150 <= hard_word_cap <= 5000 ->
  int_of_float (float_of_int hard_word_cap * float_0_85) = 17 * hard_word_cap / 20.
Proof.
  intros cap Hcap. apply Z.eqb_eq.
  apply (forall_range_true
           (fun c => int_of_float (float_of_int c * float_0_85) =? 17 * c / 20) 4851 150);
    [vm_compute; reflexivity|lia].
Qed.

(** ** The continuation calls *)

Lemma attempt_continuation_cases : forall current_text hard_word_cap max_output_tokens calls,
  (Z.max 0 (hard_word_cap - word_count current_text) < 50
   /\ _attempt_continuation current_text hard_word_cap max_output_tokens calls
      = (inr current_text, calls))
  \/ (50 <= Z.max 0 (hard_word_cap - word_count current_text)
      /\ exists accumulated prompt,
           _attempt_continuation current_text hard_word_cap max_output_tokens calls
           = (inr accumulated,
              calls ++ [{| call_site := ContinuationCall; call_prompt := prompt;
                           call_max_output_tokens := max_output_tokens |}])).
Proof.
  intros current cap tokens calls. unfold _attempt_continuation, try_except.
  destruct (Z.ltb_spec (Z.max 0 (cap - word_count current)) 50) as [Hlt|Hge];
    [left; split; [exact Hlt|reflexivity]|right; split; [exact Hge|]].
  unfold bind, generate_content, eval, ret, raise.
  match goal with |- context [model calls ?c] => destruct (model calls c) as [e|more] end;
    [eexists; eexists; reflexivity|].
  destruct (text more) as [e|more_text]; [eexists; eexists; reflexivity|].
  destruct (truthy_str more_text); eexists; eexists; reflexivity.
Qed.

Lemma attempt_guided_continuation_cases :
  forall current_text hard_word_cap max_output_tokens guidance calls,
  (Z.max 0 (hard_word_cap - word_count current_text) < 50
   /\ _attempt_guided_continuation current_text hard_word_cap max_output_tokens guidance calls
      = (inr current_text, calls))
  \/ (50 <= Z.max 0 (hard_word_cap - word_count current_text)
      /\ exists accumulated,
           _attempt_guided_continuation current_text hard_word_cap max_output_tokens
                                        guidance calls
           = (inr accumulated,
              calls ++ [{| call_site := GuidedContinuationCall;
                           call_prompt :=
                             guidance
                             ++ remaining_words_prompt
                                  (Z.max 0 (hard_word_cap - word_count current_text))
                                  hard_word_cap
                                  (join [SPACE] (last_n 80 (split current_text)));
                           call_max_output_tokens := max_output_tokens |}])).
Proof.
  intros current cap tokens guidance calls. unfold _attempt_guided_continuation, try_except.
  destruct (Z.ltb_spec (Z.max 0 (cap - word_count current)) 50) as [Hlt|Hge];
    [left; split; [exact Hlt|reflexivity]|right; split; [exact Hge|]].
  unfold bind, generate_content, eval, ret, raise.
  match goal with |- context [model calls ?c] => destruct (model calls c) as [e|more] end;
    [eexists; reflexivity|].
  destruct (text more) as [e|more_text]; [eexists; reflexivity|].
  destruct (truthy_str more_text); eexists; reflexivity.
Qed.

Lemma continue_script_total :
  forall script_text hard_word_cap max_output_tokens expected_items calls,
  exists accumulated added,
    continue_script script_text hard_word_cap max_output_tokens expected_items calls
    = (inr accumulated, calls ++ added)
    /\ continuation_calls_shape added.
Proof.
  intros script cap tokens expected_items calls.
  assert (Hnone : forall accumulated : str,
            exists accumulated' added,
              (inr accumulated, calls) = (@inr exn _ accumulated', calls ++ added)
              /\ continuation_calls_shape added).
  { intros accumulated. exists accumulated, []. split; [now rewrite app_nil_r|now left]. }
  assert (Hone : forall (accumulated : str) generic,
            call_site generic = ContinuationCall ->
            exists accumulated' added,
              (inr accumulated, calls ++ [generic])
              = (@inr exn _ accumulated', calls ++ added)
              /\ continuation_calls_shape added).
  { intros accumulated generic Hsite. exists accumulated, [generic].
    split; [reflexivity|]. right; left. now exists generic. }
  unfold continue_script.
  destruct (needs_more script cap expected_items); [|apply Hnone].
  unfold bind.
  destruct (attempt_continuation_cases script cap tokens calls)
    as [[Hlt ->]|[_ (accumulated1 & prompt & ->)]].
  - destruct expected_items as [expected|]; [|apply Hnone].
    destruct (truthy_int expected); [|apply Hnone].
    destruct (_count_list_items script <? expected); [|apply Hnone].
    destruct (Z.ltb_spec 60 (cap - word_count script)); [lia|apply Hnone].
  - destruct expected_items as [expected|]; [|now apply Hone].
    destruct (truthy_int expected); [|now apply Hone].
    destruct ((_count_list_items accumulated1 <? expected)
              && (60 <? cap - word_count accumulated1)); [|now apply Hone].
    match goal with
    | |- context [_attempt_guided_continuation ?t ?c ?k ?g ?cs] =>
        destruct (attempt_guided_continuation_cases t c k g cs)
          as [[_ ->]|[_ (accumulated & ->)]]
    end; [now apply Hone|].
    exists accumulated. eexists [_; _].
    split; [now rewrite <- app_assoc|].
    right; right. eexists; eexists. now repeat split.
Qed.

(** ** The calls and the result of [generate_script] *)

Lemma from_response_total :
  forall response topic length_minutes additional_context hard_word_cap max_output_tokens
         calls,
  exists result added,
    generate_script_from_response response topic length_minutes additional_context
                                  hard_word_cap max_output_tokens calls
    = (inr result, calls ++ added)
    /\ continuation_calls_shape added.
Proof.
  intros response topic minutes context cap tokens calls.
  assert (Hnone : forall result : GenerationResult,
            exists result' added,
              (inr result, calls) = (@inr exn _ result', calls ++ added)
              /\ continuation_calls_shape added).
  { intros result. exists result, []. split; [now rewrite app_nil_r|now left]. }
  unfold generate_script_from_response.
  destruct (match candidates response with
            | candidate :: _ => blocked_categories candidate
            | [] => []
            end); [|apply Hnone].
  destruct (_extract_text_from_response response) as [script_text|]; [|apply Hnone].
  destruct (negb (truthy_str script_text)); [apply Hnone|].
  unfold bind.
  destruct (continue_script_total script_text cap tokens
              (_extract_expected_item_count topic context) calls)
    as (accumulated & added & -> & Hshape).
  eexists. exists added. split; [reflexivity|exact Hshape].
Qed.

Lemma generation_attempt_calls :
  forall topic length_minutes tone target_audience content_type creator_style
         additional_context requested_word_cap force_hinglish_ascii calls,
  exists outcome first added,
    generation_attempt topic length_minutes tone target_audience content_type
                       creator_style additional_context requested_word_cap
                       force_hinglish_ascii calls
    = (outcome, (calls ++ first) ++ added)
    /\ first_calls_shape first
    /\ continuation_calls_shape added.
Proof.
  intros topic minutes tone audience ctype style context requested force calls.
  unfold generation_attempt, bind, generate_content.
  set (cap := resolve_hard_word_cap minutes requested).
  set (tokens := max_output_tokens_for cap).
  match goal with |- context [model calls ?c] => set (call1 := c) end.
  assert (Hone : first_calls_shape [call1]) by (left; now exists call1).
  assert (Hstop1 : forall outcome : exn + GenerationResult,
            exists outcome' first added,
              (outcome, calls ++ [call1]) = (outcome', (calls ++ first) ++ added)
              /\ first_calls_shape first /\ continuation_calls_shape added).
  { intros outcome. exists outcome, [call1], [].
    split; [now rewrite app_nil_r|]. split; [exact Hone|now left]. }
  destruct (model calls call1) as [e|response]; [apply Hstop1|].
  destruct (candidates response) as [|candidate others].
  - unfold print. destruct (stdout_write fallback_notice) as [e|]; [apply Hstop1|].
    unfold ret at 1. cbv beta iota.
    match goal with |- context [model (calls ++ [call1]) ?c] => set (call2 := c) end.
    assert (Htwo : first_calls_shape [call1; call2]) by (right; now exists call1, call2).
    assert (Hcalls : (calls ++ [call1]) ++ [call2] = calls ++ [call1; call2])
      by now rewrite <- app_assoc.
    rewrite Hcalls.
    assert (Hstop : forall outcome : exn + GenerationResult,
              exists outcome' first added,
                (outcome, calls ++ [call1; call2])
                = (outcome', (calls ++ first) ++ added)
                /\ first_calls_shape first /\ continuation_calls_shape added).
    { intros outcome. exists outcome, [call1; call2], [].
      split; [now rewrite app_nil_r|]. split; [exact Htwo|now left]. }
    destruct (model (calls ++ [call1]) call2) as [e|fallback]; [apply Hstop|].
    destruct (candidates fallback); [apply Hstop|].
    unfold eval. destruct (text fallback) as [e|fallback_text]; [apply Hstop|].
    unfold ret at 1. cbv beta iota.
    destruct (negb (truthy_str fallback_text)); [apply Hstop|].
    destruct (from_response_total fallback topic minutes context cap tokens
                (calls ++ [call1; call2])) as (result & added & -> & Hshape).
    exists (inr result), [call1; call2], added. split; [reflexivity|]. now split.
  - destruct (from_response_total response topic minutes context cap tokens
                (calls ++ [call1])) as (result & added & -> & Hshape).
    exists (inr result), [call1], added. split; [reflexivity|]. now split.
Qed.

Lemma generate_script_unfold :
  forall topic length_minutes tone target_audience content_type creator_style
         additional_context requested_word_cap force_hinglish_ascii calls,
  generate_script topic length_minutes tone target_audience content_type creator_style
                  additional_context requested_word_cap force_hinglish_ascii calls
  = match stdout_write (request_line topic length_minutes tone target_audience) with
    | Some e => (inl e, calls)
    | None =>
        match generation_attempt topic length_minutes tone target_audience content_type
                                 creator_style additional_context requested_word_cap
                                 force_hinglish_ascii calls with
        | (inl e, calls') =>
            match stdout_write (failure_line e) with
            | Some e' => (inl e', calls')
            | None =>
                (inr (Failure (str_of_exn e)
                              {| meta_topic := topic;
                                 meta_length_minutes := length_minutes |}),
                 calls')
            end
        | done => done
        end
    end.
Proof.
  intros topic minutes tone audience ctype style context requested force calls.
  unfold generate_script, bind, print, try_except.
  destruct (stdout_write (request_line topic minutes tone audience)); [reflexivity|].
  unfold ret at 1. cbv beta iota.
  destruct (generation_attempt topic minutes tone audience ctype style context requested
                               force calls) as [[e|result] calls']; [|reflexivity].
  now destruct (stdout_write (failure_line e)).
Qed.

Lemma generate_script_calls :
  forall topic length_minutes tone target_audience content_type creator_style
         additional_context requested_word_cap force_hinglish_ascii calls,
  exists outcome first added,
    generate_script topic length_minutes tone target_audience content_type creator_style
                    additional_context requested_word_cap force_hinglish_ascii calls
    = (outcome, (calls ++ first) ++ added)
    /\ match stdout_write (request_line topic length_minutes tone target_audience) with
       | Some e => outcome = inl e /\ first = []
       | None => first_calls_shape first
       end
    /\ continuation_calls_shape added.
Proof.
  intros topic minutes tone audience ctype style context requested force calls.
  rewrite generate_script_unfold.
  destruct (stdout_write (request_line topic minutes tone audience)) as [e|].
  { exists (inl e), [], []. split; [now rewrite !app_nil_r|]. split; [now split|now left]. }
  destruct (generation_attempt_calls topic minutes tone audience ctype style context
              requested force calls) as (outcome & first & added & -> & Hfirst & Hadded).
  destruct outcome as [e|result].
  - destruct (stdout_write (failure_line e)) as [e'|]; eexists; exists first, added;
      (split; [reflexivity|]); now split.
  - exists (inr result), first, added. split; [reflexivity|]. now split.
Qed.


Lemma str_eqb_refl : forall s, str_eqb s s = true.
Proof.
  induction s as [|c s IH]; [reflexivity|].
  simpl. now rewrite N.eqb_refl, IH.
Qed.

Lemma blocked_categories_of_text : forall candidate rating level,
  In rating (safety_ratings candidate) ->
  probability rating = ProbabilityText level ->
  level = lit "HIGH" \/ level = lit "MEDIUM" ->
  In (category rating ++ lit ": " ++ level) (blocked_categories candidate).
Proof.
  intros candidate rating level Hin Hlevel Hflag.
  unfold blocked_categories. apply in_flat_map. exists rating. split; [exact Hin|].
  rewrite Hlevel.
  assert (Htest : str_eqb level (lit "HIGH") || str_eqb level (lit "MEDIUM") = true).
  { destruct Hflag as [->| ->]; [now rewrite str_eqb_refl|].
    rewrite str_eqb_refl. apply orb_true_r. }
  rewrite Htest. now left.
Qed.

Lemma blocked_categories_of_levels : forall candidate,
  (forall rating, In rating (safety_ratings candidate) ->
                  exists level, probability rating = ProbabilityLevel level) ->
  blocked_categories candidate = [].
Proof.
  intros candidate. unfold blocked_categories.
  induction (safety_ratings candidate) as [|rating ratings IH]; intros Hlevels;
    [reflexivity|].
  cbn [flat_map]. destruct (Hlevels rating (or_introl eq_refl)) as (level & ->).
  apply IH. intros other Hin. apply Hlevels. now right.
Qed.

(** ** The shape of a successful result *)

Lemma from_response_success :
  forall response topic length_minutes additional_context hard_word_cap max_output_tokens
         calls script count metadata calls',
  generate_script_from_response response topic length_minutes additional_context
                                hard_word_cap max_output_tokens calls
  = (inr (Success script count metadata), calls') ->
  exists raw_script,
    script = processed_script (_post_process_script raw_script length_minutes hard_word_cap)
    /\ count = word_count script.
Proof.
  intros response topic minutes context cap tokens calls script count metadata calls'.
  unfold generate_script_from_response.
  destruct (match candidates response with
            | candidate :: _ => blocked_categories candidate
            | [] => []
            end); [|discriminate].
  destruct (_extract_text_from_response response) as [script_text|]; [|discriminate].
  destruct (negb (truthy_str script_text)); [discriminate|].
  unfold bind.
  destruct (continue_script script_text cap tokens
              (_extract_expected_item_count topic context) calls) as [[e|accumulated] calls1];
    [discriminate|].
  unfold ret. intros H. injection H as <- <- _ _.
  exists (_clean_response_text accumulated). split; reflexivity.
Qed.

Lemma generation_attempt_success :
  forall topic length_minutes tone target_audience content_type creator_style
         additional_context requested_word_cap force_hinglish_ascii
         calls script count metadata calls',
  generation_attempt topic length_minutes tone target_audience content_type creator_style
                     additional_context requested_word_cap force_hinglish_ascii calls
  = (inr (Success script count metadata), calls') ->
  exists raw_script,
    script = processed_script
               (_post_process_script raw_script length_minutes
                  (resolve_hard_word_cap length_minutes requested_word_cap))
    /\ count = word_count script.
Proof.
  intros topic minutes tone audience ctype style context requested force
         calls script count metadata calls'.
  unfold generation_attempt, bind, generate_content.
  set (cap := resolve_hard_word_cap minutes requested).
  set (tokens := max_output_tokens_for cap).
  match goal with |- context [model calls ?c] => set (call1 := c) end.
  destruct (model calls call1) as [e|response]; [discriminate|].
  destruct (candidates response) as [|candidate others].
  - unfold print. destruct (stdout_write fallback_notice); [discriminate|].
    unfold ret at 1. cbv beta iota.
    match goal with |- context [model ?cs ?c] => destruct (model cs c) as [e|fallback] end;
      [discriminate|].
    destruct (candidates fallback); [discriminate|].
    unfold eval. destruct (text fallback) as [e|fallback_text]; [discriminate|].
    unfold ret at 1. cbv beta iota.
    destruct (negb (truthy_str fallback_text)); [discriminate|].
    destruct (generate_script_from_response fallback topic minutes context cap tokens _)
      as [[e|result] calls2] eqn:Hfrom; [discriminate|].
    intros H. injection H as -> ->.
    exact (from_response_success _ _ _ _ _ _ _ _ _ _ _ Hfrom).
  - destruct (generate_script_from_response response topic minutes context cap tokens _)
      as [[e|result] calls2] eqn:Hfrom; [discriminate|].
    intros H. injection H as -> ->.
    exact (from_response_success _ _ _ _ _ _ _ _ _ _ _ Hfrom).
Qed.

Lemma generate_script_success :
  forall topic length_minutes tone target_audience content_type creator_style
         additional_context requested_word_cap force_hinglish_ascii
         calls script count metadata calls',
  generate_script topic length_minutes tone target_audience content_type creator_style
                  additional_context requested_word_cap force_hinglish_ascii calls
  = (inr (Success script count metadata), calls') ->
  exists raw_script,
    script = processed_script
               (_post_process_script raw_script length_minutes
                  (resolve_hard_word_cap length_minutes requested_word_cap))
    /\ count = word_count script.
Proof.
  intros topic minutes tone audience ctype style context requested force
         calls script count metadata calls'.
  rewrite generate_script_unfold.
  destruct (stdout_write (request_line topic minutes tone audience)); [discriminate|].
  destruct (generation_attempt topic minutes tone audience ctype style context requested
                               force calls) as [[e|result] calls1] eqn:Hattempt.
  - destruct (stdout_write (failure_line e)); discriminate.
  - intros H. injection H as -> ->.
    exact (generation_attempt_success _ _ _ _ _ _ _ _ _ _ _ _ _ _ Hattempt).
Qed.

(** ** The cleaning step *)

Lemma re_sub_from_skip : forall r repl s skip,
  re_sub_from r repl s skip = re_sub r repl (skipn skip s).
Proof.
  intros r repl. induction s as [|c s IH]; intros skip.
  - now destruct skip.
  - destruct skip as [|k]; [reflexivity|]. cbn [re_sub_from skipn]. apply IH.
Qed.

Lemma re_sub_cons : forall r repl c s,
  re_sub r repl (c :: s) =
  match re_match r (c :: s) with
  | Some (S n) => repl ++ re_sub r repl (skipn n s)
  | _ => c :: re_sub r repl s
  end.
Proof.
  intros r repl c s. unfold re_sub at 1. cbn [re_sub_from].
  destruct (re_match r (c :: s)) as [[|n]|]; try reflexivity.
  now rewrite re_sub_from_skip.
Qed.

Lemma in_skipn : forall (c : char) k s, In c (skipn k s) -> In c s.
Proof.
  intros c k s H. rewrite <- (firstn_skipn k s). apply in_or_app. now right.
Qed.

Lemma in_re_sub : forall r repl c s,
  In c (re_sub r repl s) -> In c s \/ In c repl.
Proof.
  intros r repl c s.
  remember (length s) as n eqn:Hn. revert s Hn.
  induction n as [n IH] using lt_wf_ind. intros s Hn Hin.
  destruct s as [|a s]; [contradiction|].
  rewrite re_sub_cons in Hin.
  destruct (re_match r (a :: s)) as [[|k]|].
  - destruct Hin as [<-|Hin]; [left; now left|].
    destruct (IH (length s) ltac:(simpl in Hn; lia) s eq_refl Hin); [left; now right|now right].
  - apply in_app_or in Hin as [Hin|Hin]; [now right|].
    destruct (IH (length (skipn k s))
                ltac:(simpl in Hn; rewrite length_skipn; lia) _ eq_refl Hin) as [H|H];
      [left; right; now apply (in_skipn _ k)|now right].
  - destruct Hin as [<-|Hin]; [left; now left|].
    destruct (IH (length s) ltac:(simpl in Hn; lia) s eq_refl Hin); [left; now right|now right].
Qed.

Lemma re_sub_class : forall p s,
  re_sub [Class p] [] s = filter (fun c => negb (p c)) s.
Proof.
  intros p. induction s as [|c s IH]; [reflexivity|].
  rewrite re_sub_cons. cbn [re_match filter].
  destruct (p c); cbn [option_map negb skipn app]; now rewrite IH.
Qed.

Lemma star_match_all : forall p s,
  star_match p (re_match []) s = Some (run_length p s).
Proof.
  intros p. induction s as [|c s IH]; [reflexivity|].
  cbn [star_match run_length]. rewrite IH. now destruct (p c).
Qed.

Lemma filter_skip_run : forall p s,
  filter (fun c => negb (p c)) (skipn (run_length p s) s) = filter (fun c => negb (p c)) s.
Proof.
  intros p. induction s as [|c s IH]; [reflexivity|].
  cbn [run_length]. destruct (p c) eqn:Hc; [|reflexivity].
  cbn [skipn filter]. now rewrite Hc, IH.
Qed.

Lemma re_sub_plus_empty : forall p s,
  re_sub [Class p; Star p] [] s = filter (fun c => negb (p c)) s.
Proof.
  intros p s.
  remember (length s) as n eqn:Hn. revert s Hn.
  induction n as [n IH] using lt_wf_ind. intros s Hn.
  destruct s as [|c s]; [reflexivity|].
  rewrite re_sub_cons. cbn [re_match filter]. rewrite star_match_all.
  destruct (p c) eqn:Hc; cbn [option_map negb app].
  - rewrite (IH (length (skipn (run_length p s) s))) by
      (try reflexivity; simpl in Hn; rewrite length_skipn; lia).
    apply filter_skip_run.
  - f_equal. apply (IH (length s)); [simpl in Hn; lia|reflexivity].
Qed.

Lemma squeeze_skip_run : forall c s,
  is_blank c = true ->
  squeeze_blanks (c :: s) = SPACE :: squeeze_blanks (skipn (run_length is_blank s) s).
Proof.
  intros c s. revert c. induction s as [|d s IH]; intros c Hc.
  - simpl. now rewrite Hc.
  - cbn [run_length].
    change (squeeze_blanks (c :: d :: s))
      with (if is_blank c
            then if is_blank d then squeeze_blanks (d :: s) else SPACE :: squeeze_blanks (d :: s)
            else c :: squeeze_blanks (d :: s)).
    rewrite Hc. destruct (is_blank d) eqn:Hd; [|reflexivity].
    cbn [skipn]. now apply IH.
Qed.

Lemma re_sub_blanks : forall s,
  re_sub [Class is_blank; Star is_blank] [SPACE] s = squeeze_blanks s.
Proof.
  intros s.
  remember (length s) as n eqn:Hn. revert s Hn.
  induction n as [n IH] using lt_wf_ind. intros s Hn.
  destruct s as [|c s]; [reflexivity|].
  rewrite re_sub_cons. cbn [re_match]. rewrite star_match_all.
  destruct (is_blank c) eqn:Hc; cbn [option_map app].
  - rewrite squeeze_skip_run by assumption. f_equal.
    apply (IH (length (skipn (run_length is_blank s) s)));
      [simpl in Hn; rewrite length_skipn; lia|reflexivity].
  - cbn [squeeze_blanks]. rewrite Hc. f_equal.
    apply (IH (length s)); [simpl in Hn; lia|reflexivity].
Qed.

Lemma lf_is_space : is_space LF = true.
Proof. reflexivity. Qed.

Lemma char_is_lf_space : forall c, char_is LF c = true -> is_space c = true.
Proof. intros c H. apply N.eqb_eq in H. now subst. Qed.

(** [\s*\n] at the head of [s]. *)
Lemma star_newline : forall s,
  star_match is_space (re_match [Class (char_is LF)]) s =
  if (1 <=? ws_lf_count s)%nat then Some (last_lf_end s) else None.
Proof.
  induction s as [|c s IH]; [reflexivity|].
  cbn [star_match ws_lf_count last_lf_end]. rewrite IH.
  destruct (is_space c) eqn:Hc.
  - destruct (1 <=? ws_lf_count s)%nat eqn:Hcount.
    + destruct (c =? LF)%N; [reflexivity|]. now rewrite Hcount.
    + cbn [re_match]. unfold char_is.
      destruct (c =? LF)%N; [reflexivity|]. now rewrite Hcount.
  - cbn [re_match]. unfold char_is.
    destruct (N.eqb_spec c LF) as [->|_]; [discriminate Hc|reflexivity].
Qed.

(** [\s*\n\s*\n] at the head of [s]. *)
Lemma star_two_newlines : forall s,
  star_match is_space
    (re_match [Class (char_is LF); Star is_space; Class (char_is LF)]) s =
  if (2 <=? ws_lf_count s)%nat then Some (last_lf_end s) else None.
Proof.
  induction s as [|c s IH]; [reflexivity|].
  cbn [star_match ws_lf_count last_lf_end]. rewrite IH.
  destruct (is_space c) eqn:Hc.
  - destruct (2 <=? ws_lf_count s)%nat eqn:Hcount.
    + apply Nat.leb_le in Hcount.
      assert (H1 : (1 <=? ws_lf_count s)%nat = true) by (apply Nat.leb_le; lia).
      rewrite H1. destruct (c =? LF)%N; [|now apply Nat.leb_le in Hcount as ->].
      assert (H2 : (2 <=? S (ws_lf_count s))%nat = true) by (apply Nat.leb_le; lia).
      now rewrite H2.
    + cbn [re_match]. unfold char_is at 1.
      destruct (c =? LF)%N; [|now rewrite Hcount].
      rewrite star_newline.
      change (2 <=? S (ws_lf_count s))%nat with (1 <=? ws_lf_count s)%nat.
      now destruct (1 <=? ws_lf_count s)%nat.
  - cbn [re_match]. unfold char_is at 1.
    destruct (N.eqb_spec c LF) as [->|_]; [discriminate Hc|reflexivity].
Qed.

Lemma blank_lines_match : forall c s,
  re_match blank_lines_regex (c :: s) =
  if (c =? LF)%N && (2 <=? ws_lf_count s)%nat then Some (S (last_lf_end s)) else None.
Proof.
  intros c s. unfold blank_lines_regex. cbn [re_match]. unfold char_is at 1.
  destruct (c =? LF)%N; [|reflexivity].
  rewrite star_two_newlines. now destruct (2 <=? ws_lf_count s)%nat.
Qed.

Lemma blank_lines_sub_cons : forall c s,
  re_sub blank_lines_regex [LF; LF] (c :: s) =
  if (c =? LF)%N && (2 <=? ws_lf_count s)%nat
  then LF :: LF :: re_sub blank_lines_regex [LF; LF] (skipn (last_lf_end s) s)
  else c :: re_sub blank_lines_regex [LF; LF] s.
Proof.
  intros c s. rewrite re_sub_cons, blank_lines_match.
  now destruct ((c =? LF)%N && (2 <=? ws_lf_count s)%nat).
Qed.

Lemma count_after_last_lf : forall s,
  (1 <= ws_lf_count s)%nat -> ws_lf_count (skipn (last_lf_end s) s) = O.
Proof.
  induction s as [|c s IH]; intros H; [simpl in H; lia|].
  cbn [ws_lf_count last_lf_end] in *.
  destruct (is_space c) eqn:Hc; [|lia].
  destruct (1 <=? ws_lf_count s)%nat eqn:Hcount.
  - cbn [skipn]. apply IH. now apply Nat.leb_le.
  - apply Nat.leb_gt in Hcount.
    destruct (c =? LF)%N; [|lia].
    cbn [skipn]. lia.
Qed.

Lemma blank_lines_count : forall s,
  ws_lf_count (re_sub blank_lines_regex [LF; LF] s) = Nat.min 2 (ws_lf_count s).
Proof.
  intros s.
  remember (length s) as n eqn:Hn. revert s Hn.
  induction n as [n IH] using lt_wf_ind. intros s Hn.
  destruct s as [|c s]; [reflexivity|].
  rewrite blank_lines_sub_cons.
  destruct (N.eqb_spec c LF) as [->|Hc]; cbn [andb].
  - destruct (2 <=? ws_lf_count s)%nat eqn:Hcount.
    + apply Nat.leb_le in Hcount.
      cbn [ws_lf_count]. rewrite lf_is_space, N.eqb_refl.
      rewrite (IH (length (skipn (last_lf_end s) s)))
        by (try reflexivity; simpl in Hn; rewrite length_skipn; lia).
      rewrite count_after_last_lf by lia. lia.
    + apply Nat.leb_gt in Hcount.
      cbn [ws_lf_count]. rewrite lf_is_space, N.eqb_refl.
      rewrite (IH (length s)) by (try reflexivity; simpl in Hn; lia). lia.
  - cbn [ws_lf_count]. destruct (is_space c); [|reflexivity].
    apply N.eqb_neq in Hc. rewrite Hc.
    apply (IH (length s)); [simpl in Hn; lia|reflexivity].
Qed.

Lemma blank_lines_short : forall s,
  short_blank_runs (re_sub blank_lines_regex [LF; LF] s) = true.
Proof.
  intros s.
  remember (length s) as n eqn:Hn. revert s Hn.
  induction n as [n IH] using lt_wf_ind. intros s Hn.
  destruct s as [|c s]; [reflexivity|].
  rewrite blank_lines_sub_cons.
  destruct ((c =? LF)%N && (2 <=? ws_lf_count s)%nat) eqn:Hmatch.
  - apply andb_true_iff in Hmatch as [_ Hcount]. apply Nat.leb_le in Hcount.
    cbn [short_blank_runs ws_lf_count]. rewrite lf_is_space, N.eqb_refl.
    rewrite blank_lines_count, count_after_last_lf by lia.
    cbn [Nat.min Nat.leb andb negb].
    apply (IH (length (skipn (last_lf_end s) s)));
      [simpl in Hn; rewrite length_skipn; lia|reflexivity].
  - cbn [short_blank_runs]. rewrite blank_lines_count.
    assert (Hmin : (2 <=? Nat.min 2 (ws_lf_count s))%nat = (2 <=? ws_lf_count s)%nat).
    { destruct (2 <=? ws_lf_count s)%nat eqn:H.
      - apply Nat.leb_le in H. apply Nat.leb_le. lia.
      - apply Nat.leb_gt in H. apply Nat.leb_gt. lia. }
    rewrite Hmin, Hmatch. cbn [negb andb].
    apply (IH (length s)); [simpl in Hn; lia|reflexivity].
Qed.

Lemma blank_lines_fixed : forall s,
  short_blank_runs s = true -> re_sub blank_lines_regex [LF; LF] s = s.
Proof.
  induction s as [|c s IH]; intros H; [reflexivity|].
  cbn [short_blank_runs] in H. apply andb_true_iff in H as [Hhead Hrest].
  rewrite blank_lines_sub_cons. apply negb_true_iff in Hhead. rewrite Hhead.
  now rewrite IH.
Qed.

Lemma blank_is_space : forall c, is_blank c = true -> is_space c = true /\ (c =? LF)%N = false.
Proof.
  intros c H. unfold is_blank in H. apply orb_true_iff in H.
  destruct H as [H|H]; apply N.eqb_eq in H; subst; now split.
Qed.

Lemma squeeze_cons_cons : forall c d s,
  squeeze_blanks (c :: d :: s) =
  if is_blank c
  then if is_blank d then squeeze_blanks (d :: s) else SPACE :: squeeze_blanks (d :: s)
  else c :: squeeze_blanks (d :: s).
Proof. reflexivity. Qed.

Lemma ws_lf_count_cons : forall c s,
  ws_lf_count (c :: s) =
  if is_space c then (if (c =? LF)%N then S (ws_lf_count s) else ws_lf_count s) else O.
Proof. reflexivity. Qed.

Lemma squeeze_count : forall s, ws_lf_count (squeeze_blanks s) = ws_lf_count s.
Proof.
  induction s as [|c s IH]; [reflexivity|].
  destruct s as [|d s'].
  - cbn [squeeze_blanks]. destruct (is_blank c) eqn:Hc; [|reflexivity].
    destruct (blank_is_space c Hc) as [Hs Hl]. cbn [ws_lf_count]. now rewrite Hs, Hl.
  - rewrite squeeze_cons_cons.
    destruct (is_blank c) eqn:Hc.
    + destruct (blank_is_space c Hc) as [Hs Hl].
      rewrite (ws_lf_count_cons c (d :: s')), Hs, Hl.
      destruct (is_blank d); [exact IH|].
      change (ws_lf_count (SPACE :: squeeze_blanks (d :: s')))
        with (ws_lf_count (squeeze_blanks (d :: s'))).
      exact IH.
    + cbn [ws_lf_count]. now rewrite IH.
Qed.

Lemma squeeze_short : forall s,
  short_blank_runs s = true -> short_blank_runs (squeeze_blanks s) = true.
Proof.
  induction s as [|c s IH]; intros H; [reflexivity|].
  cbn [short_blank_runs] in H. apply andb_true_iff in H as [Hhead Hrest].
  specialize (IH Hrest).
  destruct s as [|d s'].
  - cbn [squeeze_blanks]. destruct (is_blank c); [reflexivity|].
    cbn [short_blank_runs]. now rewrite Hhead.
  - rewrite squeeze_cons_cons. destruct (is_blank c) eqn:Hc.
    + destruct (is_blank d); [exact IH|].
      cbn [short_blank_runs]. now rewrite IH.
    + cbn [short_blank_runs]. now rewrite squeeze_count, Hhead, IH.
Qed.

Lemma squeeze_nonblank : forall d s,
  is_blank d = false -> squeeze_blanks (d :: s) = d :: squeeze_blanks s.
Proof. intros d s Hd. cbn [squeeze_blanks]. now rewrite Hd. Qed.

Lemma squeeze_single_spaced : forall s, single_spaced (squeeze_blanks s) = true.
Proof.
  induction s as [|c s IH]; [reflexivity|].
  destruct s as [|d s'].
  - cbn [squeeze_blanks]. destruct (is_blank c) eqn:Hc; [reflexivity|].
    cbn [single_spaced]. now rewrite Hc.
  - rewrite squeeze_cons_cons. destruct (is_blank c) eqn:Hc.
    + destruct (is_blank d) eqn:Hd; [exact IH|].
      cbn [single_spaced]. rewrite IH.
      change (is_blank SPACE) with true. cbv iota. rewrite N.eqb_refl.
      rewrite squeeze_nonblank by assumption. now rewrite Hd.
    + cbn [single_spaced]. now rewrite Hc, IH.
Qed.

Lemma single_spaced_fixed : forall s, single_spaced s = true -> squeeze_blanks s = s.
Proof.
  induction s as [|c s IH]; intros H; [reflexivity|].
  cbn [single_spaced] in H. apply andb_true_iff in H as [Hhead Hrest].
  specialize (IH Hrest).
  destruct s as [|d s'].
  - cbn [squeeze_blanks]. destruct (is_blank c); [|reflexivity].
    apply andb_true_iff in Hhead as [Hsp _]. apply N.eqb_eq in Hsp. now subst.
  - rewrite squeeze_cons_cons. destruct (is_blank c); [|now rewrite IH].
    apply andb_true_iff in Hhead as [Hsp Hd]. apply N.eqb_eq in Hsp.
    apply negb_true_iff in Hd. rewrite Hd, IH. now subst.
Qed.

Lemma replace_absent : forall a old new s,
  ~ In a s -> replace (a :: old) new s = s.
Proof.
  intros a old new. unfold replace. induction s as [|c s IH]; intros Hnot; [reflexivity|].
  cbn [replace_from startswith].
  destruct (N.eqb_spec c a) as [->|_]; [exfalso; apply Hnot; now left|].
  cbn [andb]. rewrite IH; [reflexivity|]. intros Hin. apply Hnot. now right.
Qed.

Lemma filter_all : forall (p : char -> bool) s,
  (forall c, In c s -> p c = true) -> filter p s = s.
Proof.
  intros p. induction s as [|c s IH]; intros H; [reflexivity|].
  cbn [filter]. rewrite (H c (or_introl eq_refl)), IH; [reflexivity|].
  intros d Hd. apply H. now right.
Qed.

Lemma startswith_nil : forall s, startswith s [] = true.
Proof. now destruct s. Qed.

Lemma replace_cr_removes : forall s, ~ In CR (replace [CR] [LF] s).
Proof.
  unfold replace. induction s as [|c s IH]; [intros []|].
  cbn [replace_from startswith length Nat.sub]. rewrite startswith_nil.
  destruct (N.eqb_spec c CR) as [->|Hc]; cbn [andb app].
  - intros [H|H]; [discriminate H|now apply IH].
  - intros [H|H]; [congruence|now apply IH].
Qed.

Lemma cleaned_before_line_endings : forall text,
  let filtered :=
    filter (fun c => negb (is_replacement c))
      (filter (fun c => negb (is_zero_width c))
         (filter (fun c => negb (is_surrogate c)) text)) in
  let squeezed := squeeze_blanks (re_sub blank_lines_regex [LF; LF] filtered) in
  _clean_response_text text = replace [CR] [LF] (replace [CR; LF] [LF] squeezed)
  /\ squeeze_blanks (re_sub blank_lines_regex [LF; LF] squeezed) = squeezed
  /\ forall c, In c squeezed -> kept_char c = true /\ (In c text \/ c = SPACE \/ c = LF).
Proof.
  intros text filtered squeezed. split; [|split].
  - unfold _clean_response_text, utf8_ignore_roundtrip.
    now rewrite re_sub_class, re_sub_plus_empty, re_sub_blanks.
  - unfold squeezed.
    rewrite blank_lines_fixed by apply squeeze_short, blank_lines_short.
    apply single_spaced_fixed, squeeze_single_spaced.
  - intros c Hin. unfold squeezed in Hin. rewrite <- re_sub_blanks in Hin.
    apply in_re_sub in Hin as [Hin|[<-|[]]]; [|now split; [reflexivity|right; left]].
    apply in_re_sub in Hin as [Hin|[<-|[<-|[]]]];
      [|now split; [reflexivity|right; right]|now split; [reflexivity|right; right]].
    unfold filtered in Hin.
    apply filter_In in Hin as [Hin Hrepl].
    apply filter_In in Hin as [Hin Hzero].
    apply filter_In in Hin as [Hin Hsurr].
    split; [|now left]. unfold kept_char. now rewrite Hsurr, Hzero, Hrepl.
Qed.

(** On a text without a carriage return, cleaning twice is cleaning once:
    the steps before the line endings leave no character to drop, no run of
    three newlines within whitespace and no run of blanks, and the last step
    has nothing to replace. *)
Lemma cleaning_fixed_without_carriage_return : forall text,
  ~ In CR text ->
  _clean_response_text (_clean_response_text text) = _clean_response_text text.
Proof.
  intros text Hcr.
  destruct (cleaned_before_line_endings text) as (Hclean & Hfixed & Hchars).
  cbv zeta in Hclean, Hfixed, Hchars.
  set (squeezed := squeeze_blanks _) in Hclean, Hfixed, Hchars.
  assert (Hnocr : ~ In CR squeezed).
  { intros Hin. destruct (Hchars CR Hin) as [_ [H|[H|H]]];
      [contradiction|discriminate H|discriminate H]. }
  assert (Hsame : _clean_response_text text = squeezed).
  { rewrite Hclean. now rewrite !replace_absent by
      (try assumption; rewrite replace_absent by assumption; assumption). }
  rewrite Hsame.
  unfold _clean_response_text, utf8_ignore_roundtrip.
  rewrite re_sub_class, re_sub_plus_empty, re_sub_blanks.
  assert (Hkept : forall c, In c squeezed -> kept_char c = true)
    by (intros c Hin; apply (Hchars c Hin)).
  rewrite (filter_all (fun c => negb (is_surrogate c)) squeezed).
  2:{ intros c Hin. specialize (Hkept c Hin). unfold kept_char in Hkept.
      now destruct (is_surrogate c). }
  rewrite (filter_all (fun c => negb (is_zero_width c)) squeezed).
  2:{ intros c Hin. specialize (Hkept c Hin). unfold kept_char in Hkept.
      destruct (is_zero_width c); [|reflexivity]. now rewrite andb_false_r in Hkept. }
  rewrite (filter_all (fun c => negb (is_replacement c)) squeezed).
  2:{ intros c Hin. specialize (Hkept c Hin). unfold kept_char in Hkept.
      destruct (is_replacement c); [|reflexivity]. now rewrite andb_false_r in Hkept. }
  rewrite Hfixed.
  rewrite (replace_absent CR [LF] [LF] squeezed Hnocr).
  apply replace_absent, Hnocr.
Qed.

Lemma cleaned_without_carriage_return : forall text, ~ In CR (_clean_response_text text).
Proof. intros text. unfold _clean_response_text. apply replace_cr_removes. Qed.

(** A cleaned text holds no carriage return, so that a third cleaning changes
    nothing. *)
Theorem cleaning_stable_from_second : forall text,
  _clean_response_text (_clean_response_text (_clean_response_text text))
  = _clean_response_text (_clean_response_text text).
Proof.
  intros text. apply cleaning_fixed_without_carriage_return,
                 cleaned_without_carriage_return.
Qed.

(** [_clean_response_text] is idempotent on the texts that hold no carriage
    return: a second cleaning changes nothing. *)
Theorem cleaning_idempotent_without_carriage_return : forall text,
  ~ In CR text ->
  _clean_response_text (_clean_response_text text) = _clean_response_text text.
Proof.
  intros cleaned Hcr. now apply cleaning_fixed_without_carriage_return.
Qed.

(** ** The claims on the post-processing *)

(** C10. [_truncate_to_words_sentence_aware] returns a text of at most
    [max_words] words as it is, newlines included. A longer text is returned
    as its first [k] words joined by single spaces, where [k] is the cut point
    among the words [words[:max_words]]: all of them, or those up to the last
    sentence boundary. So [k] is at most [max_words] when that is not
    negative, the words of the result are these [k] words, and the result
    holds no newline: every whitespace character in it is one space between
    two words. *)
Theorem truncate_unchanged_or_rejoined : forall text max_words,
  let words := split text in
  let kept := slice_to words max_words in
  let result := _truncate_to_words_sentence_aware text max_words in
  (len words <= max_words -> result = text)
  /\ (max_words < len words ->
      exists k,
        cut_point kept k
        /\ (k <= length kept)%nat
        /\ (0 <= max_words -> Z.of_nat k <= max_words)
        /\ result = join [SPACE] (firstn k words)
        /\ split result = firstn k words
        /\ ~ In LF result
        /\ forall c, In c result -> is_space c = true -> c = SPACE).
Proof.
  intros text m words kept result. split; [apply truncate_unchanged|].
  intros Hgt. destruct (truncate_at_cut_point text m Hgt) as (k & Hcut & Heq).
  fold words in Hcut, Heq. fold kept in Hcut, Heq. fold result in Heq.
  pose proof (cut_point_bound _ _ Hcut) as Hk.
  destruct (slice_to_firstn words m) as (n & Hslice & Hn). fold kept in Hslice.
  assert (Hlen : (length kept <= n)%nat) by (rewrite Hslice, length_firstn; lia).
  assert (Hfirst : firstn k kept = firstn k words).
  { rewrite Hslice, firstn_firstn. f_equal. lia. }
  assert (Hwords : Forall is_word (firstn k words))
    by apply Forall_firstn_words, split_words.
  rewrite Hfirst in Heq.
  exists k. split; [exact Hcut|]. split; [exact Hk|]. split.
  { intros Hm. specialize (Hn Hm). lia. }
  split; [exact Heq|]. rewrite Heq. split; [now apply split_join|]. split.
  - intros Hin. apply (join_words_spaces _ _ Hwords) in Hin; [discriminate|reflexivity].
  - intros c. apply join_words_spaces, Hwords.
Qed.

(** C5. [_ensure_sentence_boundary] returns the text without its trailing
    whitespace when that ends with a full stop, an exclamation mark, a
    question mark or a danda, and with one full stop added, nothing else,
    when it does not; either way the result ends with one of the four marks,
    and so does the script of every successful result of [generate_script]. *)
Theorem script_ends_with_terminator :
  (forall text,
     _ensure_sentence_boundary text
     = (if ends_with is_terminator (rstrip text) then rstrip text
        else rstrip text ++ lit ".")
     /\ ends_with is_terminator (_ensure_sentence_boundary text) = true)
  /\ (forall topic length_minutes tone target_audience content_type creator_style
             additional_context requested_word_cap force_hinglish_ascii
             calls script count metadata calls',
        generate_script topic length_minutes tone target_audience content_type creator_style
                        additional_context requested_word_cap force_hinglish_ascii calls
        = (inr (Success script count metadata), calls') ->
        ends_with is_terminator script = true).
Proof.
  split.
  - intros text. split; [apply ensure_sentence_boundary_eq|apply ensure_ends_with_terminator].
  - intros topic minutes tone audience ctype style context requested force
           calls script count metadata calls' Hrun.
    destruct (generate_script_success _ _ _ _ _ _ _ _ _ _ _ _ _ _ Hrun) as (raw & -> & _).
    apply ensure_ends_with_terminator.
Qed.

(** C1. Under a word cap of at least one word (a resolved cap is at least
    150), the script that [_post_process_script] makes of any raw text has at
    most as many words as the cap; the words of the truncated text are the
    first words of the text before the truncation, whole; and the final script
    has the words of the truncated text, the last one possibly with the added
    full stop. The script of every successful result of [generate_script] has
    at most as many words as the resolved word cap, and the reported word
    count is its word count. *)
Theorem final_script_within_cap :
  (forall raw_script target_minutes hard_word_cap,
     1 <= hard_word_cap ->
     let before := format_sections raw_script in
     let truncated := _truncate_to_words_sentence_aware before hard_word_cap in
     let final := processed_script
                    (_post_process_script raw_script target_minutes hard_word_cap) in
     word_count final <= hard_word_cap
     /\ (exists k, split truncated = firstn k (split before))
     /\ final_period_variant (split final) (split truncated))
  /\ (forall topic length_minutes tone target_audience content_type creator_style
             additional_context requested_word_cap force_hinglish_ascii
             calls script count metadata calls',
        generate_script topic length_minutes tone target_audience content_type creator_style
                        additional_context requested_word_cap force_hinglish_ascii calls
        = (inr (Success script count metadata), calls') ->
        word_count script <= resolve_hard_word_cap length_minutes requested_word_cap
        /\ count = word_count script).
Proof.
  split.
  - intros raw target cap Hcap before truncated final. split; [|split].
    + now apply post_process_within_cap.
    + destruct (truncate_words before cap) as (k & Hk & _). now exists k.
    + apply ensure_words.
  - intros topic minutes tone audience ctype style context requested force
           calls script count metadata calls' Hrun.
    destruct (generate_script_success _ _ _ _ _ _ _ _ _ _ _ _ _ _ Hrun) as (raw & -> & ->).
    split; [|reflexivity].
    apply post_process_within_cap.
    pose proof (resolve_hard_word_cap_bounds minutes requested). lia.
Qed.

(** ** The export of the style profiles *)

Lemma update_creator_keeps_transcripts : forall transcript creator_analysis,
  Forall (fun entry => transcripts (snd entry) <> []) creator_analysis ->
  Forall (fun entry => transcripts (snd entry) <> [])
         (update_creator (uploader transcript) (analyze_transcript transcript)
                         creator_analysis)
  /\ update_creator (uploader transcript) (analyze_transcript transcript) creator_analysis
     <> [].
Proof.
  intros transcript creator_analysis.
  assert (Hnew : forall analysis,
            transcripts (analyze_transcript transcript analysis) <> []).
  { intros analysis. cbn [analyze_transcript transcripts]. now destruct (transcripts analysis). }
  induction creator_analysis as [|[name analysis] others IH]; intros Hall.
  - split; [|discriminate]. constructor; [apply Hnew|constructor].
  - inversion Hall as [|? ? Hhead Hrest]; subst. cbn [update_creator].
    destruct (str_eqb name (uploader transcript)).
    + split; [|discriminate]. constructor; [apply Hnew|exact Hrest].
    + split; [|discriminate]. constructor; [exact Hhead|apply (IH Hrest)].
Qed.

Lemma analyzed_creators_have_transcripts : forall transcripts0 creator_analysis,
  Forall (fun entry => transcripts (snd entry) <> []) creator_analysis ->
  (transcripts0 <> [] \/ creator_analysis <> []) ->
  let analyzed :=
    fold_left
      (fun creator_analysis transcript =>
         update_creator (uploader transcript) (analyze_transcript transcript)
                        creator_analysis)
      transcripts0 creator_analysis in
  Forall (fun entry => transcripts (snd entry) <> []) analyzed /\ analyzed <> [].
Proof.
  induction transcripts0 as [|transcript rest IH]; intros creator_analysis Hall Hne.
  - cbn. split; [exact Hall|]. destruct Hne as [Hne|Hne]; [congruence|exact Hne].
  - cbn [fold_left].
    destruct (update_creator_keeps_transcripts transcript creator_analysis Hall)
      as [Hall' Hne'].
    apply IH; [exact Hall'|now right].
Qed.

Lemma analysis_not_serializable : forall analysis,
  transcripts analysis <> [] ->
  json_encode (pyval_of_analysis (normalize_analysis analysis)) = inl not_serializable.
Proof.
  intros analysis Hne. unfold pyval_of_analysis, normalize_analysis.
  cbn [transcripts]. destruct (transcripts analysis) as [|t ts]; [congruence|].
  reflexivity.
Qed.

(** The profiles of a non-empty collection of transcripts cannot be encoded:
    [save_training_context] never returns on them. When the file can be
    opened, it raises the [TypeError] of the encoder, or before that the
    [UnicodeEncodeError] of the file on the name of the first creator, and
    leaves the beginning of a document in the file; [load_training_context]
    then prints the error and returns [False], and loads nothing. *)
Lemma save_raises_on_analyzed_styles :
  forall transcripts0 self filepath fs,
  transcripts0 <> [] ->
  creator_styles self = _analyze_creator_styles transcripts0 ->
  match open_for_writing filepath with
  | Some e => save_training_context self filepath fs = (inl e, fs)
  | None =>
      (exists e,
         save_training_context self filepath fs
         = (inl e, write_file fs filepath TruncatedDocument)
         /\ (e = not_serializable \/ exists creator, e = unencodable creator))
      /\ forall loader,
           load_training_context loader filepath (write_file fs filepath TruncatedDocument)
           = match stdout_write
                     (load_error_line (unreadable filepath (Some TruncatedDocument))) with
             | Some e' => (inl e', loader)
             | None => (inr false, loader)
             end
  end.
Proof.
  intros transcripts0 self filepath fs Hne Hstyles.
  unfold save_training_context.
  destruct (open_for_writing filepath) as [e|]; [reflexivity|]. split.
  - rewrite Hstyles. unfold _analyze_creator_styles.
    destruct (analyzed_creators_have_transcripts transcripts0 [] (Forall_nil _)
                (or_introl Hne)) as [Hall Hnonempty].
    destruct (fold_left _ transcripts0 []) as [|[creator analysis] others];
      [congruence|].
    inversion Hall as [|? ? Hhead _]; subst. cbn [snd] in Hhead.
    cbn [List.map fst snd json_encode].
    change (existsb is_surrogate (lit "creator_styles")) with false. cbv iota.
    destruct (existsb is_surrogate creator).
    + eexists. split; [reflexivity|]. right. now exists creator.
    + rewrite (analysis_not_serializable analysis Hhead).
      eexists. split; [reflexivity|]. now left.
  - intros loader. unfold load_training_context, load_attempt, write_file.
    now rewrite str_eqb_refl.
Qed.

(** ** The claims on the orchestration *)

(** C2, as amended. The resolved word cap is the override clamped to
    [200, 5000] when the caller supplies a positive override, and
    min(2000, max(150, 150 * length_minutes)) when it supplies none, zero or
    a negative one. Five minutes without an override resolve to 750 words,
    twenty minutes to 2000. *)
Theorem resolved_word_cap : forall length_minutes requested_word_cap,
  resolve_hard_word_cap length_minutes requested_word_cap
  = match requested_word_cap with
    | Some cap =>
        if 0 <? cap then Z.max 200 (Z.min 5000 cap)
        else Z.min 2000 (Z.max 150 (length_minutes * 150))
    | None => Z.min 2000 (Z.max 150 (length_minutes * 150))
    end
  /\ resolve_hard_word_cap 5 None = 750
  /\ resolve_hard_word_cap 20 None = 2000.
Proof.
  intros minutes requested. split; [|split; reflexivity].
  unfold resolve_hard_word_cap, truthy_int. destruct requested as [cap|]; [|reflexivity].
  destruct (Z.ltb_spec 0 cap) as [Hpos|Hneg]; [|now rewrite andb_false_r].
  destruct (Z.eqb_spec cap 0); [lia|reflexivity].
Qed.

(** C3, as amended. When no enumerated-item count is detected in the topic
    and the additional context, the continuation step is entered if and only
    if the word count of the extracted text is less than [int(0.85 * cap)],
    the floor of 0.85 times the resolved cap: with fewer words
    [generate_script] runs [_attempt_continuation], otherwise it keeps the
    text and calls nothing. *)
Theorem continuation_entered_below_threshold :
  forall script_text length_minutes requested_word_cap topic additional_context
         max_output_tokens,
  _extract_expected_item_count topic additional_context = None ->
  let hard_word_cap := resolve_hard_word_cap length_minutes requested_word_cap in
  let expected_items := _extract_expected_item_count topic additional_context in
  int_of_float (float_of_int hard_word_cap * float_0_85) = 17 * hard_word_cap / 20
  /\ (needs_more script_text hard_word_cap expected_items = true
      <-> word_count script_text < 17 * hard_word_cap / 20)
  /\ (word_count script_text < 17 * hard_word_cap / 20 ->
      forall calls,
        continue_script script_text hard_word_cap max_output_tokens expected_items calls
        = _attempt_continuation script_text hard_word_cap max_output_tokens calls)
  /\ (17 * hard_word_cap / 20 <= word_count script_text ->
      forall calls,
        continue_script script_text hard_word_cap max_output_tokens expected_items calls
        = (inr script_text, calls)).
Proof.
  intros script minutes requested topic context tokens Hnone cap expected.
  subst expected. rewrite Hnone.
  split; [apply threshold_floor, resolve_hard_word_cap_bounds|].
  assert (Hneeds : needs_more script cap None = (word_count script <? 17 * cap / 20)).
  { unfold needs_more. cbn [truthy_opt_int].
    now rewrite threshold_floor by apply resolve_hard_word_cap_bounds. }
  split; [rewrite Hneeds; apply Z.ltb_lt|].
  unfold continue_script. rewrite Hneeds. split; intros H.
  - intros calls. apply Z.ltb_lt in H. rewrite H. unfold bind, ret.
    now destruct (_attempt_continuation script cap tokens calls) as [[e|accumulated] calls1].
  - intros calls. apply Z.ltb_ge in H. now rewrite H.
Qed.




Lemma generation_attempt_initial_raises :
  forall topic length_minutes tone target_audience content_type creator_style
         additional_context requested_word_cap force_hinglish_ascii calls e,
  model calls (initial_call topic length_minutes tone target_audience content_type
                            creator_style additional_context requested_word_cap
                            force_hinglish_ascii) = inl e ->
  generation_attempt topic length_minutes tone target_audience content_type creator_style
                     additional_context requested_word_cap force_hinglish_ascii calls
  = (inl e,
     calls ++ [initial_call topic length_minutes tone target_audience content_type
                            creator_style additional_context requested_word_cap
                            force_hinglish_ascii]).
Proof.
  intros topic minutes tone audience ctype style context requested force calls e Hmodel.
  cbv beta zeta delta [generation_attempt initial_call bind generate_content]
    in Hmodel |- *.
  now rewrite Hmodel.
Qed.



(** C4, as amended. A call of [generate_script] issues the initial call,
    possibly the fallback call, and then at most two continuation calls: the
    generic one and, after it, at most one guided one; it issues no call at
    all when the print of the request line raises. The guided call is
    issued exactly when the continuation step was entered and, on the text
    that the generic continuation returned, the heuristic item count is below
    the detected expected count and more than 60 words remain under the cap
    (cap minus word count greater than 60); its prompt starts with the
    guidance that names the items from the count plus one to the expected
    count and says not to repeat. *)
Theorem continuation_calls_bounded_and_guided :
  (forall topic length_minutes tone target_audience content_type creator_style
          additional_context requested_word_cap force_hinglish_ascii calls,
   exists outcome first added,
     generate_script topic length_minutes tone target_audience content_type creator_style
                     additional_context requested_word_cap force_hinglish_ascii calls
     = (outcome, (calls ++ first) ++ added)
     /\ match stdout_write (request_line topic length_minutes tone target_audience) with
        | Some e => outcome = inl e /\ first = []
        | None => first_calls_shape first
        end
     /\ continuation_calls_shape added)
  /\ (forall script_text hard_word_cap max_output_tokens expected_items calls
             accumulated1 calls1,
      _attempt_continuation script_text hard_word_cap max_output_tokens calls
      = (inr accumulated1, calls1) ->
      let current_items := _count_list_items accumulated1 in
      let remaining := hard_word_cap - word_count accumulated1 in
      exists accumulated added,
        continue_script script_text hard_word_cap max_output_tokens expected_items calls
        = (inr accumulated, calls ++ added)
        /\ continuation_calls_shape added
        /\ ((exists guided, In guided added /\ call_site guided = GuidedContinuationCall)
            <-> needs_more script_text hard_word_cap expected_items = true
                /\ exists expected, expected_items = Some expected /\ expected <> 0
                                    /\ current_items < expected /\ 60 < remaining)
        /\ (forall guided,
              In guided added -> call_site guided = GuidedContinuationCall ->
              exists expected,
                expected_items = Some expected
                /\ call_prompt guided
                   = (lit "Continue with items " ++ str_of_int (current_items + 1)
                      ++ lit " to " ++ str_of_int expected
                      ++ lit ". Keep each item concise and balanced. Do not repeat. ")
                     ++ remaining_words_prompt remaining hard_word_cap
                          (join [SPACE] (last_n 80 (split accumulated1))))).
Proof.
  split; [exact generate_script_calls|].
  intros script cap tokens expected_items calls accumulated1 calls1 Hattempt
         current_items remaining.
  (* without a guided call *)
  assert (Hplain : forall added,
            (added = [] \/ exists generic, added = [generic]
                                           /\ call_site generic = ContinuationCall) ->
            ~ (needs_more script cap expected_items = true
               /\ exists expected, expected_items = Some expected /\ expected <> 0
                                   /\ current_items < expected /\ 60 < remaining) ->
            continuation_calls_shape added
            /\ ((exists guided, In guided added /\ call_site guided = GuidedContinuationCall)
                <-> needs_more script cap expected_items = true
                    /\ exists expected, expected_items = Some expected /\ expected <> 0
                                        /\ current_items < expected /\ 60 < remaining)
            /\ (forall guided,
                  In guided added -> call_site guided = GuidedContinuationCall ->
                  exists expected,
                    expected_items = Some expected
                    /\ call_prompt guided
                       = guidance_for current_items expected
                         ++ remaining_words_prompt remaining cap
                              (join [SPACE] (last_n 80 (split accumulated1))))).
  { intros added Hadded Hnot.
    assert (Hnone : forall guided,
              In guided added -> call_site guided = GuidedContinuationCall -> False).
    { intros guided Hin Hsite.
      destruct Hadded as [->|(generic & -> & Hgeneric)]; [contradiction|].
      destruct Hin as [<-|[]]. congruence. }
    split; [|split].
    - destruct Hadded as [->|Hone]; [now left|now right; left].
    - split; [intros (guided & Hin & Hsite); destruct (Hnone guided Hin Hsite)|].
      intros H. destruct (Hnot H).
    - intros guided Hin Hsite. destruct (Hnone guided Hin Hsite). }
  assert (Hcalls1 : (calls1 = calls /\ accumulated1 = script
                     /\ Z.max 0 (cap - word_count script) < 50)
                    \/ exists generic, calls1 = calls ++ [generic]
                                       /\ call_site generic = ContinuationCall).
  { destruct (attempt_continuation_cases script cap tokens calls)
      as [[Hlt H]|[_ (accumulated & prompt & H)]];
      rewrite H in Hattempt; injection Hattempt as <- <-.
    - now left.
    - right. eexists. split; reflexivity. }
  assert (Hadded1 : exists added1,
            calls1 = calls ++ added1
            /\ (added1 = [] \/ exists generic, added1 = [generic]
                                               /\ call_site generic = ContinuationCall)).
  { destruct Hcalls1 as [(-> & _)|(generic & -> & Hsite)].
    - exists []. split; [now rewrite app_nil_r|now left].
    - exists [generic]. split; [reflexivity|right; now exists generic]. }
  destruct Hadded1 as (added1 & Hcalls & Hshape1).
  unfold continue_script.
  destruct (needs_more script cap expected_items) eqn:Hneeds.
  2:{ exists script, []. split; [now rewrite app_nil_r|].
      apply Hplain; [now left|]. intros [Hfalse _]. discriminate. }
  unfold bind. rewrite Hattempt.
  destruct expected_items as [expected|].
  2:{ exists accumulated1, added1. split; [now rewrite Hcalls|].
      apply Hplain; [exact Hshape1|]. intros [_ (expected & Hsome & _)]. discriminate. }
  unfold truthy_int. destruct (Z.eqb_spec expected 0) as [Hzero|Hnonzero].
  { exists accumulated1, added1. split; [now rewrite Hcalls|].
    apply Hplain; [exact Hshape1|].
    intros [_ (expected' & Hsome & Hne & _)]. injection Hsome as <-. contradiction. }
  cbn [negb]. fold current_items. fold remaining.
  destruct (Z.ltb_spec current_items expected) as [Hshort|Hfull].
  2:{ exists accumulated1, added1. split; [now rewrite Hcalls|].
      apply Hplain; [exact Hshape1|].
      intros [_ (expected' & Hsome & _ & Hlt & _)]. injection Hsome as <-. lia. }
  destruct (Z.ltb_spec 60 remaining) as [Hroom|Hnoroom].
  2:{ exists accumulated1, added1. split; [now rewrite Hcalls|].
      apply Hplain; [exact Hshape1|].
      intros [_ (expected' & _ & _ & _ & Hlt)]. lia. }
  cbn [andb].
  destruct (attempt_guided_continuation_cases accumulated1 cap tokens
              (guidance_for current_items expected) calls1)
    as [[Hlt _]|[_ (accumulated & Hguided)]]; [unfold remaining in Hroom; lia|].
  rewrite Hguided.
  destruct Hcalls1 as [(_ & -> & Hlt)|(generic & Hgeneric & Hsite)];
    [unfold remaining in Hroom; lia|].
  match type of Hguided with _ = (_, _ ++ [?g]) => set (guided := g) end.
  exists accumulated, [generic; guided].
  split; [rewrite Hgeneric, <- app_assoc; reflexivity|].
  split; [right; right; exists generic, guided; now repeat split|].
  split.
  - split; [intros _|intros _; exists guided; split; [right; now left|reflexivity]].
    split; [reflexivity|]. exists expected. now repeat split.
  - intros g [<-|[<-|[]]] Hg; [congruence|].
    exists expected. split; [reflexivity|].
    unfold guided. cbn [call_prompt].
    replace (Z.max 0 (cap - word_count accumulated1)) with remaining
      by (unfold remaining in *; lia).
    reflexivity.
Qed.


(** ** The words of a cleaned text *)

Lemma split_after_space : forall c0 c s,
  is_space c = true ->
  split (c0 :: c :: s) = if is_space c0 then split s else [c0] :: split s.
Proof.
  intros c0 c s Hc. rewrite split_cons_cons, Hc.
  cbn [split]. rewrite Hc. reflexivity.
Qed.

Lemma split_cons_congr : forall x y,
  (forall c, split (c :: x) = split (c :: y)) ->
  forall d c, split (c :: d :: x) = split (c :: d :: y).
Proof.
  intros x y H d c. rewrite !split_cons_cons. now rewrite (H d).
Qed.

Lemma split_tail_eq : forall x y,
  (forall c, split (c :: x) = split (c :: y)) -> split x = split y.
Proof.
  intros x y H. specialize (H SPACE). cbn [split] in H.
  assert (Hs : is_space SPACE = true) by reflexivity. now rewrite Hs in H.
Qed.

Lemma split_skip_spaces : forall n s,
  Forall (fun c => is_space c = true) (firstn n s) -> split (skipn n s) = split s.
Proof.
  induction n as [|n IH]; intros [|c s] H; try reflexivity.
  rewrite firstn_cons in H. inversion H as [|? ? Hc Hrest]; subst.
  cbn [skipn split]. rewrite Hc. now apply IH.
Qed.

Lemma last_lf_end_spaces : forall s,
  Forall (fun c => is_space c = true) (firstn (last_lf_end s) s).
Proof.
  induction s as [|c s IH]; [constructor|].
  cbn [last_lf_end]. destruct (is_space c) eqn:Hc; [|constructor].
  destruct (1 <=? ws_lf_count s)%nat.
  - rewrite firstn_cons. now constructor.
  - destruct (c =? LF)%N; [|constructor].
    rewrite firstn_cons. constructor; [assumption|]. rewrite firstn_O. constructor.
Qed.

Lemma blank_lines_words : forall s c0,
  split (c0 :: re_sub blank_lines_regex [LF; LF] s) = split (c0 :: s).
Proof.
  intros s. remember (length s) as n eqn:Hn. revert s Hn.
  induction n as [n IH] using lt_wf_ind. intros [|c s] Hn c0; [reflexivity|].
  cbn [length] in Hn. rewrite blank_lines_sub_cons.
  destruct ((c =? LF)%N && (2 <=? ws_lf_count s)%nat) eqn:Hm.
  - apply andb_prop in Hm as [Hc _]. apply N.eqb_eq in Hc. subst c.
    rewrite !split_after_space by apply lf_is_space.
    assert (Hrest : split (LF :: re_sub blank_lines_regex [LF; LF] (skipn (last_lf_end s) s))
                    = split s).
    { cbn [split]. rewrite lf_is_space.
      rewrite <- (split_skip_spaces (last_lf_end s) s) by apply last_lf_end_spaces.
      apply split_tail_eq. intros c.
      apply (IH (length (skipn (last_lf_end s) s))); [|reflexivity].
      rewrite length_skipn. lia. }
    now rewrite Hrest.
  - apply split_cons_congr. intros c1. apply (IH (length s)); [lia|reflexivity].
Qed.

Lemma squeeze_words : forall s c0, split (c0 :: squeeze_blanks s) = split (c0 :: s).
Proof.
  induction s as [|c s IH]; intros c0; [reflexivity|].
  destruct s as [|d s].
  - cbn [squeeze_blanks]. destruct (is_blank c) eqn:Hc; [|reflexivity].
    destruct (blank_is_space c Hc) as [Hs _].
    rewrite !split_after_space by (assumption || reflexivity). reflexivity.
  - rewrite squeeze_cons_cons. destruct (is_blank c) eqn:Hc.
    + destruct (blank_is_space c Hc) as [Hs _].
      rewrite (split_after_space c0 c) by assumption.
      destruct (is_blank d) eqn:Hd.
      * rewrite IH. destruct (blank_is_space d Hd) as [Hsd _].
        rewrite split_after_space by assumption.
        cbn [split]. rewrite Hsd. reflexivity.
      * rewrite split_after_space by reflexivity.
        now rewrite (split_tail_eq _ _ IH).
    + apply split_cons_congr, IH.
Qed.

Lemma replace_crlf_cons : forall c s,
  replace [CR; LF] [LF] (c :: s) =
  match s with
  | d :: s' =>
      if (c =? CR)%N && (d =? LF)%N then LF :: replace [CR; LF] [LF] s'
      else c :: replace [CR; LF] [LF] s
  | [] => [c]
  end.
Proof.
  intros c [|d s]; unfold replace; cbn [replace_from startswith length Nat.sub].
  - destruct (c =? CR)%N; reflexivity.
  - rewrite startswith_nil, andb_true_r.
    destruct ((c =? CR)%N && (d =? LF)%N); reflexivity.
Qed.

Lemma replace_cr_cons : forall c s,
  replace [CR] [LF] (c :: s) = (if (c =? CR)%N then LF else c) :: replace [CR] [LF] s.
Proof.
  intros c s. unfold replace; cbn [replace_from startswith length Nat.sub].
  rewrite startswith_nil, andb_true_r. destruct (c =? CR)%N; reflexivity.
Qed.

Lemma cr_is_space : is_space CR = true.
Proof. reflexivity. Qed.

Lemma replace_crlf_words : forall s c0,
  split (c0 :: replace [CR; LF] [LF] s) = split (c0 :: s).
Proof.
  intros s. remember (length s) as n eqn:Hn. revert s Hn.
  induction n as [n IH] using lt_wf_ind. intros [|c s] Hn c0; [reflexivity|].
  cbn [length] in Hn. rewrite replace_crlf_cons. destruct s as [|d s]; [reflexivity|].
  cbn [length] in Hn.
  destruct ((c =? CR)%N && (d =? LF)%N) eqn:Hm.
  - apply andb_prop in Hm as [Hc Hd]. apply N.eqb_eq in Hc, Hd. subst c d.
    rewrite (split_after_space c0 CR) by apply cr_is_space.
    rewrite split_after_space by apply lf_is_space.
    cbn [split]. rewrite lf_is_space.
    assert (Hrest : split (replace [CR; LF] [LF] s) = split s).
    { apply split_tail_eq. intros c. apply (IH (length s)); [lia|reflexivity]. }
    now rewrite Hrest.
  - apply split_cons_congr. intros c1. apply (IH (length (d :: s))); [cbn [length]; lia|reflexivity].
Qed.

Lemma replace_cr_words : forall s c0,
  split (c0 :: replace [CR] [LF] s) = split (c0 :: s).
Proof.
  induction s as [|c s IH]; intros c0; [reflexivity|].
  rewrite replace_cr_cons. destruct (c =? CR)%N eqn:Hc.
  - apply N.eqb_eq in Hc. subst c.
    rewrite split_after_space by apply lf_is_space.
    rewrite split_after_space by apply cr_is_space.
    now rewrite (split_tail_eq _ _ IH).
  - apply split_cons_congr, IH.
Qed.

Lemma filter_kept_char : forall text,
  filter (fun c => negb (is_replacement c))
    (filter (fun c => negb (is_zero_width c))
       (filter (fun c => negb (is_surrogate c)) text))
  = filter kept_char text.
Proof.
  intros s. induction s as [|c s IH]; [reflexivity|].
  unfold kept_char. cbn [filter].
  destruct (is_surrogate c); cbn [negb andb filter]; [exact IH|].
  destruct (is_zero_width c); cbn [negb andb filter]; [exact IH|].
  destruct (is_replacement c); cbn [negb andb filter]; [exact IH|].
  now f_equal.
Qed.

(** [_clean_response_text] keeps the words of a text: the cleaned text has
    the words of the text without the surrogates, the zero-width characters
    and the replacement characters. The steps on the whitespace replace runs
    of whitespace by whitespace, so that no two words run together and none
    falls apart. *)
Theorem cleaning_keeps_words : forall text,
  split (_clean_response_text text) = split (filter kept_char text).
Proof.
  intros text.
  destruct (cleaned_before_line_endings text) as (Hclean & _ & _).
  cbv zeta in Hclean. rewrite Hclean, filter_kept_char.
  apply split_tail_eq. intros c.
  rewrite replace_cr_words, replace_crlf_words, squeeze_words.
  apply blank_lines_words.
Qed.

(** ** The characters of a cleaned text *)

Lemma in_replace_crlf : forall s c, In c (replace [CR; LF] [LF] s) -> In c s.
Proof.
  intros s. remember (length s) as n eqn:Hn. revert s Hn.
  induction n as [n IH] using lt_wf_ind. intros [|a s] Hn c Hin; [exact Hin|].
  cbn [length] in Hn. rewrite replace_crlf_cons in Hin. destruct s as [|d s]; [exact Hin|].
  cbn [length] in Hn.
  destruct ((a =? CR)%N && (d =? LF)%N) eqn:Hm.
  - apply andb_prop in Hm as [_ Hd]. apply N.eqb_eq in Hd. subst d.
    destruct Hin as [<-|Hin]; [right; now left|].
    right; right. apply (IH (length s)); [lia|reflexivity|exact Hin].
  - destruct Hin as [<-|Hin]; [now left|].
    right. apply (IH (length (d :: s))); [cbn [length]; lia|reflexivity|exact Hin].
Qed.

Lemma in_replace_cr : forall s c,
  In c (replace [CR] [LF] s) -> c <> CR /\ (In c s \/ c = LF).
Proof.
  induction s as [|a s IH]; intros c Hin; [destruct Hin|].
  rewrite replace_cr_cons in Hin. destruct Hin as [<-|Hin].
  - destruct (a =? CR)%N eqn:Ha.
    + split; [discriminate|now right].
    + apply N.eqb_neq in Ha. split; [exact Ha|left; now left].
  - destruct (IH c Hin) as [Hc [H|H]]; (split; [exact Hc|]); [left; now right|now right].
Qed.

Lemma single_spaced_cons : forall c s,
  single_spaced (c :: s) =
  (if is_blank c
   then (c =? SPACE)%N && match s with
                          | d :: _ => negb (is_blank d)
                          | [] => true
                          end
   else true) && single_spaced s.
Proof. reflexivity. Qed.

Lemma replace_crlf_single_spaced : forall s,
  single_spaced s = true ->
  single_spaced (replace [CR; LF] [LF] s) = true
  /\ match replace [CR; LF] [LF] s with
     | d :: _ => negb (is_blank d)
     | [] => true
     end = match s with
           | d :: _ => negb (is_blank d)
           | [] => true
           end.
Proof.
  intros s. remember (length s) as n eqn:Hn. revert s Hn.
  induction n as [n IH] using lt_wf_ind. intros [|a s] Hn Hs; [now split|].
  cbn [length] in Hn. rewrite replace_crlf_cons. destruct s as [|d s]; [now split|].
  cbn [length] in Hn. rewrite single_spaced_cons in Hs.
  apply andb_prop in Hs as [Ha Hs].
  destruct ((a =? CR)%N && (d =? LF)%N) eqn:Hm.
  - apply andb_prop in Hm as [Hc Hd]. apply N.eqb_eq in Hc, Hd. subst a d.
    rewrite single_spaced_cons in Hs. apply andb_prop in Hs as [_ Hs].
    destruct (IH (length s) ltac:(lia) s eq_refl Hs) as [H1 _].
    split; [|reflexivity]. rewrite single_spaced_cons. exact H1.
  - destruct (IH (length (d :: s)) ltac:(cbn [length]; lia) (d :: s) eq_refl Hs) as [H1 H2].
    split; [|reflexivity]. rewrite single_spaced_cons, H1, H2, andb_true_r. exact Ha.
Qed.

Lemma replace_cr_single_spaced : forall s,
  single_spaced s = true ->
  single_spaced (replace [CR] [LF] s) = true
  /\ match replace [CR] [LF] s with
     | d :: _ => negb (is_blank d)
     | [] => true
     end = match s with
           | d :: _ => negb (is_blank d)
           | [] => true
           end.
Proof.
  induction s as [|a s IH]; intros Hs; [now split|].
  rewrite replace_cr_cons. rewrite single_spaced_cons in Hs.
  apply andb_prop in Hs as [Ha Hs]. destruct (IH Hs) as [H1 H2].
  destruct (a =? CR)%N eqn:Hc.
  - apply N.eqb_eq in Hc. subst a. split; [|reflexivity].
    rewrite single_spaced_cons. exact H1.
  - split; [|reflexivity]. rewrite single_spaced_cons, H1, H2, andb_true_r. exact Ha.
Qed.

Lemma single_spaced_blank : forall s c,
  single_spaced s = true -> In c s -> is_blank c = true -> c = SPACE.
Proof.
  induction s as [|a s IH]; intros c Hs Hin Hc; [destruct Hin|].
  rewrite single_spaced_cons in Hs. apply andb_prop in Hs as [Ha Hs].
  destruct Hin as [->|Hin]; [|now apply IH].
  rewrite Hc in Ha. apply andb_prop in Ha as [Ha _]. now apply N.eqb_eq in Ha.
Qed.

(** What a cleaned text looks like: every blank in it (space or tab) is one
    space that no blank follows; it holds no carriage return, no tab and none
    of the characters that the cleaning drops; and every character in it
    comes from the text, or is a space or a newline. *)
Theorem cleaned_text_normal_form : forall text,
  single_spaced (_clean_response_text text) = true
  /\ forall c, In c (_clean_response_text text) ->
       kept_char c = true /\ c <> CR /\ c <> TAB
       /\ (In c text \/ c = SPACE \/ c = LF).
Proof.
  intros text.
  destruct (cleaned_before_line_endings text) as (Hclean & _ & Hchars).
  cbv zeta in Hclean, Hchars.
  set (squeezed := squeeze_blanks _) in Hclean, Hchars.
  assert (Hsq : single_spaced squeezed = true) by apply squeeze_single_spaced.
  destruct (replace_crlf_single_spaced squeezed Hsq) as [H1 _].
  destruct (replace_cr_single_spaced _ H1) as [H2 _].
  rewrite Hclean. split; [exact H2|].
  intros c Hin.
  assert (Htab : c <> TAB).
  { intros ->. assert (H : TAB = SPACE) by (apply (single_spaced_blank _ TAB H2 Hin); reflexivity).
    discriminate H. }
  apply in_replace_cr in Hin as [Hcr [Hin| ->]].
  - apply in_replace_crlf in Hin. destruct (Hchars c Hin) as [Hk Hfrom].
    split; [exact Hk|split; [exact Hcr|split; [exact Htab|exact Hfrom]]].
  - split; [reflexivity|split; [exact Hcr|split; [exact Htab|now right; right]]].
Qed.

(** ** Truncation and terminal punctuation, once more *)

(** A text of more than [max_words] words is cut among the words
    [words[:max_words]] that are kept. When none of them, the last one apart,
    ends with a full stop, an exclamation mark, a question mark, a pipe or a
    danda, the result is these words joined by single spaces. Otherwise the
    cut falls after the last of the words that end so: the result is the
    words up to it joined by single spaces, and ends with the mark. *)
Theorem truncate_cuts_at_boundary : forall text max_words,
  max_words < len (split text) ->
  let kept := slice_to (split text) max_words in
  let result := _truncate_to_words_sentence_aware text max_words in
  ((forall i w, (S i < length kept)%nat -> nth_error kept i = Some w ->
                ends_with is_boundary_mark w = false)
   /\ result = join [SPACE] kept)
  \/ (exists j w,
        (S j < length kept)%nat
        /\ nth_error kept j = Some w
        /\ ends_with is_boundary_mark w = true
        /\ (forall i w', (j < i)%nat -> (S i < length kept)%nat ->
                         nth_error kept i = Some w' ->
                         ends_with is_boundary_mark w' = false)
        /\ result = join [SPACE] (firstn (S j) kept)
        /\ ends_with is_boundary_mark result = true).
Proof.
  intros text m Hlt kept result.
  destruct (truncate_at_cut_point text m Hlt) as (k & Hcut & Heq).
  fold kept in Hcut, Heq. fold result in Heq.
  destruct Hcut as [[-> Hnone]|(j & w & -> & Hj & Hnth & Hmark & Hlast)].
  - left. split; [exact Hnone|]. now rewrite Heq, firstn_all.
  - right. exists j, w. repeat (split; [assumption|]).
    rewrite Heq, (firstn_snoc_nth _ _ _ Hnth), ends_with_join; [exact Hmark|].
    intros ->. discriminate Hmark.
Qed.

(** For a bound that is not negative, [_truncate_to_words_sentence_aware] is
    idempotent: the truncated text has no more words than the bound, and is
    returned as it is. *)
Theorem truncate_idempotent : forall text max_words,
  0 <= max_words ->
  _truncate_to_words_sentence_aware
    (_truncate_to_words_sentence_aware text max_words) max_words
  = _truncate_to_words_sentence_aware text max_words.
Proof.
  intros text m Hm.
  destruct (truncate_words text m) as (k & Hk & Hle).
  apply truncate_unchanged. rewrite Hk. unfold len.
  pose proof (length_firstn_le k (split text)). specialize (Hle Hm). lia.
Qed.

Lemma terminator_not_space : forall c, is_terminator c = true -> is_space c = false.
Proof.
  intros c H. unfold is_terminator in H.
  repeat (apply orb_prop in H as [H|H]); apply N.eqb_eq in H; subst c; reflexivity.
Qed.

Lemma ends_with_last : forall p s,
  ends_with p s = true -> exists x c, s = x ++ [c] /\ p c = true.
Proof.
  intros p s H. destruct s as [|a s']; [discriminate H|].
  destruct (exists_last (l := a :: s') ltac:(discriminate)) as (x & c & Hx).
  rewrite Hx in H |- *. rewrite ends_with_snoc in H. now exists x, c.
Qed.

Lemma rstrip_terminated : forall s, ends_with is_terminator s = true -> rstrip s = s.
Proof.
  intros s H. destruct (ends_with_last _ _ H) as (x & c & -> & Hc).
  now rewrite rstrip_snoc, (terminator_not_space c Hc).
Qed.

(** [_ensure_sentence_boundary] is idempotent: its result ends with a
    terminator and has no whitespace after it, so that a second application
    strips nothing and adds no full stop. *)
Theorem ensure_sentence_boundary_idempotent : forall text,
  _ensure_sentence_boundary (_ensure_sentence_boundary text)
  = _ensure_sentence_boundary text.
Proof.
  intros text. pose proof (ensure_ends_with_terminator text) as H.
  rewrite (ensure_sentence_boundary_eq (_ensure_sentence_boundary text)).
  rewrite (rstrip_terminated _ H). now rewrite H.
Qed.

Lemma split_snoc_word : forall x c, is_space c = false -> split (x ++ [c]) <> [].
Proof.
  intros x c Hc.
  induction x as [|a x IH].
  - cbn [app split]. rewrite Hc. discriminate.
  - change ((a :: x) ++ [c]) with (a :: (x ++ [c])).
    destruct (x ++ [c]) as [|d r] eqn:Hx; [now destruct x|].
    rewrite split_cons_cons.
    destruct (is_space a); [exact IH|].
    destruct (is_space d); [discriminate|].
    destruct (split (d :: r)); discriminate.
Qed.

Lemma split_terminated : forall s, ends_with is_terminator s = true -> split s <> [].
Proof.
  intros s H. destruct (ends_with_last _ _ H) as (x & c & -> & Hc).
  now apply split_snoc_word, terminator_not_space.
Qed.

(** ** What the text extraction returns *)

Lemma join_head_nonempty : forall sep p ps, p <> [] -> join sep (p :: ps) <> [].
Proof.
  intros sep p ps Hp. destruct p as [|c p']; [congruence|].
  destruct ps; [discriminate|]. rewrite join_cons by discriminate. discriminate.
Qed.

Lemma truthy_str_spec : forall s, truthy_str s = true <-> s <> [].
Proof. intros [|c s]; cbn [truthy_str]; split; intros H; try reflexivity; congruence. Qed.

(** [_extract_text_from_response] never returns an empty text, and it
    returns nothing exactly when no source has text: the quick accessor raises
    or is empty, no candidate has a part with text, and the rendering of the
    response raises or is empty. *)
Theorem extracted_text_is_never_empty : forall response,
  (forall script_text,
     _extract_text_from_response response = Some script_text -> script_text <> [])
  /\ (_extract_text_from_response response = None <->
      (forall t, text response = inr t -> t = [])
      /\ (forall candidate c part t,
            In candidate (candidates response) -> content candidate = Some c ->
            In part (parts c) -> part_text part = Some t -> t = [])
      /\ (forall s, response_str response = inr s -> s = [])).
Proof.
  intros response. unfold _extract_text_from_response.
  set (texts_of := fun p : Part => match part_text p with
                                   | Some t => if truthy_str t then [t] else []
                                   | None => []
                                   end).
  set (parts_of := fun cand : Candidate => match content cand with
                                           | Some c => flat_map texts_of (parts c)
                                           | None => []
                                           end).
  set (nonempty := fun parts_text : list str => negb (Nat.eqb (length parts_text) 0)).
  assert (Htexts : forall p t, In t (texts_of p) -> t <> [] /\ part_text p = Some t).
  { intros p t. unfold texts_of. destruct (part_text p) as [u|]; [|intros []].
    destruct (truthy_str u) eqn:Hu; [|intros []]. intros [<-|[]].
    split; [now apply truthy_str_spec|reflexivity]. }
  assert (Hparts : forall cand t, In t (parts_of cand) -> t <> []).
  { intros cand t. unfold parts_of. destruct (content cand) as [c|]; [|intros []].
    intros Hin. apply in_flat_map in Hin as (p & _ & Hin). now apply (Htexts p). }
  assert (Hstring : forall (s : str) (o : option str),
            (if truthy_str s then Some s else o) = o \/
            (s <> [] /\ (if truthy_str s then Some s else o) = Some s)).
  { intros [|c s] o; [now left|right]. split; [discriminate|reflexivity]. }
  assert (Hcands :
    match filter nonempty (List.map parts_of (candidates response)) with
    | parts_text :: _ => exists t, t <> [] /\ join [LF] parts_text = t
    | [] => forall candidate, In candidate (candidates response) -> parts_of candidate = []
    end).
  { destruct (filter nonempty (List.map parts_of (candidates response)))
      as [|parts_text rest] eqn:Hfilter.
    - intros candidate Hin.
      destruct (parts_of candidate) as [|t ts] eqn:Hp; [reflexivity|].
      assert (H : In (t :: ts) (filter nonempty (List.map parts_of (candidates response)))).
      { apply filter_In. split; [|reflexivity]. rewrite <- Hp. now apply in_map. }
      rewrite Hfilter in H. destruct H.
    - assert (H : In parts_text (filter nonempty (List.map parts_of (candidates response))))
        by (rewrite Hfilter; now left).
      apply filter_In in H as [H Hne]. apply in_map_iff in H as (cand & <- & _).
      destruct (parts_of cand) as [|t ts] eqn:Hp; [discriminate Hne|].
      eexists. split; [|reflexivity]. apply join_head_nonempty.
      apply (Hparts cand). rewrite Hp. now left. }
  assert (Hnone_parts :
    (forall candidate, In candidate (candidates response) -> parts_of candidate = []) <->
    (forall candidate c part t,
       In candidate (candidates response) -> content candidate = Some c ->
       In part (parts c) -> part_text part = Some t -> t = [])).
  { split.
    - intros H candidate c part t Hin Hc Hpart Ht.
      specialize (H candidate Hin). unfold parts_of in H. rewrite Hc in H.
      destruct t as [|a t']; [reflexivity|].
      assert (Hin' : In (a :: t') (flat_map texts_of (parts c))).
      { apply in_flat_map. exists part. split; [exact Hpart|].
        unfold texts_of. rewrite Ht. now left. }
      rewrite H in Hin'. destruct Hin'.
    - intros H candidate Hin. unfold parts_of.
      destruct (content candidate) as [c|] eqn:Hc; [|reflexivity].
      destruct (flat_map texts_of (parts c)) as [|t ts] eqn:Hflat; [reflexivity|].
      assert (Hin' : In t (flat_map texts_of (parts c))) by (rewrite Hflat; now left).
      apply in_flat_map in Hin' as (part & Hpart & Ht).
      destruct (Htexts part t Ht) as [Hne Hsome].
      now specialize (H candidate c part t Hin Hc Hpart Hsome). }
  split.
  - intros script_text.
    assert (Hfrom : match filter nonempty (List.map parts_of (candidates response)) with
                    | parts_text :: _ => Some (join [LF] parts_text)
                    | [] => match response_str response with
                            | inr s => if truthy_str s then Some s else None
                            | inl _ => None
                            end
                    end = Some script_text -> script_text <> []).
    { destruct (filter nonempty (List.map parts_of (candidates response))).
      - destruct (response_str response) as [e|s]; [discriminate|].
        destruct s; [discriminate|]. intros H. injection H as <-. discriminate.
      - destruct Hcands as (t & Hne & Heq). rewrite Heq. intros H. now injection H as <-. }
    destruct (text response) as [e|t]; [exact Hfrom|].
    destruct t as [|a t']; [exact Hfrom|]. intros H. injection H as <-. discriminate.
  - assert (Hfrom : match filter nonempty (List.map parts_of (candidates response)) with
                    | parts_text :: _ => Some (join [LF] parts_text)
                    | [] => match response_str response with
                            | inr s => if truthy_str s then Some s else None
                            | inl _ => None
                            end
                    end = None <->
                    (forall candidate, In candidate (candidates response) ->
                                       parts_of candidate = [])
                    /\ (forall s, response_str response = inr s -> s = [])).
    { destruct (filter nonempty (List.map parts_of (candidates response)))
        as [|parts_text rest] eqn:Hfilter.
      - split.
        + intros H. split; [exact Hcands|]. intros s Hs. rewrite Hs in H.
          destruct s; [reflexivity|discriminate].
        + intros [_ H]. destruct (response_str response) as [e|s]; [reflexivity|].
          now rewrite (H s eq_refl).
      - split; [discriminate|]. intros [H _].
        assert (Hin : In parts_text
                         (filter nonempty (List.map parts_of (candidates response))))
          by (rewrite Hfilter; now left).
        apply filter_In in Hin as [Hin Hne]. apply in_map_iff in Hin as (cand & <- & Hin).
        rewrite (H cand Hin) in Hne. discriminate. }
    rewrite <- Hnone_parts.
    destruct (text response) as [e|t].
    + rewrite Hfrom. split; [intros [H1 H2]|intros (_ & H1 & H2)]; [|now split].
      split; [discriminate|now split].
    + destruct t as [|a t'].
      * cbn [truthy_str]. rewrite Hfrom.
        split; [intros [H1 H2]|intros (_ & H1 & H2)]; [|now split].
        split; [|now split]. intros t H. now injection H as <-.
      * cbn [truthy_str]. split; [discriminate|]. intros (H & _).
        specialize (H (a :: t') eq_refl). discriminate.
Qed.

(** ** The words that a continuation call adds *)

Lemma split_nonspace_cons : forall c s,
  is_space c = false -> exists w ws, split (c :: s) = w :: ws.
Proof.
  intros c [|d s] Hc.
  - cbn [split]. rewrite Hc. now eexists; eexists.
  - rewrite split_cons_cons, Hc. destruct (is_space d); [now eexists; eexists|].
    destruct (split (d :: s)); now eexists; eexists.
Qed.

Lemma split_app_space : forall a c b,
  is_space c = true -> split (a ++ c :: b) = split a ++ split b.
Proof.
  induction a as [|x a IH]; intros c b Hc.
  - cbn [app split]. now rewrite Hc.
  - cbn [app]. destruct a as [|d a'].
    + cbn [app]. rewrite split_cons_cons, Hc. cbn [split]. rewrite Hc.
      destruct (is_space x); reflexivity.
    + specialize (IH c b Hc). cbn [app] in IH |- *.
      rewrite !split_cons_cons, IH.
      destruct (is_space x); [reflexivity|].
      destruct (is_space d) eqn:Hd; [reflexivity|].
      destruct (split_nonspace_cons d a' Hd) as (w & ws & ->). reflexivity.
Qed.

Lemma split_lstrip : forall s, split (lstrip s) = split s.
Proof.
  unfold lstrip. induction s as [|c s IH]; [reflexivity|].
  cbn [drop_while]. destruct (is_space c) eqn:Hc; [|reflexivity].
  rewrite IH. cbn [split]. now rewrite Hc.
Qed.

Lemma split_strip : forall s, split (strip s) = split s.
Proof. intros s. unfold strip. now rewrite split_rstrip, split_lstrip. Qed.

Lemma split_combined : forall current_text more_text,
  split (rstrip current_text ++ [LF; LF] ++ strip more_text)
  = split current_text ++ split more_text.
Proof.
  intros current more. cbn [app].
  rewrite split_app_space by apply lf_is_space.
  cbn [split]. rewrite lf_is_space. now rewrite split_rstrip, split_strip.
Qed.

Lemma combined_words : forall current_text more_text hard_word_cap,
  0 <= hard_word_cap ->
  exists k,
    split (_truncate_to_words_sentence_aware
             (rstrip current_text ++ [LF; LF] ++ strip more_text) hard_word_cap)
    = firstn k (split current_text ++ split more_text)
    /\ Z.of_nat k <= hard_word_cap.
Proof.
  intros current more cap Hcap.
  destruct (truncate_words (rstrip current ++ [LF; LF] ++ strip more) cap) as (k & Hk & Hle).
  exists k. rewrite Hk, split_combined. split; [reflexivity|now apply Hle].
Qed.

(** A continuation call, generic or guided, returns the text it was given, or
    the text and the reply of the service put together and cut to the cap: the
    words of the result are then the first words of the text followed by the
    words of the reply, at most as many as the cap allows, so that the cut may
    fall within the text that was there before. At most one call is issued,
    and none when fewer than 50 words remain under the cap. *)
Theorem continuation_keeps_a_prefix_of_the_words :
  forall current_text hard_word_cap max_output_tokens guidance calls,
  (exists accumulated added,
     _attempt_continuation current_text hard_word_cap max_output_tokens calls
     = (inr accumulated, calls ++ added)
     /\ ((accumulated = current_text
          /\ (length added <= 1)%nat
          /\ (hard_word_cap - word_count current_text < 50 -> added = []))
         \/ exists call response reply k,
              added = [call] /\ model calls call = inr response
              /\ text response = inr reply
              /\ accumulated
                 = _truncate_to_words_sentence_aware
                     (rstrip current_text ++ [LF; LF] ++ strip reply) hard_word_cap
              /\ split accumulated = firstn k (split current_text ++ split reply)
              /\ Z.of_nat k <= hard_word_cap))
  /\ (exists accumulated added,
        _attempt_guided_continuation current_text hard_word_cap max_output_tokens
                                     guidance calls
        = (inr accumulated, calls ++ added)
        /\ ((accumulated = current_text
             /\ (length added <= 1)%nat
             /\ (hard_word_cap - word_count current_text < 50 -> added = []))
            \/ exists call response reply k,
                 added = [call] /\ model calls call = inr response
                 /\ text response = inr reply
                 /\ accumulated
                    = _truncate_to_words_sentence_aware
                        (rstrip current_text ++ [LF; LF] ++ strip reply) hard_word_cap
                 /\ split accumulated = firstn k (split current_text ++ split reply)
                 /\ Z.of_nat k <= hard_word_cap)).
Proof.
  intros current cap tokens guidance calls.
  assert (Hsame : forall added : list Call,
            (length added <= 1)%nat ->
            (cap - word_count current < 50 -> added = []) ->
            exists accumulated added',
              (@inr exn str current, calls ++ added) = (inr accumulated, calls ++ added')
              /\ ((accumulated = current
                   /\ (length added' <= 1)%nat
                   /\ (cap - word_count current < 50 -> added' = []))
                  \/ exists call response reply k,
                       added' = [call] /\ model calls call = inr response
                       /\ text response = inr reply
                       /\ accumulated
                          = _truncate_to_words_sentence_aware
                              (rstrip current ++ [LF; LF] ++ strip reply) cap
                       /\ split accumulated = firstn k (split current ++ split reply)
                       /\ Z.of_nat k <= cap)).
  { intros added Hlen Hnone. exists current, added. split; [reflexivity|]. left. now repeat split. }
  split.
  - unfold _attempt_continuation, try_except.
    destruct (Z.ltb_spec (Z.max 0 (cap - word_count current)) 50) as [Hlt|Hge].
    { exists current, []. split; [unfold ret; now rewrite app_nil_r|].
      left. split; [reflexivity|split; [cbn; lia|reflexivity]]. }
    unfold bind, generate_content, eval, ret, raise.
    match goal with |- context [model calls ?c] => set (call := c) end.
    destruct (model calls call) as [e|more] eqn:Hmodel;
      [apply Hsame; [cbn; lia|intros; exfalso; lia]|].
    destruct (text more) as [e|more_text] eqn:Htext; [apply Hsame; [cbn; lia|intros; exfalso; lia]|].
    destruct (truthy_str more_text); [|apply Hsame; [cbn; lia|intros; exfalso; lia]].
    assert (Hcap : 0 <= cap) by (unfold word_count, len in Hge; lia).
    destruct (combined_words current more_text cap Hcap) as (k & Hk & Hle).
    eexists. exists [call]. split; [reflexivity|]. right.
    exists call, more, more_text, k. now repeat split.
  - unfold _attempt_guided_continuation, try_except.
    destruct (Z.ltb_spec (Z.max 0 (cap - word_count current)) 50) as [Hlt|Hge].
    { exists current, []. split; [unfold ret; now rewrite app_nil_r|].
      left. split; [reflexivity|split; [cbn; lia|reflexivity]]. }
    unfold bind, generate_content, eval, ret, raise.
    match goal with |- context [model calls ?c] => set (call := c) end.
    destruct (model calls call) as [e|more] eqn:Hmodel;
      [apply Hsame; [cbn; lia|intros; exfalso; lia]|].
    destruct (text more) as [e|more_text] eqn:Htext; [apply Hsame; [cbn; lia|intros; exfalso; lia]|].
    destruct (truthy_str more_text); [|apply Hsame; [cbn; lia|intros; exfalso; lia]].
    assert (Hcap : 0 <= cap) by (unfold word_count, len in Hge; lia).
    destruct (combined_words current more_text cap Hcap) as (k & Hk & Hle).
    eexists. exists [call]. split; [reflexivity|]. right.
    exists call, more, more_text, k. now repeat split.
Qed.

(** ** The token budget of the calls *)

(** On the caps that [generate_script] resolves, [int(hard_word_cap * 1.3)]
    is the floor of 13/10 of the cap: checked on each of them. *)
Lemma token_floor : forall hard_word_cap,
  150 <= hard_word_cap <= 5000 ->
  int_of_float (float_of_int hard_word_cap * float_1_3) = 13 * hard_word_cap / 10.
Proof.
  intros cap Hcap. apply Z.eqb_eq.
  apply (forall_range_true
           (fun c => int_of_float (float_of_int c * float_1_3) =? 13 * c / 10) 4851 150);
    [vm_compute; reflexivity|lia].
Qed.

Lemma continue_script_tokens :
  forall script_text hard_word_cap max_output_tokens expected_items calls,
  exists accumulated added,
    continue_script script_text hard_word_cap max_output_tokens expected_items calls
    = (inr accumulated, calls ++ added)
    /\ Forall (fun call => call_max_output_tokens call = max_output_tokens) added.
Proof.
  intros script cap tokens expected_items calls.
  assert (Hnone : forall accumulated : str,
            exists accumulated' added,
              (inr accumulated, calls) = (@inr exn _ accumulated', calls ++ added)
              /\ Forall (fun call => call_max_output_tokens call = tokens) added).
  { intros accumulated. exists accumulated, []. split; [now rewrite app_nil_r|constructor]. }
  assert (Hone : forall (accumulated : str) generic,
            call_max_output_tokens generic = tokens ->
            exists accumulated' added,
              (inr accumulated, calls ++ [generic])
              = (@inr exn _ accumulated', calls ++ added)
              /\ Forall (fun call => call_max_output_tokens call = tokens) added).
  { intros accumulated generic Htokens. exists accumulated, [generic].
    split; [reflexivity|]. now repeat constructor. }
  unfold continue_script.
  destruct (needs_more script cap expected_items); [|apply Hnone].
  unfold bind.
  destruct (attempt_continuation_cases script cap tokens calls)
    as [[Hlt ->]|[_ (accumulated1 & prompt & ->)]].
  - destruct expected_items as [expected|]; [|apply Hnone].
    destruct (truthy_int expected); [|apply Hnone].
    destruct (_count_list_items script <? expected); [|apply Hnone].
    destruct (Z.ltb_spec 60 (cap - word_count script)); [lia|apply Hnone].
  - destruct expected_items as [expected|]; [|now apply Hone].
    destruct (truthy_int expected); [|now apply Hone].
    destruct ((_count_list_items accumulated1 <? expected)
              && (60 <? cap - word_count accumulated1)); [|now apply Hone].
    match goal with
    | |- context [_attempt_guided_continuation ?t ?c ?k ?g ?cs] =>
        destruct (attempt_guided_continuation_cases t c k g cs)
          as [[_ ->]|[_ (accumulated & ->)]]
    end; [now apply Hone|].
    exists accumulated. eexists [_; _].
    split; [now rewrite <- app_assoc|]. now repeat constructor.
Qed.

Lemma from_response_tokens :
  forall response topic length_minutes additional_context hard_word_cap max_output_tokens
         calls,
  exists result added,
    generate_script_from_response response topic length_minutes additional_context
                                  hard_word_cap max_output_tokens calls
    = (inr result, calls ++ added)
    /\ Forall (fun call => call_max_output_tokens call = max_output_tokens) added.
Proof.
  intros response topic minutes context cap tokens calls.
  assert (Hnone : forall result : GenerationResult,
            exists result' added,
              (inr result, calls) = (@inr exn _ result', calls ++ added)
              /\ Forall (fun call => call_max_output_tokens call = tokens) added).
  { intros result. exists result, []. split; [now rewrite app_nil_r|constructor]. }
  unfold generate_script_from_response.
  destruct (match candidates response with
            | candidate :: _ => blocked_categories candidate
            | [] => []
            end); [|apply Hnone].
  destruct (_extract_text_from_response response) as [script_text|]; [|apply Hnone].
  destruct (negb (truthy_str script_text)); [apply Hnone|].
  unfold bind.
  destruct (continue_script_tokens script_text cap tokens
              (_extract_expected_item_count topic context) calls)
    as (accumulated & added & -> & Htokens).
  eexists. exists added. split; [reflexivity|exact Htokens].
Qed.

Lemma generation_attempt_tokens :
  forall topic length_minutes tone target_audience content_type creator_style
         additional_context requested_word_cap force_hinglish_ascii calls,
  exists outcome added,
    generation_attempt topic length_minutes tone target_audience content_type creator_style
                       additional_context requested_word_cap force_hinglish_ascii calls
    = (outcome, calls ++ added)
    /\ Forall (fun call =>
                 call_max_output_tokens call
                 = max_output_tokens_for
                     (resolve_hard_word_cap length_minutes requested_word_cap))
              added.
Proof.
  intros topic minutes tone audience ctype style context requested force calls.
  unfold generation_attempt, bind, generate_content.
  set (cap := resolve_hard_word_cap minutes requested).
  set (tokens := max_output_tokens_for cap).
  match goal with |- context [model calls ?c] => set (call1 := c) end.
  assert (Hstop1 : forall outcome : exn + GenerationResult,
            exists outcome' added,
              (outcome, calls ++ [call1]) = (outcome', calls ++ added)
              /\ Forall (fun call => call_max_output_tokens call = tokens) added).
  { intros outcome. exists outcome, [call1]. split; [reflexivity|].
    now repeat constructor. }
  destruct (model calls call1) as [e|response]; [apply Hstop1|].
  destruct (candidates response) as [|candidate others].
  - unfold print. destruct (stdout_write fallback_notice) as [e|]; [apply Hstop1|].
    unfold ret at 1. cbv beta iota.
    match goal with |- context [model (calls ++ [call1]) ?c] => set (call2 := c) end.
    assert (Hcalls : (calls ++ [call1]) ++ [call2] = calls ++ [call1; call2])
      by now rewrite <- app_assoc.
    rewrite Hcalls.
    assert (Hstop : forall outcome : exn + GenerationResult,
              exists outcome' added,
                (outcome, calls ++ [call1; call2]) = (outcome', calls ++ added)
                /\ Forall (fun call => call_max_output_tokens call = tokens) added).
    { intros outcome. exists outcome, [call1; call2]. split; [reflexivity|].
      now repeat constructor. }
    destruct (model (calls ++ [call1]) call2) as [e|fallback]; [apply Hstop|].
    destruct (candidates fallback); [apply Hstop|].
    unfold eval. destruct (text fallback) as [e|fallback_text]; [apply Hstop|].
    unfold ret at 1. cbv beta iota.
    destruct (negb (truthy_str fallback_text)); [apply Hstop|].
    destruct (from_response_tokens fallback topic minutes context cap tokens
                (calls ++ [call1; call2])) as (result & added & -> & Htokens).
    exists (inr result), ([call1; call2] ++ added). split; [now rewrite app_assoc|].
    apply Forall_app. split; [now repeat constructor|exact Htokens].
  - destruct (from_response_tokens response topic minutes context cap tokens
                (calls ++ [call1])) as (result & added & -> & Htokens).
    exists (inr result), ([call1] ++ added). split; [now rewrite app_assoc|].
    apply Forall_app. split; [now repeat constructor|exact Htokens].
Qed.

(** Every call that one run of [generate_script] issues, the initial one,
    the fallback one and the continuations, carries the same limit of output
    tokens: 13/10 of the resolved word cap, rounded down, kept within
    [256, 4096]. From a cap of 3151 words on the limit is 4096 tokens, fewer
    than 1.3 per word. This holds of every run, whether it returns a result
    or a print raises. *)
Theorem calls_share_the_token_budget :
  forall topic length_minutes tone target_audience content_type creator_style
         additional_context requested_word_cap force_hinglish_ascii calls,
  let hard_word_cap := resolve_hard_word_cap length_minutes requested_word_cap in
  max_output_tokens_for hard_word_cap = Z.max 256 (Z.min 4096 (13 * hard_word_cap / 10))
  /\ (max_output_tokens_for hard_word_cap = 4096 <-> 3151 <= hard_word_cap)
  /\ exists outcome added,
       generate_script topic length_minutes tone target_audience content_type creator_style
                       additional_context requested_word_cap force_hinglish_ascii calls
       = (outcome, calls ++ added)
       /\ Forall (fun call =>
                    call_max_output_tokens call = max_output_tokens_for hard_word_cap)
                 added.
Proof.
  intros topic minutes tone audience ctype style context requested force calls cap.
  pose proof (resolve_hard_word_cap_bounds minutes requested) as Hcap. fold cap in Hcap.
  assert (Hfloor : max_output_tokens_for cap = Z.max 256 (Z.min 4096 (13 * cap / 10))).
  { unfold max_output_tokens_for. now rewrite token_floor. }
  split; [exact Hfloor|]. split.
  { rewrite Hfloor.
    pose proof (Z.div_mod (13 * cap) 10 ltac:(lia)) as Hdiv.
    pose proof (Z.mod_pos_bound (13 * cap) 10 ltac:(lia)) as Hmod. lia. }
  rewrite generate_script_unfold.
  destruct (stdout_write (request_line topic minutes tone audience)) as [e|].
  { exists (inl e), []. split; [now rewrite app_nil_r|constructor]. }
  destruct (generation_attempt_tokens topic minutes tone audience ctype style context
              requested force calls) as (outcome & added & -> & Htokens).
  fold cap in Htokens.
  destruct outcome as [e|result].
  - destruct (stdout_write (failure_line e)); eexists; exists added;
      (split; [reflexivity|exact Htokens]).
  - exists (inr result), added. split; [reflexivity|exact Htokens].
Qed.

(** ** What reaches the caller of [generate_script] *)

(** [generate_script] prints the line of the request before its [try]
    statement and the line of the failure inside the handler, so that the
    exception of either [print] reaches the caller: [UnicodeEncodeError] when
    the encoding of standard output lacks a character of the topic, with no
    call issued, or a character of the message of the exception that the
    handler reports. These are the only exceptions that reach the caller. *)
Theorem print_exceptions_reach_the_caller :
  forall topic length_minutes tone target_audience content_type creator_style
         additional_context requested_word_cap force_hinglish_ascii calls,
  let call1 := initial_call topic length_minutes tone target_audience content_type
                            creator_style additional_context requested_word_cap
                            force_hinglish_ascii in
  let run := generate_script topic length_minutes tone target_audience content_type
                             creator_style additional_context requested_word_cap
                             force_hinglish_ascii calls in
  let line := request_line topic length_minutes tone target_audience in
  (forall e, stdout_write line = Some e -> run = (inl e, calls))
  /\ (forall e e',
        stdout_write line = None ->
        model calls call1 = inl e ->
        stdout_write (failure_line e) = Some e' ->
        run = (inl e', calls ++ [call1]))
  /\ (forall e' calls',
        run = (inl e', calls') ->
        stdout_write line = Some e'
        \/ exists e, stdout_write (failure_line e) = Some e').
Proof.
  intros topic minutes tone audience ctype style context requested force calls
         call1 run line.
  subst run line. rewrite generate_script_unfold. split; [|split].
  - intros e He. now rewrite He.
  - intros e e' Hline Hmodel Hfail. rewrite Hline.
    rewrite (generation_attempt_initial_raises _ _ _ _ _ _ _ _ _ _ _ Hmodel).
    now rewrite Hfail.
  - intros e' calls'.
    destruct (stdout_write (request_line topic minutes tone audience)) as [e0|].
    { intros H. injection H as -> _. now left. }
    destruct (generation_attempt topic minutes tone audience ctype style context requested
                                 force calls) as [[e|result] calls1]; [|discriminate].
    destruct (stdout_write (failure_line e)) as [e1|] eqn:He; [|discriminate].
    intros H. injection H as -> _. right. now exists e.
Qed.

(** ** A successful result has words *)

(** When [generate_script] succeeds, the script is not empty, and the word
    count that it reports is the one of the script, at least one and at most
    the resolved cap. *)
Theorem successful_script_has_words :
  forall topic length_minutes tone target_audience content_type creator_style
         additional_context requested_word_cap force_hinglish_ascii
         calls script count metadata calls',
  generate_script topic length_minutes tone target_audience content_type creator_style
                  additional_context requested_word_cap force_hinglish_ascii calls
  = (inr (Success script count metadata), calls') ->
  script <> []
  /\ 1 <= count <= resolve_hard_word_cap length_minutes requested_word_cap
  /\ count = word_count script.
Proof.
  intros topic minutes tone audience ctype style context requested force
         calls script count metadata calls' Hrun.
  destruct (generate_script_success _ _ _ _ _ _ _ _ _ _ _ _ _ _ Hrun)
    as (raw & Hscript & Hcount).
  pose proof (resolve_hard_word_cap_bounds minutes requested) as Hcap.
  assert (Hend : ends_with is_terminator script = true).
  { rewrite Hscript. apply ensure_ends_with_terminator. }
  pose proof (split_terminated script Hend) as Hwords.
  split; [intros ->; discriminate Hend|].
  split; [|exact Hcount]. rewrite Hcount. split.
  - unfold word_count, len. destruct (split script); [congruence|cbn [length]; lia].
  - rewrite Hscript. apply post_process_within_cap. lia.
Qed.

(** ** The cap that the front end requests *)

(** [render_generation_tab] passes the value of its slider, between 500 and
    5000, as [requested_word_cap]: the cap is then that value, whatever the
    length of the video, and the default of 150 words per minute is not
    used. *)
Theorem slider_value_is_the_cap : forall length_minutes max_words,
  500 <= max_words <= 5000 ->
  resolve_hard_word_cap length_minutes (Some max_words) = max_words
  /\ max_output_tokens_for (resolve_hard_word_cap length_minutes (Some max_words))
     = Z.min 4096 (13 * max_words / 10).
Proof.
  intros minutes max_words Hrange.
  assert (Hcap : resolve_hard_word_cap minutes (Some max_words) = max_words).
  { unfold resolve_hard_word_cap, truthy_int.
    destruct (Z.eqb_spec max_words 0); [lia|].
    destruct (Z.ltb_spec 0 max_words); [cbn [negb andb]; lia|lia]. }
  split; [exact Hcap|]. rewrite Hcap. unfold max_output_tokens_for.
  rewrite token_floor by lia.
  pose proof (Z.div_mod (13 * max_words) 10 ltac:(lia)) as Hdiv.
  pose proof (Z.mod_pos_bound (13 * max_words) 10 ltac:(lia)) as Hmod. lia.
Qed.

(** ** The words of a reformatted script *)

Lemma split_on_nonempty : forall sep s, split_on sep s <> [].
Proof.
  intros sep [|c s]; cbn [split_on]; [discriminate|].
  destruct (c =? sep)%N; [discriminate|]. destruct (split_on sep s); discriminate.
Qed.

Lemma join_split_on : forall s, join [LF] (split_on LF s) = s.
Proof.
  induction s as [|c s IH]; [reflexivity|].
  cbn [split_on]. destruct (c =? LF)%N eqn:Hc.
  - apply N.eqb_eq in Hc. subst c.
    rewrite join_cons by apply split_on_nonempty. now rewrite IH.
  - destruct (split_on LF s) as [|p ps] eqn:Hs; [now destruct (split_on_nonempty LF s)|].
    destruct ps as [|q ps'].
    + change (join [LF] [p]) with p in IH. change (join [LF] [c :: p]) with (c :: p).
      now rewrite IH.
    + rewrite join_cons in IH |- * by discriminate. rewrite <- app_comm_cons. now rewrite IH.
Qed.

Lemma split_join_lines : forall lines,
  split (join [LF] lines) = concat (List.map split lines).
Proof.
  induction lines as [|l lines IH]; [reflexivity|].
  destruct lines as [|m lines'].
  - cbn [join List.map concat]. now rewrite app_nil_r.
  - rewrite join_cons by discriminate. cbn [app].
    rewrite split_app_space by apply lf_is_space. now rewrite IH.
Qed.

Lemma split_blank_line : forall line, truthy_str (strip line) = false -> split line = [].
Proof.
  intros line H. rewrite <- split_strip. destruct (strip line); [reflexivity|discriminate H].
Qed.

Lemma split_stripped_lines : forall lines,
  concat (List.map split
            (List.map strip (filter (fun line => truthy_str (strip line)) lines)))
  = concat (List.map split lines).
Proof.
  induction lines as [|l lines IH]; [reflexivity|].
  cbn [filter List.map concat]. destruct (truthy_str (strip l)) eqn:Hl.
  - cbn [List.map concat]. now rewrite split_strip, IH.
  - now rewrite (split_blank_line l Hl), IH.
Qed.

(** A text none of whose lines starts with a section keyword keeps its words
    through [_post_process_script]: the reformatting only drops the blank
    lines and the spaces around the lines; and when the text has no more words
    than the cap, the script has the words of the text, the last of them with
    the full stop that [_ensure_sentence_boundary] may add. *)
Theorem short_script_keeps_its_words : forall raw_script target_minutes hard_word_cap,
  (forall line, In line (split_on LF raw_script) ->
                existsb (startswith (str_lower (strip line))) section_keywords = false) ->
  word_count raw_script <= hard_word_cap ->
  split (format_sections raw_script) = split raw_script
  /\ final_period_variant
       (split (processed_script
                 (_post_process_script raw_script target_minutes hard_word_cap)))
       (split raw_script).
Proof.
  intros raw minutes cap Hplain Hshort.
  assert (Hformat : split (format_sections raw) = split raw).
  { unfold format_sections.
    set (cleaned := List.map strip (filter (fun line => truthy_str (strip line))
                                           (split_on LF raw))).
    assert (Hsame : List.map
                      (fun line =>
                         if existsb (startswith (str_lower line)) section_keywords
                         then [LF] ++ lit "[" ++ str_upper (strip line) ++ lit "]" ++ [LF]
                         else line) cleaned = cleaned).
    { rewrite <- (map_id cleaned) at 2. apply map_ext_in. intros line Hin.
      unfold cleaned in Hin. apply in_map_iff in Hin as (l & <- & Hin).
      apply filter_In in Hin as [Hin _].
      specialize (Hplain l Hin). now rewrite Hplain. }
    rewrite Hsame. unfold cleaned.
    rewrite split_join_lines, split_stripped_lines, <- split_join_lines.
    now rewrite join_split_on. }
  split; [exact Hformat|].
  unfold _post_process_script. cbn [processed_script].
  rewrite truncate_unchanged by (fold (word_count (format_sections raw)); unfold word_count in *; now rewrite Hformat).
  rewrite <- Hformat. apply ensure_words.
Qed.

(** ** The grouping of the transcripts by creator *)

Lemma str_eqb_eq : forall a b, str_eqb a b = true <-> a = b.
Proof.
  induction a as [|c a IH]; intros [|d b]; cbn [str_eqb]; split; intros H;
    try reflexivity; try discriminate H.
  - apply andb_prop in H as [Hc Hab]. apply N.eqb_eq in Hc. apply IH in Hab. now subst.
  - injection H as -> ->. rewrite N.eqb_refl. now apply IH.
Qed.

Lemma str_eqb_neq : forall a b, str_eqb a b = false <-> a <> b.
Proof.
  intros a b. split.
  - intros H Heq. apply str_eqb_eq in Heq. congruence.
  - intros H. destruct (str_eqb a b) eqn:Hab; [|reflexivity]. now apply str_eqb_eq in Hab.
Qed.

Lemma str_eqb_sym : forall a b, str_eqb a b = str_eqb b a.
Proof.
  intros a b. destruct (str_eqb b a) eqn:H.
  - apply str_eqb_eq in H. subst. apply str_eqb_refl.
  - apply str_eqb_neq. apply str_eqb_neq in H. congruence.
Qed.

Lemma existsb_str_eqb : forall seen creator,
  existsb (fun name => str_eqb name creator) seen = true <-> In creator seen.
Proof.
  intros seen creator. rewrite existsb_exists. split.
  - intros (name & Hin & Heq). apply str_eqb_eq in Heq. now subst.
  - intros Hin. exists creator. split; [exact Hin|apply str_eqb_refl].
Qed.

Lemma update_creator_upsert : forall creator f creator_analysis,
  update_creator creator f creator_analysis = upsert creator f new_analysis creator_analysis.
Proof.
  intros creator f. induction creator_analysis as [|[name analysis] others IH]; [reflexivity|].
  cbn [update_creator upsert]. now rewrite IH.
Qed.

Lemma append_example_upsert : forall creator example examples,
  append_example creator example examples
  = upsert creator (fun creator_examples => creator_examples ++ [example]) [] examples.
Proof.
  intros creator example. induction examples as [|[name l] others IH]; [reflexivity|].
  cbn [append_example upsert]. now rewrite IH.
Qed.

Section Grouping.

Variable V : Type.
Variable fresh : V.
Variable update : ProcessedTranscript -> V -> V.

Lemma creators_of_snoc : forall transcripts transcript,
  creators_of (transcripts ++ [transcript])
  = add_creator (creators_of transcripts) (uploader transcript).
Proof.
  intros ts t. unfold creators_of. now rewrite map_app, fold_left_app.
Qed.

Lemma creators_of_spec : forall transcripts,
  NoDup (creators_of transcripts)
  /\ forall creator,
       In creator (creators_of transcripts)
       <-> exists transcript, In transcript transcripts /\ uploader transcript = creator.
Proof.
  intros ts. induction ts as [|t ts IH] using rev_ind.
  - split; [constructor|]. intros creator. split; [intros []|intros (t & [] & _)].
  - destruct IH as [Hnodup Hin]. rewrite creators_of_snoc. unfold add_creator.
    destruct (existsb (fun name => str_eqb name (uploader t)) (creators_of ts)) eqn:Hseen.
    + split; [exact Hnodup|]. intros creator. rewrite Hin. split.
      * intros (t' & Ht' & Hc). exists t'. split; [apply in_or_app; now left|exact Hc].
      * intros (t' & Ht' & Hc). apply in_app_or in Ht' as [Ht'|[<-|[]]]; [now exists t'|].
        apply Hin. apply existsb_str_eqb in Hseen. now rewrite <- Hc.
    + assert (Hnew : ~ In (uploader t) (creators_of ts)).
      { intros H. apply existsb_str_eqb in H. congruence. }
      split.
      * apply NoDup_app; [exact Hnodup|repeat constructor; intros []|].
        intros c Hc [<-|[]]. contradiction.
      * intros creator. rewrite in_app_iff, Hin. split.
        -- intros [(t' & Ht' & Hc)|[<-|[]]].
           ++ exists t'. split; [apply in_or_app; now left|exact Hc].
           ++ exists t. split; [apply in_or_app; right; now left|reflexivity].
        -- intros (t' & Ht' & Hc). apply in_app_or in Ht' as [Ht'|[<-|[]]].
           ++ left. now exists t'.
           ++ right. now left.
Qed.

Lemma value_of_snoc : forall creator transcripts transcript,
  value_of_creator fresh update creator (transcripts ++ [transcript])
  = if str_eqb (uploader transcript) creator
    then update transcript (value_of_creator fresh update creator transcripts)
    else value_of_creator fresh update creator transcripts.
Proof.
  intros creator ts t. unfold value_of_creator, transcripts_of. rewrite filter_app.
  cbn [filter]. destruct (str_eqb (uploader t) creator).
  - now rewrite fold_left_app.
  - now rewrite app_nil_r.
Qed.

Lemma upsert_map : forall (value : str -> V) key f creators,
  NoDup creators ->
  upsert key f fresh (List.map (fun creator => (creator, value creator)) creators)
  = if existsb (fun name => str_eqb name key) creators
    then List.map (fun creator =>
                     (creator, if str_eqb key creator then f (value creator)
                               else value creator)) creators
    else List.map (fun creator => (creator, value creator)) creators ++ [(key, f fresh)].
Proof.
  intros value key f. induction creators as [|c creators IH]; intros Hnodup; [reflexivity|].
  inversion Hnodup as [|? ? Hc Hrest]; subst.
  cbn [List.map upsert existsb]. destruct (str_eqb c key) eqn:Hkey.
  - apply str_eqb_eq in Hkey. subst c. cbn [orb]. rewrite str_eqb_refl. f_equal.
    apply map_ext_in. intros c' Hc'. destruct (str_eqb key c') eqn:Hk; [|reflexivity].
    apply str_eqb_eq in Hk. subst c'. contradiction.
  - cbn [orb]. rewrite (IH Hrest). rewrite str_eqb_sym, Hkey.
    destruct (existsb (fun name => str_eqb name key) creators); reflexivity.
Qed.

Lemma grouped_by_creator : forall transcripts,
  group_by_creator fresh update transcripts
  = List.map (fun creator => (creator, value_of_creator fresh update creator transcripts))
             (creators_of transcripts).
Proof.
  intros ts. induction ts as [|t ts IH] using rev_ind; [reflexivity|].
  unfold group_by_creator in IH |- *. rewrite fold_left_app. cbn [fold_left]. rewrite IH.
  destruct (creators_of_spec ts) as [Hnodup Hin].
  rewrite upsert_map by exact Hnodup. rewrite creators_of_snoc. unfold add_creator.
  destruct (existsb (fun name => str_eqb name (uploader t)) (creators_of ts)) eqn:Hseen.
  - apply map_ext. intros creator. now rewrite value_of_snoc.
  - rewrite map_app. cbn [List.map]. f_equal.
    + apply map_ext_in. intros creator Hc. rewrite value_of_snoc.
      destruct (str_eqb (uploader t) creator) eqn:Hk; [|reflexivity].
      apply str_eqb_eq in Hk. subst creator.
      apply existsb_str_eqb in Hc. congruence.
    + rewrite value_of_snoc, str_eqb_refl. f_equal. f_equal.
      unfold value_of_creator, transcripts_of.
      assert (Hnone : filter (fun transcript => str_eqb (uploader transcript) (uploader t)) ts
                      = []).
      { destruct (filter (fun transcript => str_eqb (uploader transcript) (uploader t)) ts)
          as [|x l] eqn:Hf; [reflexivity|].
        assert (Hx : In x (filter (fun transcript => str_eqb (uploader transcript) (uploader t))
                                   ts)) by (rewrite Hf; now left).
        apply filter_In in Hx as [Hx Heq]. apply str_eqb_eq in Heq.
        assert (Hseen' : In (uploader t) (creators_of ts)).
        { apply Hin. now exists x. }
        apply existsb_str_eqb in Hseen'. congruence. }
      now rewrite Hnone.
Qed.

End Grouping.

(** ** The style profiles *)

Lemma fold_left_ext : forall (A B : Type) (f g : A -> B -> A),
  (forall a b, f a b = g a b) -> forall l a, fold_left f l a = fold_left g l a.
Proof.
  intros A B f g Hfg. induction l as [|b l IH]; intros a; [reflexivity|].
  cbn [fold_left]. now rewrite Hfg, IH.
Qed.

Lemma analyzed_creators_grouped : forall processed_transcripts,
  analyzed_creators processed_transcripts
  = List.map
      (fun creator =>
         (creator,
          fold_left (fun analysis transcript => analyze_transcript transcript analysis)
                    (transcripts_of creator processed_transcripts) new_analysis))
      (creators_of processed_transcripts).
Proof.
  intros ts. unfold analyzed_creators.
  pose proof (grouped_by_creator CreatorAnalysis new_analysis analyze_transcript ts) as H.
  unfold group_by_creator, value_of_creator in H. rewrite <- H.
  apply fold_left_ext. intros items t. apply update_creator_upsert.
Qed.

Lemma analysis_of_transcripts : forall creator_transcripts analysis,
  let result :=
    fold_left (fun analysis transcript => analyze_transcript transcript analysis)
              creator_transcripts analysis in
  transcripts result = transcripts analysis ++ creator_transcripts
  /\ common_patterns result = common_patterns analysis
  /\ hindi_dominant result + english_dominant result + balanced result
     = hindi_dominant analysis + english_dominant analysis + balanced analysis
       + len creator_transcripts
  /\ hindi_dominant analysis <= hindi_dominant result
  /\ english_dominant analysis <= english_dominant result
  /\ balanced analysis <= balanced result
  /\ intro_patterns result
     = intro_patterns analysis
       ++ flat_map (fun transcript => truthy_texts (firstn 5 (segment_texts transcript)))
                   creator_transcripts
  /\ outro_patterns result
     = outro_patterns analysis
       ++ flat_map (fun transcript => truthy_texts (last_n 5 (segment_texts transcript)))
                   creator_transcripts.
Proof.
  intros l. induction l as [|t l IH]; intros a; cbv zeta.
  - cbn [fold_left flat_map]. rewrite !app_nil_r. unfold len. cbn [length].
    repeat split; lia.
  - cbn [fold_left]. specialize (IH (analyze_transcript t a)). cbv zeta in IH.
    destruct IH as (H1 & H2 & H3 & H4 & H5 & H6 & H7 & H8).
    rewrite H1, H2, H3, H7, H8. cbn [analyze_transcript transcripts common_patterns
      hindi_dominant english_dominant balanced intro_patterns outro_patterns] in *.
    cbn [flat_map]. rewrite <- !app_assoc. unfold len in *. cbn [length app].
    destruct (PrimFloat.ltb float_0_6 (hindi_ratio t));
      destruct (PrimFloat.ltb float_0_6 (english_ratio t));
      cbn [negb andb] in *; repeat split; lia.
Qed.

Lemma creators_of_length : forall processed_transcripts,
  (length (creators_of processed_transcripts) <= length processed_transcripts)%nat.
Proof.
  intros ts. induction ts as [|t ts IH] using rev_ind; [reflexivity|].
  rewrite creators_of_snoc, length_app. unfold add_creator. cbn [length].
  destruct (existsb _ _); [lia|]. rewrite length_app. cbn [length]. lia.
Qed.

(** [_analyze_creator_styles] returns one profile for every creator that
    uploaded one of the transcripts and none besides, the creators in the
    order of their first transcripts: never more profiles than transcripts,
    and none exactly when there is no transcript. *)
Theorem profiles_are_keyed_by_the_uploaders : forall processed_transcripts,
  exists profiles,
    _analyze_creator_styles processed_transcripts = PyDict profiles
    /\ List.map fst profiles = creators_of processed_transcripts
    /\ NoDup (List.map fst profiles)
    /\ (forall creator,
          In creator (List.map fst profiles)
          <-> exists transcript,
                In transcript processed_transcripts /\ uploader transcript = creator)
    /\ len profiles <= len processed_transcripts
    /\ (profiles = [] <-> processed_transcripts = []).
Proof.
  intros ts. eexists. split; [reflexivity|].
  fold (analyzed_creators ts). rewrite map_map. cbn [fst].
  assert (Hkeys : List.map (fun entry : str * CreatorAnalysis => fst entry)
                           (analyzed_creators ts) = creators_of ts).
  { rewrite analyzed_creators_grouped, map_map. cbn [fst]. apply map_id. }
  rewrite Hkeys. destruct (creators_of_spec ts) as [Hnodup Hin].
  split; [reflexivity|]. split; [exact Hnodup|]. split; [exact Hin|]. split.
  - unfold len. rewrite length_map.
    rewrite <- (length_map (fun entry : str * CreatorAnalysis => fst entry)), Hkeys.
    pose proof (creators_of_length ts). lia.
  - split.
    + intros Hnil. destruct ts as [|t ts']; [reflexivity|].
      assert (H : In (uploader t) (creators_of (t :: ts'))).
      { apply Hin. exists t. split; [now left|reflexivity]. }
      rewrite <- Hkeys in H. apply map_eq_nil in Hnil. rewrite Hnil in H. destruct H.
    + intros ->. reflexivity.
Qed.

Lemma analyzed_creator_entry : forall processed_transcripts creator analysis,
  In (creator, analysis) (analyzed_creators processed_transcripts) ->
  In creator (creators_of processed_transcripts)
  /\ analysis = fold_left (fun analysis transcript => analyze_transcript transcript analysis)
                          (transcripts_of creator processed_transcripts) new_analysis.
Proof.
  intros ts creator a Hin. rewrite analyzed_creators_grouped in Hin.
  apply in_map_iff in Hin as (c & Heq & Hc). injection Heq as -> <-. now split.
Qed.

Lemma transcripts_of_creator_nonempty : forall processed_transcripts creator,
  In creator (creators_of processed_transcripts) ->
  transcripts_of creator processed_transcripts <> [].
Proof.
  intros ts creator Hin. apply (proj2 (creators_of_spec ts)) in Hin as (t & Ht & Hc).
  intros Hnil.
  assert (H : In t (transcripts_of creator ts)).
  { apply filter_In. split; [exact Ht|]. now apply str_eqb_eq. }
  rewrite Hnil in H. destruct H.
Qed.

(** The profile of a creator holds the transcripts of that creator, in
    their order and at least one, and its three language counts add up to
    their number: every transcript is counted once, as Hindi-dominant, as
    English-dominant or as balanced. No pattern is ever put among the common
    patterns. *)
Theorem profile_counts_every_transcript_once :
  forall processed_transcripts creator analysis,
  In (creator, analysis) (analyzed_creators processed_transcripts) ->
  In (creator, pyval_of_analysis (normalize_analysis analysis))
     match _analyze_creator_styles processed_transcripts with
     | PyDict profiles => profiles
     | _ => []
     end
  /\ transcripts (normalize_analysis analysis)
     = transcripts_of creator processed_transcripts
  /\ transcripts_of creator processed_transcripts <> []
  /\ hindi_dominant (normalize_analysis analysis)
     + english_dominant (normalize_analysis analysis)
     + balanced (normalize_analysis analysis)
     = len (transcripts_of creator processed_transcripts)
  /\ 0 <= hindi_dominant (normalize_analysis analysis)
  /\ 0 <= english_dominant (normalize_analysis analysis)
  /\ 0 <= balanced (normalize_analysis analysis)
  /\ common_patterns analysis = [].
Proof.
  intros ts creator a Hin.
  split.
  { unfold _analyze_creator_styles. fold (analyzed_creators ts).
    apply in_map_iff. exists (creator, a). split; [reflexivity|exact Hin]. }
  destruct (analyzed_creator_entry ts creator a Hin) as [Hc Ha].
  pose proof (analysis_of_transcripts (transcripts_of creator ts) new_analysis) as H.
  cbv zeta in H. rewrite <- Ha in H.
  destruct H as (H1 & H2 & H3 & H4 & H5 & H6 & _ & _).
  cbn [new_analysis transcripts common_patterns hindi_dominant english_dominant
       balanced app] in H1, H2, H3, H4, H5, H6.
  cbn [normalize_analysis transcripts hindi_dominant english_dominant balanced].
  split; [exact H1|]. split; [now apply transcripts_of_creator_nonempty|].
  split; [lia|]. now repeat split.
Qed.

Lemma in_truthy_texts : forall segments x,
  In x (truthy_texts segments) <-> In (Some x) segments /\ x <> [].
Proof.
  intros segments x. unfold truthy_texts. rewrite in_flat_map. split.
  - intros ([s|] & Hin & Hx); [|destruct Hx].
    destruct s as [|c s']; [destruct Hx|]. destruct Hx as [<-|[]].
    split; [exact Hin|discriminate].
  - intros [Hin Hne]. exists (Some x). split; [exact Hin|].
    destruct x; [congruence|now left].
Qed.

(** A profile lists at most ten intro patterns and at most ten outro
    patterns, whatever the number of transcripts: the first ten texts that
    were collected, as a set. Each intro pattern is the text, not empty, of
    one of the first five segments of a transcript of the creator, and each
    outro pattern the text of one of the last five. A set holds no more
    elements than were put into it, and only those. *)
Theorem profile_patterns_are_capped :
  (forall elements, (length (list_of_set elements) <= length elements)%nat) ->
  (forall elements x, In x (list_of_set elements) -> In x elements) ->
  forall processed_transcripts creator analysis,
  In (creator, analysis) (analyzed_creators processed_transcripts) ->
  (length (intro_patterns (normalize_analysis analysis)) <= 10)%nat
  /\ (length (outro_patterns (normalize_analysis analysis)) <= 10)%nat
  /\ (forall pattern,
        In pattern (intro_patterns (normalize_analysis analysis)) ->
        pattern <> []
        /\ exists transcript,
             In transcript (transcripts_of creator processed_transcripts)
             /\ In (Some pattern) (firstn 5 (segment_texts transcript)))
  /\ (forall pattern,
        In pattern (outro_patterns (normalize_analysis analysis)) ->
        pattern <> []
        /\ exists transcript,
             In transcript (transcripts_of creator processed_transcripts)
             /\ In (Some pattern) (last_n 5 (segment_texts transcript)))
  /\ common_patterns (normalize_analysis analysis) = [].
Proof.
  intros Hlen Hsub ts creator a Hin.
  destruct (analyzed_creator_entry ts creator a Hin) as [Hc Ha].
  pose proof (analysis_of_transcripts (transcripts_of creator ts) new_analysis) as H.
  cbv zeta in H. rewrite <- Ha in H.
  destruct H as (_ & H2 & _ & _ & _ & _ & H7 & H8).
  cbn [new_analysis common_patterns intro_patterns outro_patterns app] in H2, H7, H8.
  cbn [normalize_analysis intro_patterns outro_patterns common_patterns].
  assert (Hten : forall l : list str, (length (list_of_set (firstn 10 l)) <= 10)%nat).
  { intros l. specialize (Hlen (firstn 10 l)). pose proof (length_firstn_le 10 l). lia. }
  assert (Hfrom : forall (pick : list (option str) -> list (option str)) collected pattern,
            collected = flat_map (fun transcript => truthy_texts (pick (segment_texts transcript)))
                                 (transcripts_of creator ts) ->
            In pattern (list_of_set (firstn 10 collected)) ->
            pattern <> []
            /\ exists transcript,
                 In transcript (transcripts_of creator ts)
                 /\ In (Some pattern) (pick (segment_texts transcript))).
  { intros pick collected pattern -> Hp. apply Hsub in Hp.
    assert (Hp' : In pattern (flat_map (fun transcript =>
                                          truthy_texts (pick (segment_texts transcript)))
                                       (transcripts_of creator ts))).
    { rewrite <- (firstn_skipn 10 (flat_map _ _)). apply in_or_app. now left. }
    apply in_flat_map in Hp' as (t & Ht & Hx). apply in_truthy_texts in Hx as [Hx Hne].
    split; [exact Hne|]. now exists t. }
  split; [apply Hten|]. split; [apply Hten|].
  split; [intros pattern; now apply (Hfrom (firstn 5))|].
  split; [intros pattern; now apply (Hfrom (last_n 5))|].
  rewrite H2. destruct (list_of_set []) as [|x l] eqn:Hset; [reflexivity|].
  assert (Hx : In x (list_of_set [])) by (rewrite Hset; now left).
  apply Hsub in Hx. destruct Hx.
Qed.

(** ** The training context *)

(** [_categorize_duration] calls a video short when it lasts less than six
    minutes, 359 seconds at most, and medium otherwise; it knows no other
    category. *)
Theorem short_means_under_six_minutes : forall duration_seconds,
  (_categorize_duration duration_seconds = lit "short" <-> duration_seconds < 360)
  /\ (_categorize_duration duration_seconds = lit "medium" <-> 360 <= duration_seconds).
Proof.
  intros d. unfold _categorize_duration.
  pose proof (Z.div_mod d 60 ltac:(lia)) as Hdiv.
  pose proof (Z.mod_pos_bound d 60 ltac:(lia)) as Hmod.
  destruct (Z.leb_spec (d / 60) 5) as [Hle|Hgt].
  - split; split; intros H; try reflexivity; try lia; discriminate H.
  - split; split; intros H; try reflexivity; try lia; discriminate H.
Qed.

Lemma examples_of_transcripts : forall creator_transcripts examples,
  fold_left (fun creator_examples transcript => creator_examples ++ [training_example transcript])
            creator_transcripts examples
  = examples ++ List.map training_example creator_transcripts.
Proof.
  intros l. induction l as [|t l IH]; intros examples; cbn [fold_left List.map].
  - now rewrite app_nil_r.
  - rewrite IH. now rewrite <- app_assoc.
Qed.

Lemma examples_grouped : forall processed_transcripts,
  examples_by_creator (_create_training_context processed_transcripts)
  = List.map (fun creator =>
                (creator,
                 List.map training_example (transcripts_of creator processed_transcripts)))
             (creators_of processed_transcripts).
Proof.
  intros ts. unfold _create_training_context. cbn [examples_by_creator].
  rewrite (fold_left_ext _ _ _
             (fun items transcript =>
                upsert (uploader transcript)
                       (fun creator_examples =>
                          creator_examples ++ [training_example transcript]) [] items))
    by (intros items t; apply append_example_upsert).
  pose proof (grouped_by_creator (list TrainingExample) []
                (fun transcript creator_examples =>
                   creator_examples ++ [training_example transcript]) ts) as H.
  unfold group_by_creator, value_of_creator in H. rewrite H.
  apply map_ext. intros creator. now rewrite examples_of_transcripts.
Qed.

(** The training context files one example for every transcript under its
    uploader, in the order of the transcripts, the creators in the order of
    their first transcripts. An example quotes at most the first 2000
    characters of the cleaned text and at most the first ten keywords. *)
Theorem examples_follow_the_transcripts : forall processed_transcripts,
  examples_by_creator (_create_training_context processed_transcripts)
  = List.map (fun creator =>
                (creator,
                 List.map training_example (transcripts_of creator processed_transcripts)))
             (creators_of processed_transcripts)
  /\ (forall creator examples,
        In (creator, examples)
           (examples_by_creator (_create_training_context processed_transcripts)) ->
        examples <> []
        /\ forall example, In example examples ->
             example_creator example = creator
             /\ len (sample_content example) <= 2000
             /\ len (key_patterns example) <= 10)
  /\ forall transcript,
       sample_content (training_example transcript)
       = firstn 2000 (clean_text transcript)
       /\ key_patterns (training_example transcript) = firstn 10 (keywords transcript).
Proof.
  intros ts. split; [apply examples_grouped|]. split.
  - intros creator examples Hin. rewrite examples_grouped in Hin.
    apply in_map_iff in Hin as (c & Heq & Hc). injection Heq as -> <-. split.
    + pose proof (transcripts_of_creator_nonempty ts creator Hc) as Hne.
      destruct (transcripts_of creator ts); [congruence|discriminate].
    + intros example Hex. apply in_map_iff in Hex as (t & <- & Ht).
      apply filter_In in Ht as [_ Ht]. apply str_eqb_eq in Ht.
      cbn [training_example example_creator sample_content key_patterns].
      split; [exact Ht|].
      change (slice_to (clean_text t) 2000) with (firstn (Z.to_nat 2000) (clean_text t)).
      change (slice_to (keywords t) 10) with (firstn (Z.to_nat 10) (keywords t)).
      unfold len. rewrite !length_firstn. lia.
  - intros t. split; reflexivity.
Qed.

(** [_generate_training_prompts] writes one prompt for every creator, the
    creators in the order of their first transcripts, and quotes in it the
    example of the first transcript of the creator: the later transcripts of
    a creator leave no trace in the prompts. *)
Theorem one_prompt_per_creator : forall processed_transcripts,
  List.map prompt_creator
           (training_prompts (_create_training_context processed_transcripts))
  = creators_of processed_transcripts
  /\ forall prompt,
       In prompt (training_prompts (_create_training_context processed_transcripts)) ->
       exists first others,
         transcripts_of (prompt_creator prompt) processed_transcripts = first :: others
         /\ prompt = _create_creator_specific_prompt (prompt_creator prompt)
                                                     (training_example first).
Proof.
  intros ts.
  assert (Hprompts : training_prompts (_create_training_context ts)
                     = _generate_training_prompts
                         (examples_by_creator (_create_training_context ts)))
    by reflexivity.
  rewrite Hprompts, examples_grouped. unfold _generate_training_prompts.
  assert (Hne : forall creator, In creator (creators_of ts) -> transcripts_of creator ts <> [])
    by apply transcripts_of_creator_nonempty.
  revert Hne. generalize (creators_of ts) as creators.
  induction creators as [|c creators IH]; intros Hne.
  - split; [reflexivity|intros prompt []].
  - destruct (IH (fun creator H => Hne creator (or_intror H))) as [IH1 IH2].
    cbn [List.map flat_map fst snd].
    destruct (transcripts_of c ts) as [|first others] eqn:Hc.
    { destruct (Hne c (or_introl eq_refl)). exact Hc. }
    cbn [List.map app]. split.
    + cbn [_create_creator_specific_prompt prompt_creator]. now rewrite IH1.
    + intros prompt [<-|Hin]; [|now apply IH2].
      cbn [_create_creator_specific_prompt prompt_creator]. rewrite Hc.
      now exists first, others.
Qed.

Lemma analyzed_styles_length : forall processed_transcripts,
  py_len (_analyze_creator_styles processed_transcripts)
  = inr (len (creators_of processed_transcripts)).
Proof.
  intros ts. unfold _analyze_creator_styles. cbn [py_len]. f_equal.
  fold (analyzed_creators ts). unfold len. rewrite length_map.
  now rewrite analyzed_creators_grouped, length_map.
Qed.

(** [train_on_transcripts] stores the profiles and the training context and,
    when standard output takes the lines that it prints (the line of the
    start, the line of the failure of the test if the test raises, the line
    of the summary), returns its summary: the number of the transcripts, the
    number of the creators among them, and whether the test call returned a
    response whose text could be read. The number of training examples that
    it reports is zero whatever the transcripts: the examples are filed under
    another key of the training context than the one it counts. *)
Theorem training_summary_counts_no_example :
  forall self processed_transcripts answer,
  stdout_write training_line = None ->
  (forall e,
     answer = inl e \/ (exists response, answer = inr response /\ text response = inl e) ->
     stdout_write (test_failed_line e) = None) ->
  (forall success,
     stdout_write
       (completed_line {| total_transcripts := len processed_transcripts;
                          creators_analyzed := len (creators_of processed_transcripts);
                          training_examples := 0;
                          sample_generation_success := success |}) = None) ->
  exists summary,
    train_on_transcripts self processed_transcripts answer
    = (inr summary,
       {| creator_styles := _analyze_creator_styles processed_transcripts;
          training_context :=
            pyval_of_training_context (_create_training_context processed_transcripts);
          generation_config := generation_config self |})
    /\ total_transcripts summary = len processed_transcripts
    /\ creators_analyzed summary = len (creators_of processed_transcripts)
    /\ training_examples summary = 0
    /\ (sample_generation_success summary = true
        <-> exists response response_text,
              answer = inr response /\ text response = inr response_text).
Proof.
  intros self ts answer Hstart Hfailed Hdone.
  unfold train_on_transcripts. rewrite Hstart.
  cbn [creator_styles training_context generation_config].
  rewrite analyzed_styles_length.
  assert (Htest : exists result,
            _test_generation answer = inr result
            /\ (test_success result = true
                <-> exists response response_text,
                      answer = inr response /\ text response = inr response_text)).
  { unfold _test_generation. destruct answer as [e|response].
    - rewrite (Hfailed e (or_introl eq_refl)). eexists. split; [reflexivity|].
      split; [discriminate|]. intros (r & t & H & _). discriminate H.
    - destruct (text response) as [e|t] eqn:Ht.
      + rewrite (Hfailed e) by (right; now exists response).
        eexists. split; [reflexivity|].
        split; [discriminate|]. intros (r & t & H & Hr). injection H as <-. congruence.
      + eexists. split; [reflexivity|]. split; [|reflexivity].
        intros _. now exists response, t. }
  destruct Htest as (result & -> & Hsuccess).
  unfold pyval_of_training_context.
  match goal with
  | |- context [py_len (dict_get_or ?context ?key ?default)] =>
      change (py_len (dict_get_or context key default)) with (@inr exn Z 0)
  end.
  cbv beta iota zeta. rewrite Hdone. eexists. split; [reflexivity|].
  cbn [total_transcripts creators_analyzed training_examples sample_generation_success].
  repeat (split; [reflexivity|]). exact Hsuccess.
Qed.

(** ** The guidelines of a tone and of a content type *)

Lemma table_get_absent : forall table key default,
  ~ In key (List.map fst table) -> table_get table key default = default.
Proof.
  induction table as [|[k v] table IH]; intros key default Habsent; [reflexivity|].
  cbn [table_get]. cbn [List.map fst In] in Habsent.
  destruct (str_eqb k key) eqn:Hk.
  - apply str_eqb_eq in Hk. subst k. destruct Habsent. now left.
  - apply IH. intros H. apply Habsent. now right.
Qed.

(** The tones that have guidelines of their own are the seven tones of
    [Config.VALID_TONES], in that order, no two with the same text; any
    other tone gets the guidelines of the friendly and informative one. *)
Theorem every_valid_tone_has_its_guidelines :
  List.map fst tone_guidelines = Config.VALID_TONES
  /\ NoDup (List.map snd tone_guidelines)
  /\ (forall tone, In tone Config.VALID_TONES ->
                   In (tone, _get_tone_guidelines tone) tone_guidelines)
  /\ (forall tone, ~ In tone Config.VALID_TONES ->
                   _get_tone_guidelines tone
                   = _get_tone_guidelines (lit "friendly_and_informative")).
Proof.
  split; [reflexivity|]. split.
  { repeat (constructor;
            [let H := fresh in
             intros H; vm_compute in H;
             repeat (destruct H as [H|H]; [discriminate H|]); exact H|]).
    constructor. }
  split.
  - intros tone Hin. unfold Config.VALID_TONES in Hin.
    repeat (destruct Hin as [<-|Hin]; [vm_compute; tauto|]). destruct Hin.
  - intros tone Habsent. unfold _get_tone_guidelines at 1.
    now rewrite table_get_absent.
Qed.

(** A content type has guidelines of its own when it is one of review,
    comparison, guide, news and general; any other gets the general ones.
    Of the five content types that the front end offers, unboxing and
    tutorial are among the others, and none selects the guidelines of guide
    or of news. *)
Theorem unboxing_and_tutorial_get_the_general_guidelines :
  (forall content_type,
     ~ In content_type (List.map fst content_guidelines) ->
     _get_content_type_guidelines content_type
     = _get_content_type_guidelines (lit "general"))
  /\ (forall content_type,
        In content_type App.content_type_options ->
        (_get_content_type_guidelines content_type
         = _get_content_type_guidelines (lit "general")
         <-> content_type <> lit "review" /\ content_type <> lit "comparison")
        /\ _get_content_type_guidelines content_type
           <> _get_content_type_guidelines (lit "guide")
        /\ _get_content_type_guidelines content_type
           <> _get_content_type_guidelines (lit "news")).
Proof.
  split.
  - intros content_type Habsent. unfold _get_content_type_guidelines at 1.
    now rewrite table_get_absent.
  - intros content_type Hin. unfold App.content_type_options in Hin.
    repeat (destruct Hin as [<-|Hin];
            [vm_compute; repeat split; intros; try discriminate; try tauto;
             try (exfalso; intuition congruence)|]).
    destruct Hin.
Qed.

(** ** The patterns reported for a script *)

Lemma contains_chars : forall hay needle c,
  contains hay needle = true -> In c needle -> In c hay.
Proof.
  assert (Hstarts : forall needle hay c,
            startswith hay needle = true -> In c needle -> In c hay).
  { induction needle as [|p needle IH]; intros hay c Hs Hin; [destruct Hin|].
    destruct hay as [|h hay]; [discriminate Hs|]. cbn [startswith] in Hs.
    apply andb_prop in Hs as [Hh Hs]. apply N.eqb_eq in Hh. subst h.
    destruct Hin as [<-|Hin]; [now left|right; now apply (IH hay)]. }
  induction hay as [|h hay IH]; intros needle c Hc Hin.
  - cbn [contains] in Hc. rewrite orb_false_r in Hc. now apply (Hstarts needle).
  - cbn [contains] in Hc. apply orb_prop in Hc as [Hc|Hc].
    + now apply (Hstarts needle).
    + right. now apply (IH needle).
Qed.

(** [_extract_applied_patterns] never reports a technical term nor a
    transition word: the two entries stay empty. The phrases it reports are
    those of its two lists that occur in the lowercased script, in the order
    of the lists; and for a script whose lowercased form is written in ASCII
    it reports no Hinglish expression, all of them being in Devanagari. *)
Theorem applied_patterns_of_a_latin_script : forall script,
  technical_terms (_extract_applied_patterns script) = []
  /\ transition_words (_extract_applied_patterns script) = []
  /\ (forall phrase,
        In phrase (detected_engagement_phrases (_extract_applied_patterns script))
        <-> In phrase engagement_phrases /\ contains (str_lower script) phrase = true)
  /\ (forall expression,
        In expression (hinglish_expressions (_extract_applied_patterns script))
        <-> In expression hinglish_exprs /\ contains (str_lower script) expression = true)
  /\ ((forall c, In c (str_lower script) -> (c < 128)%N) ->
      hinglish_expressions (_extract_applied_patterns script) = []).
Proof.
  intros script. cbn [_extract_applied_patterns technical_terms transition_words
                      detected_engagement_phrases hinglish_expressions].
  split; [reflexivity|]. split; [reflexivity|].
  split; [intros phrase; apply filter_In|]. split; [intros expression; apply filter_In|].
  intros Hascii.
  destruct (filter (contains (str_lower script)) hinglish_exprs) as [|x l] eqn:Hf;
    [reflexivity|].
  assert (Hx : In x (filter (contains (str_lower script)) hinglish_exprs))
    by (rewrite Hf; now left).
  apply filter_In in Hx as [Hx Hc]. exfalso.
  assert (Hhigh : exists c, In c x /\ (128 <= c)%N).
  { unfold hinglish_exprs in Hx.
    repeat (destruct Hx as [<-|Hx];
            [eexists; split; [left; reflexivity|vm_compute; discriminate]|]).
    destruct Hx. }
  destruct Hhigh as (c & Hin & Hge).
  pose proof (Hascii c (contains_chars _ _ _ Hc Hin)). lia.
Qed.

(** ** What the generation prompt says *)

Lemma startswith_app : forall needle post, startswith (needle ++ post) needle = true.
Proof.
  induction needle as [|c needle IH]; intros post; [apply startswith_nil|].
  cbn [app startswith]. now rewrite N.eqb_refl, IH.
Qed.

Lemma occurs_in_contains : forall needle hay,
  occurs_in needle hay -> contains hay needle = true.
Proof.
  intros needle hay (pre & post & ->). induction pre as [|c pre IH].
  - cbn [app]. destruct (needle ++ post) eqn:Hhay; cbn [contains];
      rewrite <- Hhay, startswith_app; reflexivity.
  - cbn [app contains]. rewrite IH. apply orb_true_r.
Qed.

Lemma occurs_in_refl : forall s, occurs_in s s.
Proof. intros s. exists [], []. now rewrite app_nil_r. Qed.

Lemma occurs_in_trans : forall a b c, occurs_in a b -> occurs_in b c -> occurs_in a c.
Proof.
  intros a b c (p1 & q1 & ->) (p2 & q2 & ->).
  exists (p2 ++ p1), (q1 ++ q2). now rewrite <- !app_assoc.
Qed.

Lemma occurs_in_app_l : forall a b c, occurs_in a b -> occurs_in a (b ++ c).
Proof.
  intros a b c (p & q & ->). exists p, (q ++ c). now rewrite <- !app_assoc.
Qed.

Lemma occurs_in_app_r : forall a b c, occurs_in a c -> occurs_in a (b ++ c).
Proof.
  intros a b c (p & q & ->). exists (b ++ p), q. now rewrite <- !app_assoc.
Qed.

Lemma occurs_in_join : forall sep pieces piece,
  In piece pieces -> occurs_in piece (join sep pieces).
Proof.
  intros sep pieces. induction pieces as [|p pieces IH]; intros piece Hin; [destruct Hin|].
  destruct pieces as [|q pieces'].
  - destruct Hin as [<-|[]]. apply occurs_in_refl.
  - rewrite join_cons by discriminate. destruct Hin as [<-|Hin].
    + apply occurs_in_app_l, occurs_in_refl.
    + apply occurs_in_app_r, occurs_in_app_r. now apply IH.
Qed.

Lemma limit_occurs_in_prompt :
  forall creator_styles topic length_minutes tone target_audience content_type
         creator_style additional_context hard_word_cap force_hinglish_ascii,
  occurs_in
    (lit "IMPORTANT HARD LIMIT: Write no more than "
     ++ str_of_int match hard_word_cap with
                   | Some cap => cap
                   | None => Z.min 2000 (Z.max 150 (length_minutes * 150))
                   end
     ++ lit " words.")
    (build_generation_prompt creator_styles topic length_minutes tone target_audience
                             content_type creator_style additional_context hard_word_cap
                             force_hinglish_ascii).
Proof.
  intros styles topic minutes tone audience ctype style context cap force.
  unfold build_generation_prompt.
  eapply occurs_in_trans; [|apply occurs_in_join].
  2:{ do 6 (apply in_or_app; left). apply in_or_app. right. left. reflexivity. }
  eapply occurs_in_trans; [|apply occurs_in_join].
  2:{ do 8 right. left. reflexivity. }
  exists [], (lit " Stop before exceeding this word cap. The script must be complete but concise.").
  cbn [app]. now rewrite <- !app_assoc.
Qed.

Lemma target_occurs_in_prompt :
  forall creator_styles topic length_minutes tone target_audience content_type
         creator_style additional_context hard_word_cap force_hinglish_ascii,
  occurs_in
    (lit "(approximately " ++ str_of_int (length_minutes * SPEECH_WPM) ++ lit " words)")
    (build_generation_prompt creator_styles topic length_minutes tone target_audience
                             content_type creator_style additional_context hard_word_cap
                             force_hinglish_ascii).
Proof.
  intros styles topic minutes tone audience ctype style context cap force.
  unfold build_generation_prompt.
  eapply occurs_in_trans; [|apply occurs_in_join].
  2:{ do 6 (apply in_or_app; left). apply in_or_app. right. left. reflexivity. }
  eapply occurs_in_trans; [|apply occurs_in_join].
  2:{ do 3 right. left. reflexivity. }
  exists (lit "- Duration: " ++ str_of_int minutes ++ lit " minutes "), [].
  rewrite app_nil_r, <- !app_assoc. reflexivity.
Qed.

(** The prompt names the word cap it was given as its hard limit, and the
    cap it falls back on when it is given none is the one that
    [generate_script] resolves for a request without override. The prompt
    also asks for approximately [SPEECH_WPM] words a minute, whatever the
    cap. *)
Theorem prompt_states_the_word_cap :
  forall creator_styles topic length_minutes tone target_audience content_type
         creator_style additional_context hard_word_cap force_hinglish_ascii,
  let limit :=
    match hard_word_cap with
    | Some cap => cap
    | None => resolve_hard_word_cap length_minutes None
    end in
  contains
    (build_generation_prompt creator_styles topic length_minutes tone target_audience
                             content_type creator_style additional_context hard_word_cap
                             force_hinglish_ascii)
    (lit "IMPORTANT HARD LIMIT: Write no more than " ++ str_of_int limit ++ lit " words.")
  = true
  /\ contains
       (build_generation_prompt creator_styles topic length_minutes tone target_audience
                                content_type creator_style additional_context hard_word_cap
                                force_hinglish_ascii)
       (lit "(approximately " ++ str_of_int (length_minutes * SPEECH_WPM) ++ lit " words)")
     = true
  /\ build_generation_prompt creator_styles topic length_minutes tone target_audience
                             content_type creator_style additional_context None
                             force_hinglish_ascii
     = build_generation_prompt creator_styles topic length_minutes tone target_audience
                               content_type creator_style additional_context
                               (Some (resolve_hard_word_cap length_minutes None))
                               force_hinglish_ascii.
Proof.
  intros styles topic minutes tone audience ctype style context cap force limit.
  assert (Hlimit : limit = match cap with
                           | Some c => c
                           | None => Z.min 2000 (Z.max 150 (minutes * 150))
                           end) by (unfold limit; now destruct cap).
  split; [|split; [|reflexivity]].
  - apply occurs_in_contains. rewrite Hlimit. apply limit_occurs_in_prompt.
  - apply occurs_in_contains. apply target_occurs_in_prompt.
Qed.

Lemma profile_of_absent : forall (value : str -> CreatorAnalysis) creators creator,
  ~ In creator creators ->
  profile_of (List.map (fun name => (name, value name)) creators) creator = None.
Proof.
  intros value. induction creators as [|c creators IH]; intros creator Habsent; [reflexivity|].
  cbn [List.map profile_of]. destruct (str_eqb c creator) eqn:Hc.
  - apply str_eqb_eq in Hc. subst c. destruct Habsent. now left.
  - apply IH. intros H. apply Habsent. now right.
Qed.

Lemma profile_of_present : forall (value : str -> CreatorAnalysis) creators creator,
  In creator creators ->
  profile_of (List.map (fun name => (name, value name)) creators) creator
  = Some (value creator).
Proof.
  intros value. induction creators as [|c creators IH]; intros creator Hin; [destruct Hin|].
  cbn [List.map profile_of]. destruct (str_eqb c creator) eqn:Hc.
  - apply str_eqb_eq in Hc. now subst c.
  - destruct Hin as [->|Hin]; [now rewrite str_eqb_refl in Hc|now apply IH].
Qed.

Lemma trained_profiles_grouped : forall processed_transcripts,
  trained_profiles processed_transcripts
  = List.map
      (fun creator =>
         (creator,
          normalize_analysis
            (fold_left (fun analysis transcript => analyze_transcript transcript analysis)
                       (transcripts_of creator processed_transcripts) new_analysis)))
      (creators_of processed_transcripts).
Proof.
  intros ts. unfold trained_profiles. rewrite analyzed_creators_grouped, map_map.
  reflexivity.
Qed.

(** After a training, a request that names a creator who uploaded none of
    the transcripts gets the prompt of a request that names no creator, and
    so does one whose creator is the empty string; an empty additional
    context is left out like a missing one. For a creator who uploaded a
    transcript the prompt holds the style block, with the two descriptions
    of the profile of that creator. *)
Theorem unknown_creator_gets_no_style_block :
  forall processed_transcripts topic length_minutes tone target_audience content_type
         creator creator_style additional_context hard_word_cap force_hinglish_ascii,
  let prompt :=
    build_generation_prompt (trained_profiles processed_transcripts) topic length_minutes
                            tone target_audience content_type in
  ((forall transcript, In transcript processed_transcripts -> uploader transcript <> creator) ->
   prompt (Some creator) additional_context hard_word_cap force_hinglish_ascii
   = prompt None additional_context hard_word_cap force_hinglish_ascii)
  /\ prompt (Some []) additional_context hard_word_cap force_hinglish_ascii
     = prompt None additional_context hard_word_cap force_hinglish_ascii
  /\ prompt creator_style (Some []) hard_word_cap force_hinglish_ascii
     = prompt creator_style None hard_word_cap force_hinglish_ascii
  /\ (creator <> [] ->
      (exists transcript, In transcript processed_transcripts /\ uploader transcript = creator) ->
      exists profile,
        In (creator, profile) (trained_profiles processed_transcripts)
        /\ contains
             (prompt (Some creator) additional_context hard_word_cap force_hinglish_ascii)
             (lit "CREATOR STYLE CONTEXT - Replicate the style of " ++ creator ++ lit ":")
           = true
        /\ contains
             (prompt (Some creator) additional_context hard_word_cap force_hinglish_ascii)
             (lit "- Language preferences: " ++ _get_language_mix_description profile)
           = true
        /\ contains
             (prompt (Some creator) additional_context hard_word_cap force_hinglish_ascii)
             (lit "- Tone profile: " ++ _get_tone_description profile)
           = true).
Proof.
  intros ts topic minutes tone audience ctype creator style context cap force prompt.
  destruct (creators_of_spec ts) as [Hnodup Hin].
  split; [|split; [reflexivity|split; [reflexivity|]]].
  - intros Hunknown. unfold prompt, build_generation_prompt.
    rewrite trained_profiles_grouped, profile_of_absent.
    + now destruct (truthy_str creator).
    + intros H. apply Hin in H as (t & Ht & Hc). now apply (Hunknown t).
  - intros Hne Hknown. apply Hin in Hknown.
    eexists. split.
    { rewrite trained_profiles_grouped. apply in_map_iff. exists creator.
      split; [reflexivity|exact Hknown]. }
    assert (Htruthy : truthy_str creator = true) by now apply truthy_str_spec.
    unfold prompt, build_generation_prompt.
    rewrite trained_profiles_grouped, (profile_of_present _ _ _ Hknown), Htruthy.
    repeat split; apply occurs_in_contains.
    + eapply occurs_in_trans; [|apply occurs_in_join].
      2:{ do 7 (apply in_or_app; left). apply in_or_app. right. left. reflexivity. }
      apply occurs_in_app_r, occurs_in_refl.
    + eapply occurs_in_trans; [|apply occurs_in_join].
      2:{ do 7 (apply in_or_app; left). apply in_or_app. right. right. left. reflexivity. }
      apply occurs_in_refl.
    + eapply occurs_in_trans; [|apply occurs_in_join].
      2:{ do 7 (apply in_or_app; left). apply in_or_app. right. do 2 right. left.
          reflexivity. }
      apply occurs_in_refl.
Qed.

(** With the default of 140 words a minute and no override of the cap, the
    prompt of a video of 15 minutes or more asks for approximately more
    words than the hard limit that it states, and the prompt of a shorter
    video does not. *)
Theorem long_videos_are_asked_for_more_than_the_cap :
  forall creator_styles topic length_minutes tone target_audience content_type
         creator_style additional_context force_hinglish_ascii,
  SPEECH_WPM = 140 ->
  let hard_word_cap := resolve_hard_word_cap length_minutes None in
  let prompt :=
    build_generation_prompt creator_styles topic length_minutes tone target_audience
                            content_type creator_style additional_context
                            (Some hard_word_cap) force_hinglish_ascii in
  contains prompt
           (lit "(approximately " ++ str_of_int (length_minutes * 140) ++ lit " words)")
  = true
  /\ contains prompt
              (lit "Write no more than " ++ str_of_int hard_word_cap ++ lit " words.")
     = true
  /\ (hard_word_cap < length_minutes * 140 <-> 15 <= length_minutes).
Proof.
  intros styles topic minutes tone audience ctype style context force Hwpm cap prompt.
  split; [|split].
  - apply occurs_in_contains. rewrite <- Hwpm. apply target_occurs_in_prompt.
  - apply occurs_in_contains.
    eapply occurs_in_trans; [|apply (limit_occurs_in_prompt styles topic minutes tone audience
                                       ctype style context (Some cap) force)].
    exists (lit "IMPORTANT HARD LIMIT: "), []. now rewrite app_nil_r.
  - unfold cap, resolve_hard_word_cap. lia.
Qed.

Lemma generation_attempt_first_call :
  forall topic length_minutes tone target_audience content_type creator_style
         additional_context requested_word_cap force_hinglish_ascii calls,
  exists outcome others,
    generation_attempt topic length_minutes tone target_audience content_type creator_style
                       additional_context requested_word_cap force_hinglish_ascii calls
    = (outcome,
       calls ++ initial_call topic length_minutes tone target_audience content_type
                             creator_style additional_context requested_word_cap
                             force_hinglish_ascii :: others).
Proof.
  intros topic minutes tone audience ctype style context requested force calls.
  unfold generation_attempt, bind, generate_content.
  set (cap := resolve_hard_word_cap minutes requested).
  set (tokens := max_output_tokens_for cap).
  match goal with |- context [model calls ?c] => set (call1 := c) end.
  change (initial_call topic minutes tone audience ctype style context requested force)
    with call1.
  destruct (model calls call1) as [e|response].
  { eexists. exists []. reflexivity. }
  destruct (candidates response) as [|candidate others].
  - unfold print. destruct (stdout_write fallback_notice) as [e|].
    { eexists. exists []. reflexivity. }
    unfold ret at 1. cbv beta iota.
    match goal with |- context [model (calls ++ [call1]) ?c] => set (call2 := c) end.
    assert (Hstop : forall outcome : exn + GenerationResult,
              exists outcome' others,
                (outcome, (calls ++ [call1]) ++ [call2])
                = (outcome', calls ++ call1 :: others)).
    { intros outcome. exists outcome, [call2]. now rewrite <- app_assoc. }
    destruct (model (calls ++ [call1]) call2) as [e|fallback]; [apply Hstop|].
    destruct (candidates fallback); [apply Hstop|].
    unfold eval. destruct (text fallback) as [e|fallback_text]; [apply Hstop|].
    unfold ret at 1. cbv beta iota.
    destruct (negb (truthy_str fallback_text)); [apply Hstop|].
    destruct (from_response_total fallback topic minutes context cap tokens
                ((calls ++ [call1]) ++ [call2])) as (result & added & -> & _).
    exists (inr result), (call2 :: added). now rewrite <- !app_assoc.
  - destruct (from_response_total response topic minutes context cap tokens
                (calls ++ [call1])) as (result & added & -> & _).
    exists (inr result), added. now rewrite <- app_assoc.
Qed.

(** The run of [generate_script]: stopped by the print of the request line,
    before any call, or started with the initial call. *)
Lemma generate_script_first_call :
  forall topic length_minutes tone target_audience content_type creator_style
         additional_context requested_word_cap force_hinglish_ascii calls,
  match stdout_write (request_line topic length_minutes tone target_audience) with
  | Some e =>
      generate_script topic length_minutes tone target_audience content_type creator_style
                      additional_context requested_word_cap force_hinglish_ascii calls
      = (inl e, calls)
  | None =>
      exists outcome others,
        generate_script topic length_minutes tone target_audience content_type
                        creator_style additional_context requested_word_cap
                        force_hinglish_ascii calls
        = (outcome,
           calls ++ initial_call topic length_minutes tone target_audience content_type
                                 creator_style additional_context requested_word_cap
                                 force_hinglish_ascii :: others)
  end.
Proof.
  intros topic minutes tone audience ctype style context requested force calls.
  rewrite generate_script_unfold.
  destruct (stdout_write (request_line topic minutes tone audience)); [reflexivity|].
  destruct (generation_attempt_first_call topic minutes tone audience ctype style context
              requested force calls) as (outcome & others & ->).
  destruct outcome as [e|result]; [|now eexists; eexists].
  destruct (stdout_write (failure_line e)); now eexists; eexists.
Qed.

End ScriptGenerator.

(** ** The claims at sample inputs *)

(** C10 on a text of two words under a cap of five, and on a text of four
    words under a cap of three. *)
Lemma truncate_unchanged_or_rejoined_witness :
  _truncate_to_words_sentence_aware (lit "one two") 5 = lit "one two"
  /\ exists k,
       cut_point (slice_to (split (lit "ek do. teen char")) 3) k
       /\ (k <= length (slice_to (split (lit "ek do. teen char")) 3))%nat
       /\ (0 <= 3 -> Z.of_nat k <= 3)
       /\ _truncate_to_words_sentence_aware (lit "ek do. teen char") 3
          = join [SPACE] (firstn k (split (lit "ek do. teen char")))
       /\ split (_truncate_to_words_sentence_aware (lit "ek do. teen char") 3)
          = firstn k (split (lit "ek do. teen char"))
       /\ ~ In LF (_truncate_to_words_sentence_aware (lit "ek do. teen char") 3)
       /\ forall c, In c (_truncate_to_words_sentence_aware (lit "ek do. teen char") 3) ->
                    is_space c = true -> c = SPACE.
Proof.
  split.
  - apply (proj1 (truncate_unchanged_or_rejoined (lit "one two") 5)).
    vm_compute. discriminate.
  - apply (proj2 (truncate_unchanged_or_rejoined (lit "ek do. teen char") 3)).
    reflexivity.
Defined.

(** C5 on the script of a request that the service answers with two words. *)
Lemma script_ends_with_terminator_witness :
  ends_with is_terminator (lit "namaste dosto.") = true.
Proof.
  eapply (proj2 (script_ends_with_terminator
                   sample_lower sample_upper sample_prompt no_expected_items no_list_items
                   (failing_continuation_model (lit "namaste dosto")) utf8_stdout)
            (lit "phones") 5 (lit "friendly") (lit "everyone") (lit "review")
            None None None true []).
  vm_compute. reflexivity.
Defined.

(** C1 on the same request: two words under the cap of 750. *)
Lemma final_script_within_cap_witness :
  word_count (lit "namaste dosto.") <= 750 /\ 2 = word_count (lit "namaste dosto.").
Proof.
  eapply (proj2 (final_script_within_cap
                   sample_lower sample_upper sample_prompt no_expected_items no_list_items
                   (failing_continuation_model (lit "namaste dosto")) utf8_stdout)
            (lit "phones") 5 (lit "friendly") (lit "everyone") (lit "review")
            None None None true []).
  vm_compute. reflexivity.
Defined.

(** C2, the claim as stated fails: an override of zero is supplied, and the
    cap is not the override clamped to [200, 5000] but the default for five
    minutes. A negative override does the same. *)
Lemma override_zero_not_clamped :
  resolve_hard_word_cap 5 (Some 0) = 750
  /\ resolve_hard_word_cap 5 (Some (-5)) = 750
  /\ word_cap_as_specified 5 (Some 0) = 200
  /\ resolve_hard_word_cap 5 (Some 0) <> word_cap_as_specified 5 (Some 0).
Proof. repeat split. discriminate. Qed.

(** C3, the claim as stated fails: for five minutes the cap is 750 and 0.85
    times the cap is 637.5. The service answers the request with a text of 637
    words, strictly below; no enumerated-item count is detected; yet
    [needs_more] is false, and [generate_script] issues the initial call only
    and returns the text, although 113 words remain under the cap. *)
Lemma continuation_not_entered_at_637_words :
  (inject_Z (word_count words_637) < (85 # 100) * inject_Z (resolve_hard_word_cap 5 None))%Q
  /\ needs_more no_list_items words_637 (resolve_hard_word_cap 5 None) None = false
  /\ exists initial,
       generate_script sample_lower sample_upper sample_prompt no_expected_items
                       no_list_items (echo_model words_637) utf8_stdout
                       (lit "phones") 5 (lit "friendly") (lit "everyone") (lit "review")
                       None None None true []
       = (inr (Success (words_637 ++ lit ".") 637
                       {| meta_topic := lit "phones"; meta_length_minutes := 5 |}),
          [initial])
       /\ call_site initial = InitialCall.
Proof. vm_compute. repeat split. eexists. repeat split. Qed.

(** C3, as amended, on a text of two words under the cap of 750. *)
Lemma continuation_entered_below_threshold_witness :
  needs_more no_list_items (lit "namaste dosto") 750 None = true
  <-> word_count (lit "namaste dosto") < 17 * 750 / 20.
Proof.
  exact (proj1 (proj2 (continuation_entered_below_threshold
                         no_expected_items no_list_items (echo_model (lit "aur bhi"))
                         (lit "namaste dosto") 5 None (lit "phones") None 975 eq_refl))).
Defined.

(** C4, the claim as stated fails: the topic is "Top 5 phones" (five expected
    items) and the caller caps the script at 200 words. The service answers
    with 100 words and the generic continuation brings 40 more, none of them a
    list marker, so that after the generic continuation no item is counted
    (0 < 5) and exactly 60 words remain under the cap: at least 60, and no
    guided continuation is issued. *)
Lemma guided_not_issued_with_60_words_left :
  exists initial generic script count metadata,
    generate_script sample_lower sample_upper sample_prompt top_five_items no_list_items
                    (staged_model words_100 words_40) utf8_stdout
                    (lit "Top 5 phones") 5 (lit "friendly") (lit "everyone") (lit "review")
                    None None (Some 200) true []
    = (inr (Success script count metadata), [initial; generic])
    /\ call_site initial = InitialCall
    /\ call_site generic = ContinuationCall
    /\ _attempt_continuation (staged_model words_100 words_40) words_100 200 260 [initial]
       = (inr (words_100 ++ [LF; LF] ++ words_40), [initial; generic])
    /\ no_list_items (words_100 ++ [LF; LF] ++ words_40) < 5
    /\ 60 <= 200 - word_count (words_100 ++ [LF; LF] ++ words_40).
Proof.
  do 5 eexists. vm_compute. repeat split; discriminate.
Qed.

(** C4, as amended, where the generic continuation brings 30 words to the
    first 100: 70 words remain under the cap of 200, and the guided
    continuation is issued. *)
Lemma continuation_calls_bounded_and_guided_witness :
  exists accumulated added,
    continue_script no_list_items (staged_model words_100 words_30)
                    words_100 200 260 (Some 5) []
    = (inr accumulated, [] ++ added)
    /\ continuation_calls_shape added
    /\ exists guided, In guided added /\ call_site guided = GuidedContinuationCall.
Proof.
  destruct (proj2 (continuation_calls_bounded_and_guided
                     sample_lower sample_upper sample_prompt no_expected_items
                     no_list_items (staged_model words_100 words_30) utf8_stdout)
              words_100 200 260 (Some 5) []
              (words_100 ++ [LF; LF] ++ words_30)
              [{| call_site := ContinuationCall;
                  call_prompt :=
                    lit "Continue the script from where it stopped. Do not repeat any sentences. "
                    ++ lit "Finish the remaining sections and end with a proper outro. "
                    ++ remaining_words_prompt 100 200 (words_of 80 (lit "shabd"));
                  call_max_output_tokens := 260 |}])
    as (accumulated & added & Hrun & Hshape & Hguided & _).
  - vm_compute. reflexivity.
  - exists accumulated, added. split; [exact Hrun|]. split; [exact Hshape|].
    apply (proj2 Hguided). split; [vm_compute; reflexivity|].
    exists 5. repeat split; vm_compute; congruence.
Defined.

(** C6, at the failing input. The safety-rating check compares the
    probability of a rating with the strings "HIGH" and "MEDIUM": it lists the
    rating when the probability is one of these strings, and never when it is
    a member of [HarmProbability], which the ratings of the service carry. So
    the response whose first candidate the service rates HIGH for harassment
    is not blocked: [generate_script] returns its 637 words as a success. *)
Theorem rated_high_is_returned_as_success :
  (forall candidate,
     (forall rating, In rating (safety_ratings candidate) ->
                     exists level, probability rating = ProbabilityLevel level) ->
     blocked_categories candidate = [])
  /\ (forall candidate rating level,
        In rating (safety_ratings candidate) ->
        probability rating = ProbabilityText level ->
        level = lit "HIGH" \/ level = lit "MEDIUM" ->
        In (category rating ++ lit ": " ++ level) (blocked_categories candidate))
  /\ flagged harassment_candidate
  /\ exists initial,
       generate_script sample_lower sample_upper sample_prompt no_expected_items
                       no_list_items (echo_model_of (flagged_response words_637))
                       utf8_stdout
                       (lit "phones") 5 (lit "friendly") (lit "everyone") (lit "review")
                       None None None true []
       = (inr (Success (words_637 ++ lit ".") 637
                       {| meta_topic := lit "phones"; meta_length_minutes := 5 |}),
          [initial])
       /\ call_site initial = InitialCall.
Proof.
  split; [exact blocked_categories_of_levels|].
  split; [exact blocked_categories_of_text|]. split.
  - eexists. split; [right; left; reflexivity|left; reflexivity].
  - vm_compute. eexists. split; reflexivity.
Qed.



(** C8, at the failing input: three carriage returns between two words are
    cleaned to three newlines, which a second cleaning takes to two. *)
Lemma cleaning_twice_differs :
  _clean_response_text carriage_return_text = lit "namaste" ++ [LF; LF; LF] ++ lit "dosto"
  /\ _clean_response_text (_clean_response_text carriage_return_text)
     = lit "namaste" ++ [LF; LF] ++ lit "dosto"
  /\ _clean_response_text (_clean_response_text carriage_return_text)
     <> _clean_response_text carriage_return_text.
Proof. vm_compute. repeat split. discriminate. Qed.

(** C9, at the failing input: the profiles of one analysed transcript are
    not saved. The file is opened, [save_training_context] raises, the file
    holds the beginning of a document, and [load_training_context] returns
    [False] without loading the profiles. *)
Lemma training_context_roundtrip_fails :
  let save :=
    save_training_context utf8_stdout utf8_file_error every_path_opens
                          (trained_on insertion_order [sample_transcript])
                          sample_path empty_file_system in
  fst save
  = inl (Exception (lit "Object of type ProcessedTranscript is not JSON serializable"))
  /\ snd save sample_path = Some TruncatedDocument
  /\ load_training_context utf8_stdout sample_unreadable
       (trained_on insertion_order [sample_transcript]) sample_path (snd save)
     = (inr false, trained_on insertion_order [sample_transcript]).
Proof. vm_compute. repeat split. Qed.

(** The same by the general lemma. *)
Lemma save_raises_on_analyzed_styles_witness :
  (exists e,
     save_training_context utf8_stdout utf8_file_error every_path_opens
                           (trained_on insertion_order [sample_transcript])
                           sample_path empty_file_system
     = (inl e, write_file empty_file_system sample_path TruncatedDocument)
     /\ (e = not_serializable \/ exists creator, e = utf8_file_error creator))
  /\ forall loader,
       load_training_context utf8_stdout sample_unreadable loader sample_path
                             (write_file empty_file_system sample_path TruncatedDocument)
       = (inr false, loader).
Proof.
  exact (save_raises_on_analyzed_styles
           utf8_stdout insertion_order utf8_file_error every_path_opens sample_unreadable
           [sample_transcript] (trained_on insertion_order [sample_transcript])
           sample_path empty_file_system ltac:(discriminate) eq_refl).
Defined.

(** ** The heuristics on the enumerated items *)

Lemma split_on_app : forall a b,
  split_on LF (a ++ LF :: b) = split_on LF a ++ split_on LF b.
Proof.
  induction a as [|c a IH]; intros b; [reflexivity|].
  cbn [app split_on]. rewrite IH. destruct (c =? LF)%N; [reflexivity|].
  destruct (split_on LF a) as [|p ps] eqn:Ha; [|reflexivity].
  destruct a as [|d a']; [discriminate Ha|]. cbn [split_on] in Ha.
  destruct (d =? LF)%N; [discriminate Ha|]. destruct (split_on LF a'); discriminate Ha.
Qed.

(** [_count_list_items] counts line by line: the count of two texts put on
    separate lines is the sum of their counts, so that the items of a
    continuation add to those of the text before; a text has no more items
    than lines, and the empty text has none. *)
Theorem list_items_add_up :
  forall is_digit is_word_char matches_ignoring_case text continuation,
  let count := Heuristics._count_list_items is_digit is_word_char matches_ignoring_case in
  count (text ++ [LF] ++ continuation) = count text + count continuation
  /\ 0 <= count text <= len (split_on LF text)
  /\ count [] = 0.
Proof.
  intros is_digit is_word_char ci a b count. unfold count, Heuristics._count_list_items.
  split; [|split].
  - cbn [app]. rewrite split_on_app, map_app, filter_app. unfold len.
    rewrite length_app. lia.
  - unfold len. split; [lia|].
    rewrite <- (length_map strip (split_on LF a)).
    pose proof (filter_length_le
                  (Heuristics.is_list_item is_digit is_word_char ci)
                  (List.map strip (split_on LF a))). lia.
  - reflexivity.
Qed.

Section ItemCount.

Variable is_digit : char -> bool.
Variable is_word_char : char -> bool.
Variable matches_ignoring_case : char -> char -> bool.
Variable int_of_str : str -> option Z.

Lemma many_needs_digit : forall (R : Type) p (k : Heuristics.Cursor -> option R),
  (forall cursor, Heuristics.digit_free is_digit (Heuristics.rest cursor) -> k cursor = None) ->
  forall s text_before matched,
    Heuristics.digit_free is_digit s -> Heuristics.many R p k text_before s matched = None.
Proof.
  intros R p k Hk. induction s as [|c s IH]; intros b m Hs.
  - cbn [Heuristics.many]. now apply Hk.
  - cbn [Heuristics.many]. inversion Hs as [|? ? Hc Hs']; subst.
    destruct (p c); [rewrite (IH _ _ Hs')|]; now apply Hk.
Qed.

Lemma atoms_need_digit : forall (R : Type) atoms (k : Heuristics.Cursor -> option R),
  (forall cursor, Heuristics.digit_free is_digit (Heuristics.rest cursor) -> k cursor = None) ->
  forall cursor,
    Heuristics.digit_free is_digit (Heuristics.rest cursor) ->
    Heuristics.match_atoms is_word_char R atoms k cursor = None.
Proof.
  intros R. induction atoms as [|a atoms IH]; intros k Hk cursor Hcur; [now apply Hk|].
  destruct a as [p|p|p|]; cbn [Heuristics.match_atoms].
  - destruct (Heuristics.rest cursor) as [|c s] eqn:Hrest; [reflexivity|].
    destruct (p c); [|reflexivity]. apply IH; [exact Hk|].
    cbn [Heuristics.rest]. now inversion Hcur.
  - apply many_needs_digit; [|exact Hcur]. intros cursor' Hcur'. now apply IH.
  - destruct (Heuristics.rest cursor) as [|c s] eqn:Hrest.
    + apply IH; [exact Hk|]. now rewrite Hrest.
    + assert (Hhere : Heuristics.match_atoms is_word_char R atoms k cursor = None).
      { apply IH; [exact Hk|]. now rewrite Hrest. }
      destruct (p c); [|exact Hhere].
      rewrite IH; [exact Hhere|exact Hk|]. cbn [Heuristics.rest]. now inversion Hcur.
  - destruct (xorb _ _); [|reflexivity]. now apply IH.
Qed.

Lemma atom_then_digit : forall (R : Type) a items,
  (forall (k : Heuristics.Cursor -> option str -> option R) cursor captured,
     Heuristics.digit_free is_digit (Heuristics.rest cursor) ->
     Heuristics.match_items is_word_char R items k cursor captured = None) ->
  forall (k : Heuristics.Cursor -> option str -> option R) cursor captured,
    Heuristics.digit_free is_digit (Heuristics.rest cursor) ->
    Heuristics.match_items is_word_char R (Heuristics.Atom a :: items) k cursor captured
    = None.
Proof.
  intros R a items Hitems k cursor captured Hcur. cbn [Heuristics.match_items].
  apply atoms_need_digit; [|exact Hcur]. intros cursor' Hcur'. now apply Hitems.
Qed.

Lemma group_of_digits : forall (R : Type) body items
    (k : Heuristics.Cursor -> option str -> option R) cursor captured,
  Heuristics.digit_free is_digit (Heuristics.rest cursor) ->
  Heuristics.match_items is_word_char R
    (Heuristics.Group (Heuristics.One is_digit :: body) :: items) k cursor captured
  = None.
Proof.
  intros R body items k cursor captured Hcur.
  cbn [Heuristics.match_items Heuristics.match_atoms].
  destruct (Heuristics.rest cursor) as [|c s]; [reflexivity|].
  inversion Hcur as [|? ? Hc _]; subst. now rewrite Hc.
Qed.

Lemma findall_without_match : forall pattern,
  (forall text_before s, Heuristics.digit_free is_digit s ->
                         Heuristics.match_at is_word_char pattern text_before s = None) ->
  forall s text_before skip,
    Heuristics.digit_free is_digit s -> Heuristics.findall is_word_char pattern text_before s skip = [].
Proof.
  intros pattern Hnone. induction s as [|c s IH]; intros b skip Hs; [reflexivity|].
  cbn [Heuristics.findall]. inversion Hs as [|? ? Hc Hs']; subst.
  destruct skip as [|k]; [|now apply IH].
  rewrite (Hnone b (c :: s) Hs). now apply IH.
Qed.

Lemma top_pattern_needs_digit : forall text_before s,
  Heuristics.digit_free is_digit s ->
  Heuristics.match_at is_word_char (Heuristics.top_pattern is_digit matches_ignoring_case)
                      text_before s = None.
Proof.
  intros b s Hs. unfold Heuristics.match_at.
  change (Heuristics.top_pattern is_digit matches_ignoring_case)
    with (Heuristics.Atom (Heuristics.One (matches_ignoring_case (N_of_ascii "t")))
          :: Heuristics.Atom (Heuristics.One (matches_ignoring_case (N_of_ascii "o")))
          :: Heuristics.Atom (Heuristics.One (matches_ignoring_case (N_of_ascii "p")))
          :: Heuristics.Atom (Heuristics.One is_space)
          :: Heuristics.Atom (Heuristics.Many is_space)
          :: [Heuristics.Group [Heuristics.One is_digit; Heuristics.Many is_digit]]).
  apply atom_then_digit; [|exact Hs].
  do 4 (intros ? ? ? ?; apply atom_then_digit; [|assumption]).
  intros ? ? ? ?. now apply group_of_digits.
Qed.

Lemma counted_pattern_needs_digit : forall text_before s,
  Heuristics.digit_free is_digit s ->
  Heuristics.match_at is_word_char
                      (Heuristics.counted_pattern is_digit matches_ignoring_case)
                      text_before s = None.
Proof.
  intros b s Hs. unfold Heuristics.match_at, Heuristics.counted_pattern.
  apply atom_then_digit; [|exact Hs]. intros k cursor captured Hcur.
  now apply group_of_digits.
Qed.

(** [_extract_expected_item_count] returns nothing for a topic and a context
    that hold no digit: both of its patterns need one. The count of the
    enumerated items then plays no part in the continuation step, which
    only asks whether the text is short of 0.85 times the cap, and issues no
    guided continuation. *)
Theorem no_digit_no_expected_count :
  forall model topic additional_context script_text hard_word_cap max_output_tokens calls,
  let expected_items :=
    Heuristics._extract_expected_item_count is_digit is_word_char matches_ignoring_case
                                            int_of_str topic additional_context in
  let count := Heuristics._count_list_items is_digit is_word_char matches_ignoring_case in
  is_digit SPACE = false ->
  (forall c, In c topic -> is_digit c = false) ->
  (forall context c, additional_context = Some context -> In c context -> is_digit c = false) ->
  expected_items = None
  /\ needs_more count script_text hard_word_cap expected_items
     = (word_count script_text
        <? int_of_float (float_of_int hard_word_cap * float_0_85))
  /\ continue_script count model script_text hard_word_cap max_output_tokens
                     expected_items calls
     = if word_count script_text
          <? int_of_float (float_of_int hard_word_cap * float_0_85)
       then _attempt_continuation model script_text hard_word_cap max_output_tokens calls
       else (inr script_text, calls).
Proof.
  intros model topic context script cap tokens calls expected count
         Hspace Htopic Hcontext.
  assert (Hnone : expected = None).
  { unfold expected, Heuristics._extract_expected_item_count.
    set (text := join [SPACE] _).
    assert (Htext : Heuristics.digit_free is_digit text).
    { apply Forall_forall. intros c Hc. unfold text in Hc.
      apply in_join in Hc as [[<-|[]]|(w & Hw & Hc)]; [exact Hspace|].
      apply filter_In in Hw as [Hw _]. destruct Hw as [<-|Hw]; [now apply Htopic|].
      destruct context as [ctx|]; [|destruct Hw].
      destruct Hw as [<-|[]]. now apply (Hcontext ctx). }
    cbn [flat_map].
    rewrite (findall_without_match _ top_pattern_needs_digit text None 0%nat Htext).
    rewrite (findall_without_match _ counted_pattern_needs_digit text None 0%nat Htext).
    reflexivity. }
  split; [exact Hnone|]. rewrite Hnone.
  split; [reflexivity|].
  unfold continue_script, needs_more. cbn [truthy_opt_int].
  destruct (word_count script <? int_of_float (float_of_int cap * float_0_85));
    [|reflexivity].
  unfold bind.
  destruct (_attempt_continuation model script cap tokens calls) as [[e|accumulated] calls'];
    reflexivity.
Qed.

End ItemCount.

(** ** The prompt of the initial call *)

(** With the prompt that [_build_generation_prompt] renders, the initial
    call of [generate_script] states as its hard limit the cap that the
    request resolves to, the cap that the post-processing enforces on the
    script, and carries the token limit derived from it. It is the first call
    of every run that gets past the print of the request line; a run that
    this print stops issues no call. *)
Theorem initial_prompt_states_the_resolved_cap :
  forall str_lower str_upper _extract_expected_item_count _count_list_items model
         stdout_write SPEECH_WPM str_of_float creator_styles
         topic length_minutes tone target_audience content_type creator_style
         additional_context requested_word_cap force_hinglish_ascii calls,
  let hard_word_cap := resolve_hard_word_cap length_minutes requested_word_cap in
  let run :=
    generate_script str_lower str_upper
      (fun topic length_minutes tone target_audience content_type creator_style
           additional_context hard_word_cap force_hinglish_ascii =>
         build_generation_prompt SPEECH_WPM str_of_float creator_styles topic length_minutes
                                 tone target_audience content_type creator_style
                                 additional_context (Some hard_word_cap)
                                 force_hinglish_ascii)
      _extract_expected_item_count _count_list_items model stdout_write
      topic length_minutes tone target_audience content_type creator_style
      additional_context requested_word_cap force_hinglish_ascii calls in
  match stdout_write (request_line topic length_minutes tone target_audience) with
  | Some e => run = (inl e, calls)
  | None =>
      exists outcome initial others,
        run = (outcome, calls ++ initial :: others)
        /\ call_site initial = InitialCall
        /\ call_prompt initial
           = build_generation_prompt SPEECH_WPM str_of_float creator_styles topic
                                     length_minutes tone target_audience content_type
                                     creator_style additional_context (Some hard_word_cap)
                                     force_hinglish_ascii
        /\ contains (call_prompt initial)
                    (lit "IMPORTANT HARD LIMIT: Write no more than "
                     ++ str_of_int hard_word_cap ++ lit " words.")
           = true
        /\ call_max_output_tokens initial = max_output_tokens_for hard_word_cap
  end.
Proof.
  intros lower upper extract count model stdout wpm sof styles
         topic minutes tone audience ctype style context requested force calls cap run.
  pose proof (generate_script_first_call
                lower upper
                (fun topic length_minutes tone target_audience content_type creator_style
                     additional_context hard_word_cap force_hinglish_ascii =>
                   build_generation_prompt wpm sof styles topic length_minutes
                                           tone target_audience content_type creator_style
                                           additional_context (Some hard_word_cap)
                                           force_hinglish_ascii)
                extract count model stdout
                topic minutes tone audience ctype style context requested force calls)
    as Hfirst.
  fold run in Hfirst.
  destruct (stdout (request_line topic minutes tone audience)); [exact Hfirst|].
  destruct Hfirst as (outcome & others & Hrun).
  exists outcome. eexists. exists others. split; [exact Hrun|].
  split; [reflexivity|]. split; [reflexivity|]. split; [|reflexivity].
  apply occurs_in_contains. cbn [initial_call call_prompt].
  apply (limit_occurs_in_prompt wpm sof styles topic minutes tone audience ctype style
           context (Some cap) force).
Qed.

(** ** The further properties at sample inputs *)

(** A text without a carriage return, with a run of blanks and a run of
    blank lines. *)
Lemma cleaning_idempotent_without_carriage_return_witness :
  _clean_response_text (_clean_response_text (lit "namaste   dosto" ++ [LF; LF; LF] ++ lit "milte hain"))
  = _clean_response_text (lit "namaste   dosto" ++ [LF; LF; LF] ++ lit "milte hain").
Proof.
  apply cleaning_idempotent_without_carriage_return.
  vm_compute. intuition discriminate.
Defined.

(** A text of four words cut to three: the cut falls after the full stop. *)
Lemma truncate_cuts_at_boundary_witness :
  let kept := slice_to (split (lit "ek do. teen char")) 3 in
  let result := _truncate_to_words_sentence_aware (lit "ek do. teen char") 3 in
  ((forall i w, (S i < length kept)%nat -> nth_error kept i = Some w ->
                ends_with is_boundary_mark w = false)
   /\ result = join [SPACE] kept)
  \/ (exists j w,
        (S j < length kept)%nat
        /\ nth_error kept j = Some w
        /\ ends_with is_boundary_mark w = true
        /\ (forall i w', (j < i)%nat -> (S i < length kept)%nat ->
                         nth_error kept i = Some w' ->
                         ends_with is_boundary_mark w' = false)
        /\ result = join [SPACE] (firstn (S j) kept)
        /\ ends_with is_boundary_mark result = true).
Proof.
  apply truncate_cuts_at_boundary. reflexivity.
Defined.

Lemma truncate_idempotent_witness :
  _truncate_to_words_sentence_aware
    (_truncate_to_words_sentence_aware (lit "ek do. teen char") 3) 3
  = _truncate_to_words_sentence_aware (lit "ek do. teen char") 3.
Proof.
  apply truncate_idempotent. lia.
Defined.

(** The request that the service answers with two words. *)
Lemma successful_script_has_words_witness :
  lit "namaste dosto." <> []
  /\ 1 <= 2 <= resolve_hard_word_cap 5 None
  /\ 2 = word_count (lit "namaste dosto.").
Proof.
  eapply (successful_script_has_words
            sample_lower sample_upper sample_prompt no_expected_items no_list_items
            (failing_continuation_model (lit "namaste dosto")) utf8_stdout
            (lit "phones") 5 (lit "friendly") (lit "everyone") (lit "review")
            None None None true []).
  vm_compute. reflexivity.
Defined.

(** The slider at its default of 2000 words, for a video of ten minutes. *)
Lemma slider_value_is_the_cap_witness :
  resolve_hard_word_cap 10 (Some 2000) = 2000
  /\ max_output_tokens_for (resolve_hard_word_cap 10 (Some 2000))
     = Z.min 4096 (13 * 2000 / 10).
Proof.
  apply slider_value_is_the_cap. lia.
Defined.

(** Two lines with a blank line between them, under the cap of 750. *)
Lemma short_script_keeps_its_words_witness :
  split (format_sections sample_lower sample_upper
           (lit "namaste dosto" ++ [LF; LF] ++ lit "  milte hain"))
  = split (lit "namaste dosto" ++ [LF; LF] ++ lit "  milte hain")
  /\ final_period_variant
       (split (processed_script
                 (_post_process_script sample_lower sample_upper
                    (lit "namaste dosto" ++ [LF; LF] ++ lit "  milte hain") 5 750)))
       (split (lit "namaste dosto" ++ [LF; LF] ++ lit "  milte hain")).
Proof.
  apply short_script_keeps_its_words.
  - intros line Hin. vm_compute in Hin.
    repeat (destruct Hin as [<-|Hin]; [reflexivity|]). destruct Hin.
  - vm_compute. discriminate.
Defined.

(** The profile of the creator of one transcript. *)
Lemma profile_counts_every_transcript_once_witness :
  hindi_dominant (normalize_analysis insertion_order
                    (analyze_transcript sample_transcript new_analysis))
  + english_dominant (normalize_analysis insertion_order
                        (analyze_transcript sample_transcript new_analysis))
  + balanced (normalize_analysis insertion_order
                (analyze_transcript sample_transcript new_analysis))
  = len (transcripts_of (lit "TechGuru") [sample_transcript]).
Proof.
  refine (proj1 (proj2 (proj2 (proj2
            (profile_counts_every_transcript_once
               insertion_order [sample_transcript] (lit "TechGuru")
               (analyze_transcript sample_transcript new_analysis) _))))).
  left. reflexivity.
Defined.

Lemma profile_patterns_are_capped_witness :
  (length (intro_patterns (normalize_analysis insertion_order
                             (analyze_transcript sample_transcript new_analysis))) <= 10)%nat.
Proof.
  refine (proj1 (profile_patterns_are_capped
                   insertion_order _ _ [sample_transcript] (lit "TechGuru")
                   (analyze_transcript sample_transcript new_analysis) _)).
  - intros elements. apply Nat.le_refl.
  - intros elements x Hin. exact Hin.
  - left. reflexivity.
Defined.

(** A topic with a lone surrogate, standard output in UTF-8: the print of
    the request line raises, and no call is issued. *)
Lemma print_exceptions_reach_the_caller_witness :
  generate_script sample_lower sample_upper sample_prompt no_expected_items no_list_items
                  (echo_model (lit "namaste dosto")) utf8_stdout
                  (lit "phones " ++ [55296%N]) 5 (lit "friendly") (lit "everyone")
                  (lit "review") None None None true []
  = (inl (Exception
            (lit "'utf-8' codec can't encode character '\ud800' in position 26: surrogates not allowed")),
     []).
Proof.
  apply (proj1 (print_exceptions_reach_the_caller
                  sample_lower sample_upper sample_prompt no_expected_items no_list_items
                  (echo_model (lit "namaste dosto")) utf8_stdout
                  (lit "phones " ++ [55296%N]) 5 (lit "friendly") (lit "everyone")
                  (lit "review") None None None true [])).
  reflexivity.
Defined.

(** The training on one transcript when the test call raises: the summary
    reports one transcript, one creator, no example and a failed test. *)
Lemma training_summary_counts_no_example_witness :
  exists summary,
    fst (train_on_transcripts sample_lower utf8_stdout insertion_order sample_title
                              sample_duration sample_clean_text sample_keywords
                              sample_markers sample_breakdown
                              (trained_on insertion_order []) [sample_transcript]
                              (inl (Exception (lit "quota exceeded"))))
    = inr summary
    /\ total_transcripts summary = 1
    /\ creators_analyzed summary = 1
    /\ training_examples summary = 0
    /\ sample_generation_success summary = false.
Proof.
  destruct (training_summary_counts_no_example
              sample_lower utf8_stdout insertion_order sample_title sample_duration
              sample_clean_text sample_keywords sample_markers sample_breakdown
              (trained_on insertion_order []) [sample_transcript]
              (inl (Exception (lit "quota exceeded"))))
    as (summary & Hrun & Htotal & Hcreators & Hexamples & Hsuccess).
  - reflexivity.
  - intros e [H|(response & H & _)]; [injection H as <-; reflexivity|discriminate H].
  - intros [|]; reflexivity.
  - exists summary. rewrite Hrun. split; [reflexivity|].
    split; [exact Htotal|]. split; [exact Hcreators|]. split; [exact Hexamples|].
    destruct (sample_generation_success summary); [|reflexivity].
    destruct (proj1 Hsuccess eq_refl) as (response & t & H & _). discriminate H.
Defined.

(** A topic without a digit. *)
Lemma no_digit_no_expected_count_witness :
  Heuristics._extract_expected_item_count
    sample_is_digit sample_is_word_char sample_matches_ignoring_case sample_int_of_str
    (lit "best gaming phones") None
  = None.
Proof.
  refine (proj1 (no_digit_no_expected_count
                   sample_is_digit sample_is_word_char sample_matches_ignoring_case
                   sample_int_of_str (echo_model (lit "aur bhi"))
                   (lit "best gaming phones") None (lit "namaste dosto") 750 975 []
                   _ _ _)).
  - reflexivity.
  - intros c Hin. vm_compute in Hin.
    repeat (destruct Hin as [<-|Hin]; [reflexivity|]). destruct Hin.
  - intros context c Hcontext. discriminate Hcontext.
Defined.

(** The topic of the specification's scenario names five items, and a text
    with three numbered lines has three of them. *)
Example top_five_gaming_phones :
  Heuristics._extract_expected_item_count
    sample_is_digit sample_is_word_char sample_matches_ignoring_case sample_int_of_str
    (lit "Top 5 Gaming Phones Under 30000") None
  = Some 5
  /\ Heuristics._count_list_items
       sample_is_digit sample_is_word_char sample_matches_ignoring_case
       (lit "1. Poco" ++ [LF] ++ lit "2) iQOO" ++ [LF] ++ lit "kya baat hai" ++ [LF]
        ++ lit "Phone 3: Realme")
     = 3.
Proof. vm_compute. split; reflexivity. Qed.

(** A video of fifteen minutes without override: 2100 words asked for, 2000
    allowed. *)
Lemma long_videos_are_asked_for_more_than_the_cap_witness :
  contains
    (build_generation_prompt 140 sample_str_of_float [] (lit "phones") 15
       (lit "friendly_and_informative") (lit "tech_enthusiasts") (lit "review") None None
       (Some (resolve_hard_word_cap 15 None)) true)
    (lit "(approximately " ++ str_of_int (15 * 140) ++ lit " words)")
  = true
  /\ contains
       (build_generation_prompt 140 sample_str_of_float [] (lit "phones") 15
          (lit "friendly_and_informative") (lit "tech_enthusiasts") (lit "review") None None
          (Some (resolve_hard_word_cap 15 None)) true)
       (lit "Write no more than " ++ str_of_int (resolve_hard_word_cap 15 None)
        ++ lit " words.")
     = true
  /\ (resolve_hard_word_cap 15 None < 15 * 140 <-> 15 <= 15).
Proof.
  apply (long_videos_are_asked_for_more_than_the_cap
           140 sample_str_of_float [] (lit "phones") 15
           (lit "friendly_and_informative") (lit "tech_enthusiasts") (lit "review")
           None None true).
  reflexivity.
Defined.

(** A generator trained on one transcript, asked for the style of a creator
    it has not seen. *)
Lemma unknown_creator_gets_no_style_block_witness :
  build_generation_prompt 140 sample_str_of_float
    (trained_profiles insertion_order [sample_transcript]) (lit "phones") 5
    (lit "friendly_and_informative") (lit "tech_enthusiasts") (lit "review")
    (Some (lit "Nobody")) None (Some 750) true
  = build_generation_prompt 140 sample_str_of_float
      (trained_profiles insertion_order [sample_transcript]) (lit "phones") 5
      (lit "friendly_and_informative") (lit "tech_enthusiasts") (lit "review")
      None None (Some 750) true.
Proof.
  refine (proj1 (unknown_creator_gets_no_style_block
                   insertion_order 140 sample_str_of_float [sample_transcript]
                   (lit "phones") 5 (lit "friendly_and_informative")
                   (lit "tech_enthusiasts") (lit "review") (lit "Nobody") None None
                   (Some 750) true) _).
  intros transcript [<-|[]]. vm_compute. discriminate.
Defined.
